(** * goblin.driver.pool: the connection pool

    A shallow embedding of [goblin/driver/pool.py] (classes
    [PooledConnection] and [ConnectionPool]) and the proofs of the
    properties its specification states.

    The Python objects are shared and mutated in place, so they live in a
    store indexed by object identity; the two deques of the pool hold
    references into that store.  A coroutine is cut at its [await]s: each
    piece between two suspension points runs atomically on the event loop
    and is one function of the store; the pieces are put together by a
    labelled transition system that also plays the event loop, the clients
    and the server.

    The last part embeds, from [goblin/traversal.py],
    [TraversalFactory._add_properties], [TraversalResponse.__anext__] and
    [Traversal._receive].  What these take from other modules (the method
    [property] of a traversal, the mapper function, the truth value of an
    element) is a parameter of the definitions; elements are values, so an
    in-place update of [current] by the mapper function is not followed. *)

From Stdlib Require Import ZArith String Bool Lia Permutation.
From Stdlib Require Import DecimalString DecimalZ.
From stdpp Require Import base list.

Local Open Scope Z_scope.

(** ** Python values that reach the pool as options *)

Inductive pyval :=
| PyNone
| PyStr (s : string)
| PyInt (n : Z)
| PyDict (kvs : list (string * string)).

(** Truth value of an object, as [or] tests it. *)
Definition truthy (v : pyval) : bool :=
  match v with
  | PyNone => false
  | PyStr s => negb (String.eqb s EmptyString)
  | PyInt n => negb (n =? 0)
  | PyDict kvs => match kvs with [] => false | _ :: _ => true end
  end.

(** [a or b] *)
Definition py_or (a b : pyval) : pyval := if truthy a then a else b.

(** The keyword arguments [_get_connection] hands to [Connection.open]
    (the url, the loop and the TLS context are the same for every call). *)
Record conn_args := ConnArgs {
  username : pyval;
  password : pyval;
  lang : pyval;
  traversal_source : pyval;
  max_inflight : pyval;
  response_timeout : pyval }.

(** The attributes [ConnectionPool.__init__] stores and never rebinds. *)
Record config := Config {
  _username : pyval;
  _password : pyval;
  _lang : pyval;
  _traversal_source : pyval;
  _response_timeout : pyval;
  _max_inflight : pyval;
  _max_conns : Z;
  _min_conns : Z;
  _max_times_acquired : Z }.

(** ** The object store *)

(** Modelled from the spec: the class [Connection] of
    [goblin/driver/connection.py], which is not among the sources.  The spec
    gives it a boolean [closed] that is set once and never cleared; a factory
    [open] that yields an opened session; and [close].  [opened_with] records
    the arguments of the [open] call that made it. *)
Record Connection := MkConnection {
  closed : bool;
  opened_with : conn_args }.

(** A [PooledConnection].  It wraps one [Connection] for its whole life;
    [wrapped] is that object, and [_conn] tells whether the attribute
    [self._conn] still refers to it ([PooledConnection.close] rebinds it to
    [None]); likewise [_pool]. *)
Record PooledConnection := MkPooled {
  wrapped : Connection;
  _conn : bool;
  _pool : bool;
  _times_acquired : Z }.

Abbreviation ref := nat.

(** The mutable part of a [ConnectionPool]: the store of the
    [PooledConnection] objects it has made, its two deques, and the number
    of [_notify()] tasks handed to [loop.create_task] that have not run. *)
Record pool := MkPool {
  objs : list PooledConnection;
  _available : list ref;
  _acquired : list ref;
  notify_tasks : nat }.

Definition new_pool : pool := MkPool [] [] [] 0.

(** The exceptions that occur; [ConnectionError] stands for whatever the
    transport raises from a failed [open] or [close]. *)
Inductive exn := ValueError | AttributeError | IndexError | ConnectionError.

Inductive result (A : Type) :=
| Ok (a : A)
| Raise (e : exn).
Arguments Ok {A} a.
Arguments Raise {A} e.

(** ** A state and exception monad over the pool

    A raised exception keeps the mutations made before it. *)

Definition M (A : Type) : Type := pool -> result A * pool.

Definition ret {A} (a : A) : M A := fun p => (Ok a, p).
Definition raise {A} (e : exn) : M A := fun p => (Raise e, p).
Definition bind {A B} (m : M A) (k : A -> M B) : M B :=
  fun p => match m p with
           | (Ok a, p') => k a p'
           | (Raise e, p') => (Raise e, p')
           end.

Declare Scope pool_scope.
Delimit Scope pool_scope with pool.
Notation "x <- m ;; k" := (bind m (fun x => k))
  (at level 100, m at next level, right associativity) : pool_scope.
Notation "m ;; k" := (bind m (fun _ => k))
  (at level 100, right associativity) : pool_scope.
Local Open Scope pool_scope.

(** Attribute access on an object of the store.  A reference that is not in
    the store has no Python counterpart; it is made to fail like an
    attribute access on [None]. *)
Definition deref (c : ref) : M PooledConnection :=
  fun p => match objs p !! c with
           | Some pc => (Ok pc, p)
           | None => (Raise AttributeError, p)
           end.

Definition store (c : ref) (pc : PooledConnection) : M unit :=
  fun p => (Ok tt, MkPool (<[c := pc]> (objs p)) (_available p) (_acquired p)
                          (notify_tasks p)).

Definition get_available : M (list ref) := fun p => (Ok (_available p), p).
Definition get_acquired : M (list ref) := fun p => (Ok (_acquired p), p).
Definition set_available (l : list ref) : M unit :=
  fun p => (Ok tt, MkPool (objs p) l (_acquired p) (notify_tasks p)).
Definition set_acquired (l : list ref) : M unit :=
  fun p => (Ok tt, MkPool (objs p) (_available p) l (notify_tasks p)).

(** ** [collections.deque] *)

(** [d.remove(x)]: drops the first occurrence, [ValueError] when there is
    none. *)
Fixpoint deque_remove (x : ref) (d : list ref) : option (list ref) :=
  match d with
  | [] => None
  | y :: d' => if Nat.eqb x y then Some d'
               else option_map (cons y) (deque_remove x d')
  end.

Definition available_append (c : ref) : M unit :=
  d <- get_available ;; set_available (d ++ [c]).
Definition acquired_append (c : ref) : M unit :=
  d <- get_acquired ;; set_acquired (d ++ [c]).

(** [self._available.popleft()] and [self._acquired.popleft()] *)
Definition available_popleft : M ref :=
  d <- get_available ;;
  match d with
  | [] => raise IndexError
  | c :: d' => set_available d' ;; ret c
  end.
Definition acquired_popleft : M ref :=
  d <- get_acquired ;;
  match d with
  | [] => raise IndexError
  | c :: d' => set_acquired d' ;; ret c
  end.

Definition acquired_remove (c : ref) : M unit :=
  d <- get_acquired ;;
  match deque_remove c d with
  | None => raise ValueError
  | Some d' => set_acquired d'
  end.

(** ** class PooledConnection *)

Definition times_acquired (c : ref) : M Z :=
  pc <- deref c ;; ret (_times_acquired pc).

Definition with_times (n : Z) (pc : PooledConnection) : PooledConnection :=
  MkPooled (wrapped pc) (_conn pc) (_pool pc) n.

Definition increment_acquired (c : ref) : M unit :=
  pc <- deref c ;;
  store c (with_times (_times_acquired pc + 1) pc).

Definition decrement_acquired (c : ref) : M unit :=
  pc <- deref c ;;
  store c (with_times (_times_acquired pc - 1) pc).

(** The property [closed]: [self._conn.closed]. *)
Definition pooled_closed (c : ref) : M bool :=
  pc <- deref c ;;
  if _conn pc then ret (closed (wrapped pc)) else raise AttributeError.

(** ** class ConnectionPool *)

(** [self._loop.create_task(self._notify())] *)
Definition create_task_notify : M unit :=
  fun p => (Ok tt, MkPool (objs p) (_available p) (_acquired p)
                          (S (notify_tasks p))).

(** [ConnectionPool.release] *)
Definition release (conn : ref) : M unit :=
  is_closed <- pooled_closed conn ;;
  (if is_closed then
     acquired_remove conn
   else
     decrement_acquired conn ;;
     n <- times_acquired conn ;;
     if n =? 0 then
       acquired_remove conn ;;
       available_append conn
     else ret tt) ;;
  create_task_notify.

(** [PooledConnection.release]: [self._pool.release(self)] *)
Definition pooled_release (c : ref) : M unit :=
  pc <- deref c ;;
  if _pool pc then release c else raise AttributeError.

(** Modelled from the spec: the effect on the [closed] flag of a
    [Connection] of a completed [Connection.close()] ([connection.py] is not
    among the sources); the same change happens when the server drops the
    session.  The flag is only ever set. *)
Definition connection_closed (c : ref) : M unit :=
  pc <- deref c ;;
  store c (MkPooled (MkConnection true (opened_with (wrapped pc)))
                    (_conn pc) (_pool pc) (_times_acquired pc)).

(** [PooledConnection.close], resumed when the awaited [self._conn.close()]
    completes; [ok] tells whether that call returned or raised. *)
Definition pooled_close (ok : bool) (c : ref) : M unit :=
  pc <- deref c ;;
  if _conn pc then
    if ok then
      connection_closed c ;;
      pc <- deref c ;;
      store c (MkPooled (wrapped pc) false false (_times_acquired pc))
    else raise ConnectionError
  else raise AttributeError.

(** [PooledConnection(conn, self)] around a session that [Connection.open]
    has just returned. *)
Definition new_pooled (args : conn_args) : PooledConnection :=
  MkPooled (MkConnection false args) true true 0.

(** [ConnectionPool._get_connection], resumed when the awaited
    [Connection.open] has returned an opened session: wraps it in a new
    [PooledConnection]. *)
Definition _get_connection (args : conn_args) : M ref :=
  fun p => (Ok (length (objs p)),
            MkPool (objs p ++ [new_pooled args])
                   (_available p) (_acquired p) (notify_tasks p)).

(** The arguments [init_pool] opens with. *)
Definition init_pool_args (cfg : config) : conn_args :=
  ConnArgs (_username cfg) (_password cfg) (_lang cfg) (_traversal_source cfg)
           (_max_inflight cfg) (_response_timeout cfg).

(** One turn of the loop of [init_pool], resumed when its open returned. *)
Definition init_pool_opened (cfg : config) : M ref :=
  conn <- _get_connection (init_pool_args cfg) ;;
  available_append conn ;;
  ret conn.

(** The first six statements of [acquire]: [x = x or self._x]. *)
Definition acquire_args (cfg : config) (ov : conn_args) : conn_args :=
  ConnArgs (py_or (username ov) (_username cfg))
           (py_or (password ov) (_password cfg))
           (py_or (lang ov) (_lang cfg))
           (py_or (traversal_source ov) (_traversal_source cfg))
           (py_or (max_inflight ov) (_max_inflight cfg))
           (py_or (response_timeout ov) (_response_timeout cfg)).

(** [while self._available: ...] of [acquire].  Every turn pops one entry,
    so [len(self._available)] turns are enough ([reuse_cases] below).
    [Some conn] is the [return conn]; [None] is leaving the loop. *)
Fixpoint reuse (fuel : nat) : M (option ref) :=
  match fuel with
  | O => ret None
  | S fuel =>
      d <- get_available ;;
      match d with
      | [] => ret None
      | _ :: _ =>
          conn <- available_popleft ;;
          is_closed <- pooled_closed conn ;;
          if negb is_closed then
            increment_acquired conn ;;
            acquired_append conn ;;
            ret (Some conn)
          else reuse fuel
      end
  end.

(** [for x in range(len(self._acquired)): ...] of [acquire]; [None] is the
    [else] of the [for]. *)
Fixpoint multiplex (cfg : config) (n : nat) : M (option ref) :=
  match n with
  | O => ret None
  | S n =>
      conn <- acquired_popleft ;;
      t <- times_acquired conn ;;
      if t <? _max_times_acquired cfg then
        increment_acquired conn ;;
        acquired_append conn ;;
        ret (Some conn)
      else
        acquired_append conn ;;
        multiplex cfg n
  end.

(** How one turn of [while True] in [acquire] ends. *)
Inductive turn :=
| Return (conn : ref)            (* return conn *)
| AwaitOpen (args : conn_args)   (* await self._get_connection(...) *)
| AwaitCondition.                (* await self._condition.wait() *)

(** One turn of [while True] in [acquire], up to its [return] or [await]. *)
Definition acquire_turn (cfg : config) (args : conn_args) : M turn :=
  d <- get_available ;;
  r <- reuse (length d) ;;
  match r with
  | Some conn => ret (Return conn)
  | None =>
      a <- get_acquired ;;
      if Z.of_nat (length a) <? _max_conns cfg then ret (AwaitOpen args)
      else
        r <- multiplex cfg (length a) ;;
        match r with
        | Some conn => ret (Return conn)
        | None => ret AwaitCondition
        end
  end.

(** The create branch of [acquire], resumed when its open returned. *)
Definition acquire_opened (args : conn_args) : M ref :=
  conn <- _get_connection args ;;
  increment_acquired conn ;;
  acquired_append conn ;;
  ret conn.

(** The two [while] loops of [close]: the [PooledConnection]s whose
    [close()] coroutines are collected in [waiters], in that order. *)
Fixpoint popleft_all (popleft : M ref) (n : nat) : M (list ref) :=
  match n with
  | O => ret []
  | S n => conn <- popleft ;; ws <- popleft_all popleft n ;; ret (conn :: ws)
  end.

Definition close_waiters : M (list ref) :=
  d <- get_available ;;
  w1 <- popleft_all available_popleft (length d) ;;
  a <- get_acquired ;;
  w2 <- popleft_all acquired_popleft (length a) ;;
  ret (w1 ++ w2).

(** ** The event loop

    What is suspended between two atomic pieces, next to the pool itself.
    The lock is the one of [self._condition]. *)

Inductive event :=
| EvOpen (args : conn_args)        (* [Connection.open] is called *)
| EvOpened (conn : ref)            (* it returned; wrapped as [conn] *)
| EvOpenFailed
| EvClose (conn : ref)             (* [conn.close()] is handed to [gather] *)
| EvClosed (conn : ref) (ok : bool)
| EvAcquired (conn : ref)          (* [acquire] returned [conn] *)
| EvAcquireRaised (e : exn)
| EvReleased (conn : ref) (r : result unit)
| EvInitReturned (ok : bool)
| EvCloseReturned (ok : bool).

Record state := MkState {
  st_pool : pool;
  locked : bool;                (* the lock of [self._condition] is taken *)
  opening : option conn_args;   (* an [acquire] suspended in [_get_connection] *)
  waiting : list conn_args;     (* [acquire]s suspended in [wait()], not notified *)
  woken : list conn_args;       (* notified ones, about to take the lock again *)
  inits : list nat;             (* [init_pool]s suspended in [_get_connection],
                                   each with the turns left after this one *)
  closes : list (list ref);     (* [close]s suspended in [gather], each with the
                                   closes it still awaits *)
  detached : list ref;          (* closes still running after their [gather]
                                   raised *)
  held : list ref;              (* returned by [acquire], not yet released *)
  log : list event }.

Definition init_state : state :=
  MkState new_pool false None [] [] [] [] [] [] [].

Definition with_pool (p : pool) (s : state) : state :=
  MkState p (locked s) (opening s) (waiting s) (woken s) (inits s) (closes s)
          (detached s) (held s) (log s).
Definition with_lock (b : bool) (o : option conn_args) (s : state) : state :=
  MkState (st_pool s) b o (waiting s) (woken s) (inits s) (closes s)
          (detached s) (held s) (log s).
Definition with_waiting (w : list conn_args) (s : state) : state :=
  MkState (st_pool s) (locked s) (opening s) w (woken s) (inits s) (closes s)
          (detached s) (held s) (log s).
Definition with_woken (w : list conn_args) (s : state) : state :=
  MkState (st_pool s) (locked s) (opening s) (waiting s) w (inits s) (closes s)
          (detached s) (held s) (log s).
Definition with_inits (l : list nat) (s : state) : state :=
  MkState (st_pool s) (locked s) (opening s) (waiting s) (woken s) l (closes s)
          (detached s) (held s) (log s).
Definition with_closes (l : list (list ref)) (s : state) : state :=
  MkState (st_pool s) (locked s) (opening s) (waiting s) (woken s) (inits s) l
          (detached s) (held s) (log s).
Definition with_detached (l : list ref) (s : state) : state :=
  MkState (st_pool s) (locked s) (opening s) (waiting s) (woken s) (inits s)
          (closes s) l (held s) (log s).
Definition with_held (l : list ref) (s : state) : state :=
  MkState (st_pool s) (locked s) (opening s) (waiting s) (woken s) (inits s)
          (closes s) (detached s) l (log s).
Definition emit (evs : list event) (s : state) : state :=
  MkState (st_pool s) (locked s) (opening s) (waiting s) (woken s) (inits s)
          (closes s) (detached s) (held s) (log s ++ evs).

(** What can happen next. *)
Inductive label :=
| CallInitPool                    (* a task calls [init_pool()] *)
| InitOpened (i : nat) (ok : bool)  (* the open of the i-th one completes *)
| CallAcquire (ov : conn_args)    (* a call of [acquire] gets the lock *)
| AcquireOpened (ok : bool)       (* the open of the create branch completes *)
| RunNotify                       (* a [_notify()] task gets the lock *)
| Resume (i : nat)                (* the i-th notified waiter gets the lock *)
| CallRelease (conn : ref)        (* a holder of [conn] calls [conn.release()] *)
| CallClose                       (* a task calls [close()] *)
| CloseDone (i : nat) (conn : ref) (ok : bool)
                                  (* a close awaited by the i-th [close] completes *)
| DetachedDone (conn : ref) (ok : bool)
| ConnLost (conn : ref).          (* the server drops the session of [conn] *)

(** One turn of [while True] of [acquire] with the lock held, and what
    becomes of the lock and of the caller. *)
Definition acquire_step (cfg : config) (args : conn_args) (s : state) : state :=
  match acquire_turn cfg args (st_pool s) with
  | (Ok (Return conn), p) =>
      emit [EvAcquired conn]
        (with_held (held s ++ [conn]) (with_lock false None (with_pool p s)))
  | (Ok (AwaitOpen a), p) =>
      emit [EvOpen a] (with_lock true (Some a) (with_pool p s))
  | (Ok AwaitCondition, p) =>
      with_waiting (waiting s ++ [args]) (with_lock false None (with_pool p s))
  | (Raise e, p) =>
      emit [EvAcquireRaised e] (with_lock false None (with_pool p s))
  end.

Definition is_ok {A} (r : result A) : bool :=
  match r with Ok _ => true | Raise _ => false end.

Definition step (cfg : config) (l : label) (s : state) : option state :=
  match l with
  | CallInitPool =>
      match Z.to_nat (_min_conns cfg) with
      | O => Some (emit [EvInitReturned true] s)
      | S n => Some (emit [EvOpen (init_pool_args cfg)]
                          (with_inits (inits s ++ [n]) s))
      end
  | InitOpened i ok =>
      match inits s !! i with
      | None => None
      | Some n =>
          if ok then
            let '(r, p) := init_pool_opened cfg (st_pool s) in
            let s1 := with_pool p s in
            match r, n with
            | Ok conn, O =>
                Some (emit [EvOpened conn; EvInitReturned true]
                           (with_inits (delete i (inits s)) s1))
            | Ok conn, S n' =>
                Some (emit [EvOpened conn; EvOpen (init_pool_args cfg)]
                           (with_inits (<[i := n']> (inits s)) s1))
            | Raise _, _ =>
                Some (emit [EvInitReturned false]
                           (with_inits (delete i (inits s)) s1))
            end
          else Some (emit [EvOpenFailed; EvInitReturned false]
                          (with_inits (delete i (inits s)) s))
      end
  | CallAcquire ov =>
      if locked s then None
      else Some (acquire_step cfg (acquire_args cfg ov) s)
  | AcquireOpened ok =>
      match opening s with
      | None => None
      | Some args =>
          if ok then
            match acquire_opened args (st_pool s) with
            | (Ok conn, p) =>
                Some (emit [EvOpened conn; EvAcquired conn]
                        (with_held (held s ++ [conn])
                           (with_lock false None (with_pool p s))))
            | (Raise e, p) =>
                Some (emit [EvAcquireRaised e]
                           (with_lock false None (with_pool p s)))
            end
          else Some (emit [EvOpenFailed; EvAcquireRaised ConnectionError]
                          (with_lock false None s))
      end
  | RunNotify =>
      if locked s then None
      else
        match notify_tasks (st_pool s) with
        | O => None
        | S k =>
            let p := st_pool s in
            let s1 := with_pool (MkPool (objs p) (_available p) (_acquired p) k) s in
            match waiting s with
            | [] => Some s1
            | w :: ws => Some (with_waiting ws (with_woken (woken s ++ [w]) s1))
            end
        end
  | Resume i =>
      if locked s then None
      else
        match woken s !! i with
        | None => None
        | Some args =>
            Some (acquire_step cfg args (with_woken (delete i (woken s)) s))
        end
  | CallRelease conn =>
      match deque_remove conn (held s) with
      | None => None
      | Some h =>
          let '(r, p) := pooled_release conn (st_pool s) in
          Some (emit [EvReleased conn r] (with_held h (with_pool p s)))
      end
  | CallClose =>
      let '(r, p) := close_waiters (st_pool s) in
      let s1 := with_pool p s in
      match r with
      | Ok [] => Some (emit [EvCloseReturned true] s1)
      | Ok ws => Some (emit (map EvClose ws) (with_closes (closes s ++ [ws]) s1))
      | Raise _ => Some (emit [EvCloseReturned false] s1)
      end
  | CloseDone i conn ok =>
      match closes s !! i with
      | None => None
      | Some ws =>
          match deque_remove conn ws with
          | None => None
          | Some ws' =>
              let '(r, p) := pooled_close ok conn (st_pool s) in
              let s1 := emit [EvClosed conn (is_ok r)] (with_pool p s) in
              match r, ws' with
              | Ok _, [] =>
                  Some (emit [EvCloseReturned true]
                             (with_closes (delete i (closes s)) s1))
              | Ok _, _ :: _ =>
                  Some (with_closes (<[i := ws']> (closes s)) s1)
              | Raise _, _ =>
                  Some (emit [EvCloseReturned false]
                          (with_detached (detached s ++ ws')
                             (with_closes (delete i (closes s)) s1)))
              end
          end
      end
  | DetachedDone conn ok =>
      match deque_remove conn (detached s) with
      | None => None
      | Some d =>
          let '(r, p) := pooled_close ok conn (st_pool s) in
          Some (emit [EvClosed conn (is_ok r)] (with_detached d (with_pool p s)))
      end
  | ConnLost conn =>
      match connection_closed conn (st_pool s) with
      | (Ok _, p) => Some (with_pool p s)
      | (Raise _, _) => None
      end
  end.

Fixpoint run (cfg : config) (tr : list label) (s : state) : option state :=
  match tr with
  | [] => Some s
  | l :: tr =>
      match step cfg l s with
      | Some s' => run cfg tr s'
      | None => None
      end
  end.

(** ** Vocabulary of the statements *)

(** The share counter of an object of the store. *)
Definition counter (p : pool) (c : ref) : Z :=
  match objs p !! c with
  | Some pc => _times_acquired pc
  | None => 0
  end.

(** Whether the [Connection] behind [c] reports closed. *)
Definition is_closed (p : pool) (c : ref) : bool :=
  match objs p !! c with
  | Some pc => closed (wrapped pc)
  | None => false
  end.

(** [c] is an object whose [_conn] and [_pool] are still bound. *)
Definition bound_attrs (p : pool) (c : ref) : Prop :=
  exists pc, objs p !! c = Some pc /\ _conn pc = true /\ _pool pc = true.

Definition tracked (p : pool) : list ref := _available p ++ _acquired p.

(** The [Connection]s behind the objects of the store. *)
Definition connections (p : pool) : list Connection := map wrapped (objs p).

(** Configurations and arguments used in the examples. *)
Definition no_overrides : conn_args :=
  ConnArgs PyNone PyNone PyNone PyNone PyNone PyNone.

Definition example_config (max_conns min_conns max_times : Z) : config :=
  Config (PyStr EmptyString) (PyStr EmptyString) (PyStr "gremlin-groovy")
         PyNone PyNone (PyInt 64) max_conns min_conns max_times.

(** [c]'s counter has reached [max_times_acquired]. *)
Definition saturated (cfg : config) (p : pool) (c : ref) : Prop :=
  exists pc, objs p !! c = Some pc /\ _max_times_acquired cfg <= _times_acquired pc.

(** The five ways one turn of the loop of [acquire] can go, each with the
    pool it leaves: reuse, an [AttributeError] from an idle entry whose
    [_conn] is unbound, create, multiplex, wait. *)
Inductive turn_spec (cfg : config) (args : conn_args) (p : pool) :
  result turn -> pool -> Prop :=
| turn_reuse pre c post pc :
    _available p = pre ++ c :: post ->
    (forall x, x ∈ pre -> is_closed p x = true) ->
    objs p !! c = Some pc -> _conn pc = true -> closed (wrapped pc) = false ->
    turn_spec cfg args p (Ok (Return c))
      (MkPool (<[c := with_times (_times_acquired pc + 1) pc]> (objs p))
              post (_acquired p ++ [c]) (notify_tasks p))
| turn_raise pre c post :
    _available p = pre ++ c :: post ->
    (forall x, x ∈ pre -> is_closed p x = true) ->
    (forall pc, objs p !! c = Some pc -> _conn pc = false) ->
    turn_spec cfg args p (Raise AttributeError)
      (MkPool (objs p) post (_acquired p) (notify_tasks p))
| turn_create :
    (forall x, x ∈ _available p -> is_closed p x = true) ->
    Z.of_nat (length (_acquired p)) < _max_conns cfg ->
    turn_spec cfg args p (Ok (AwaitOpen args))
      (MkPool (objs p) [] (_acquired p) (notify_tasks p))
| turn_multiplex pre c post pc :
    (forall x, x ∈ _available p -> is_closed p x = true) ->
    _max_conns cfg <= Z.of_nat (length (_acquired p)) ->
    _acquired p = pre ++ c :: post ->
    (forall x, x ∈ pre -> saturated cfg p x) ->
    objs p !! c = Some pc -> _times_acquired pc < _max_times_acquired cfg ->
    turn_spec cfg args p (Ok (Return c))
      (MkPool (<[c := with_times (_times_acquired pc + 1) pc]> (objs p))
              [] (post ++ pre ++ [c]) (notify_tasks p))
| turn_wait :
    (forall x, x ∈ _available p -> is_closed p x = true) ->
    _max_conns cfg <= Z.of_nat (length (_acquired p)) ->
    (forall x, x ∈ _acquired p -> saturated cfg p x) ->
    turn_spec cfg args p (Ok AwaitCondition)
      (MkPool (objs p) [] (_acquired p) (notify_tasks p)).

(** A saturated pool of three shared connections, the first at its limit of
    two holders. *)
Definition example_pooled (n : Z) : PooledConnection :=
  MkPooled (MkConnection false no_overrides) true true n.

Definition example_saturated : state :=
  with_pool (MkPool [example_pooled 2; example_pooled 1; example_pooled 1]
                    [] [0; 1; 2]%nat 0)
            init_state.

(** A computation that leaves the [Connection] objects alone. *)
Definition keeps_connections {A} (m : M A) : Prop :=
  forall p r p', m p = (r, p') -> connections p' = connections p.

(** The states [init_pool] goes through when it runs alone on a new pool:
    after [k] opens, suspended in the next one with [n] more to follow, and
    returned. *)
Definition init_log (cfg : config) (k : nat) : list event :=
  flat_map (fun c => [EvOpen (init_pool_args cfg); EvOpened c]) (seq 0 k).

Definition init_pool_of (cfg : config) (k : nat) : pool :=
  MkPool (replicate k (new_pooled (init_pool_args cfg))) (seq 0 k) [] 0.

Definition init_mid (cfg : config) (k n : nat) : state :=
  MkState (init_pool_of cfg k) false None [] [] [n] [] [] []
          (init_log cfg k ++ [EvOpen (init_pool_args cfg)]).

Definition init_done (cfg : config) (k : nat) : state :=
  MkState (init_pool_of cfg k) false None [] [] [] [] [] []
          (init_log cfg k ++ [EvInitReturned true]).

(** [c] after [PooledConnection.close] has returned. *)
Definition closed_pooled (pc : PooledConnection) : PooledConnection :=
  MkPooled (MkConnection true (opened_with (wrapped pc))) false false
           (_times_acquired pc).

(** [c] is an object whose [_conn] and [_pool] are [None]. *)
Definition unbound (p : pool) (c : ref) : Prop :=
  exists pc, objs p !! c = Some pc /\ _conn pc = false /\ _pool pc = false.

(** The labels of the life of a pool after its initialisation. *)
Definition no_init (l : label) : Prop :=
  match l with
  | CallInitPool | InitOpened _ _ => False
  | _ => True
  end.

(** The bound on the tracked connections, with room kept for the one a
    suspended create branch is about to add. *)
Definition within_capacity (cfg : config) (s : state) : Prop :=
  (locked s = true <-> opening s <> None) /\
  Z.of_nat (length (tracked (st_pool s)))
    + match opening s with Some _ => 1 | None => 0 end <= _max_conns cfg.

(** The same while [init_pool] runs alone on the new pool. *)
Definition initialising (cfg : config) (s : state) : Prop :=
  locked s = false /\ opening s = None /\ _acquired (st_pool s) = [] /\
  match inits s with
  | [] => Z.of_nat (length (_available (st_pool s))) <= _max_conns cfg
  | [n] => Z.of_nat (length (_available (st_pool s))) + Z.of_nat n + 1
             <= _max_conns cfg
  | _ => False
  end.

(** The ways [release] can go, each with the pool it leaves: the [closed]
    property fails on an unbound [_conn]; a closed connection is removed
    from [acquired], or is not there; a connection that is not closed keeps
    other holders, or goes back to [available], or has no holder left and is
    not in [acquired]. *)
Inductive release_spec (c : ref) (p : pool) : result unit -> pool -> Prop :=
| release_unbound :
    (forall pc, objs p !! c = Some pc -> _conn pc = false) ->
    release_spec c p (Raise AttributeError) p
| release_closed pc aq :
    objs p !! c = Some pc -> _conn pc = true -> closed (wrapped pc) = true ->
    deque_remove c (_acquired p) = Some aq ->
    release_spec c p (Ok tt)
      (MkPool (objs p) (_available p) aq (S (notify_tasks p)))
| release_closed_absent pc :
    objs p !! c = Some pc -> _conn pc = true -> closed (wrapped pc) = true ->
    deque_remove c (_acquired p) = None ->
    release_spec c p (Raise ValueError) p
| release_shared pc :
    objs p !! c = Some pc -> _conn pc = true -> closed (wrapped pc) = false ->
    _times_acquired pc - 1 <> 0 ->
    release_spec c p (Ok tt)
      (MkPool (<[c := with_times (_times_acquired pc - 1) pc]> (objs p))
              (_available p) (_acquired p) (S (notify_tasks p)))
| release_idle pc aq :
    objs p !! c = Some pc -> _conn pc = true -> closed (wrapped pc) = false ->
    _times_acquired pc - 1 = 0 ->
    deque_remove c (_acquired p) = Some aq ->
    release_spec c p (Ok tt)
      (MkPool (<[c := with_times (_times_acquired pc - 1) pc]> (objs p))
              (_available p ++ [c]) aq (S (notify_tasks p)))
| release_idle_absent pc :
    objs p !! c = Some pc -> _conn pc = true -> closed (wrapped pc) = false ->
    _times_acquired pc - 1 = 0 ->
    deque_remove c (_acquired p) = None ->
    release_spec c p (Raise ValueError)
      (MkPool (<[c := with_times (_times_acquired pc - 1) pc]> (objs p))
              (_available p) (_acquired p) (notify_tasks p)).

(** The invariant of the bookkeeping.  [h] lists the connections callers
    hold (one entry per [acquire] not yet released) and [gone] tells which
    connections a [close] of the pool has taken out of the deques. *)
Record pool_inv (gone : ref -> Prop) (h : list ref) (p : pool) : Prop := {
  inv_refs : forall c, c ∈ tracked p ++ h -> (c < length (objs p))%nat;
  inv_nodup : NoDup (tracked p);
  inv_available : forall c, c ∈ _available p -> counter p c = 0;
  inv_acquired : forall c, c ∈ _acquired p -> 1 <= counter p c;
  inv_held : forall c, c ∈ tracked p ->
    Z.of_nat (count_occ Nat.eq_dec h c) <= counter p c;
  inv_unbound : forall c pc,
    objs p !! c = Some pc -> _conn pc = false -> closed (wrapped pc) = true;
  inv_live : forall c pc,
    objs p !! c = Some pc -> closed (wrapped pc) = false -> ~ gone c ->
    c ∈ tracked p }.

Definition state_inv (s : state) : Prop :=
  pool_inv (fun c => EvClose c ∈ log s) (held s) (st_pool s).

(** ** Further vocabulary for the pool *)

(** An idle entry that the reuse loop discards: its [_conn] is bound and
    the [Connection] behind it reports closed. *)
Definition stale (p : pool) (c : ref) : Prop :=
  exists pc, objs p !! c = Some pc /\ _conn pc = true /\ closed (wrapped pc) = true.

(** A pool of three idle connections, the oldest of which the server has
    dropped. *)
Definition example_idle : pool :=
  MkPool [MkPooled (MkConnection true no_overrides) true true 0;
          example_pooled 0; example_pooled 0]
         [0; 1; 2]%nat [] 0.

(** No tracked connection is shared beyond [max_times_acquired]. *)
Definition bounded (cfg : config) (p : pool) : Prop :=
  forall c, c ∈ tracked p -> counter p c <= _max_times_acquired cfg.

(** One connection, opened with [args], held by [k] callers, and nobody
    waiting. *)
Definition shared_by (args : conn_args) (k : nat) (s : state) : Prop :=
  st_pool s = MkPool [with_times (Z.of_nat k) (new_pooled args)] [] [0%nat] 0 /\
  locked s = false /\ held s = replicate k 0%nat /\
  waiting s = [] /\ woken s = [].

(** ** goblin.traversal *)

(** [str(n)] of a Python [int]. *)
Definition py_str (n : Z) : string := NilEmpty.string_of_int (Z.to_int n).

(** The loop of [TraversalFactory._add_properties], threading the local
    [traversal] and the attribute [self._binding].  [property] stands for the
    method [property] of the traversal object, which belongs to the
    gremlin_python library; its two arguments are the pairs
    [('k' + str(self._binding), k)] and [('v' + str(self._binding), v)]. *)
Fixpoint add_properties_loop {T : Type}
    (property : T -> string * string -> string * pyval -> T)
    (traversal : T) (props : list (string * pyval)) (_binding : Z) : T * Z :=
  match props with
  | [] => (traversal, _binding)
  | (k, v) :: props =>
      if truthy v then
        add_properties_loop property
          (property traversal
             (String.append "k" (py_str _binding), k)
             (String.append "v" (py_str _binding), v))
          props (_binding + 1)
      else add_properties_loop property traversal props _binding
  end.

(** [TraversalFactory._add_properties]: the traversal it returns and the
    value it leaves in [self._binding]. *)
Definition _add_properties {T : Type}
    (property : T -> string * string -> string * pyval -> T)
    (traversal : T) (props : list (string * pyval)) (_binding : Z) : T * Z :=
  (fst (add_properties_loop property traversal props _binding), 0).

(** The properties that carry a truthy value. *)
Definition kept (props : list (string * pyval)) : list (string * pyval) :=
  List.filter (fun kv => truthy (snd kv)) props.

(** The calls of [property] for the properties [props], numbered from
    [b]. *)
Fixpoint property_calls (b : Z) (props : list (string * pyval))
  : list ((string * string) * (string * pyval)) :=
  match props with
  | [] => []
  | (k, v) :: props =>
      ((String.append "k" (py_str b), k), (String.append "v" (py_str b), v))
        :: property_calls (b + 1) props
  end.

(** The names bound by a list of calls. *)
Definition binding_names (calls : list ((string * string) * (string * pyval)))
  : list string :=
  flat_map (fun c => [fst (fst c); fst (snd c)]) calls.

(** [TraversalResponse]: the [asyncio.Queue] it reads, whose items are
    elements ([Some]) or [None], and its flag [_done]. *)
Record TraversalResponse (E : Type) := MkResponse {
  _queue : list (option E);
  _done : bool }.
Arguments MkResponse {E} _ _.
Arguments _queue {E} _.
Arguments _done {E} _.

(** How a call of [TraversalResponse.__anext__] ends. *)
Inductive anext (E : Type) :=
| Yielded (msg : E)       (* return msg *)
| ReturnedNone            (* the bare return *)
| StopAsyncIteration      (* raise StopAsyncIteration *)
| AwaitGet.               (* suspended in self._queue.get(): the queue is empty *)
Arguments Yielded {E} msg.
Arguments ReturnedNone {E}.
Arguments StopAsyncIteration {E}.
Arguments AwaitGet {E}.

(** Truth value of a queue item or of an attribute that holds an element
    or [None]; [truth] is the truth value of the elements, which their class
    decides. *)
Definition item_truth {E} (truth : E -> bool) (msg : option E) : bool :=
  match msg with
  | Some e => truth e
  | None => false
  end.

(** [TraversalResponse.__anext__] *)
Definition __anext__ {E} (truth : E -> bool) (r : TraversalResponse E)
  : anext E * TraversalResponse E :=
  if _done r then (ReturnedNone, r)
  else
    match _queue r with
    | [] => (AwaitGet, r)
    | msg :: q =>
        match msg with
        | Some e =>
            if truth e then (Yielded e, MkResponse q false)
            else (StopAsyncIteration, MkResponse q true)
        | None => (StopAsyncIteration, MkResponse q true)
        end
    end.

(** [n] calls of [__anext__] in a row. *)
Fixpoint anexts {E} (truth : E -> bool) (n : nat) (r : TraversalResponse E)
  : list (anext E) * TraversalResponse E :=
  match n with
  | O => ([], r)
  | S n =>
      let '(a, r1) := __anext__ truth r in
      let '(l, r2) := anexts truth n r1 in
      (a :: l, r2)
  end.

(** What [Traversal._receive] reads from [self]: [self.session.current]
    as the function [get(id, None)] makes of it, [self._element], and
    [self._element_class], given by the instance that a call of the class
    returns. *)
Record Traversal (ID E : Type) := MkTraversal {
  session_current : ID -> option E;
  _element : option E;
  _element_class : option E }.
Arguments MkTraversal {ID E} _ _ _.
Arguments session_current {ID E} _ _.
Arguments _element {ID E} _.
Arguments _element_class {ID E} _.

(** What [_receive] takes from outside the module: [result['id']] (absent:
    [None]), [current.__mapping__.mapper_func(result, current)], and the
    truth value of an element. *)
Record Mapping (ID R E : Type) := MkMapping {
  result_id : R -> option ID;
  mapper_func : R -> E -> E;
  truth : E -> bool }.
Arguments MkMapping {ID R E} _ _ _.
Arguments result_id {ID R E} _ _.
Arguments mapper_func {ID R E} _ _ _.
Arguments truth {ID R E} _ _.

Inductive receive_exn :=
| KeyError                (* result['id'] *)
| NoneAttributeError.     (* current.__mapping__ with current None *)

(** The body of [for result in results] in [_receive], up to the element
    it puts on the queue. *)
Definition receive_result {ID R E} (m : Mapping ID R E) (self : Traversal ID E)
    (result : R) : receive_exn + E :=
  match result_id m result with
  | None => inl KeyError
  | Some id =>
      let current := session_current self id in
      let current :=
        if negb (item_truth (truth m) current) then
          if item_truth (truth m) (_element self)
             || (if _element_class self is Some _ then true else false)
          then
            if item_truth (truth m) (_element self) then _element self
            else _element_class self
          else current
        else current in
      match current with
      | None => inl NoneAttributeError
      | Some c => inr (mapper_func m result c)
      end
  end.

(** [for result in results: ...] *)
Fixpoint receive_results {ID R E} (m : Mapping ID R E) (self : Traversal ID E)
    (results : list R) (queue : list (option E))
  : option receive_exn * list (option E) :=
  match results with
  | [] => (None, queue)
  | result :: results =>
      match receive_result m self result with
      | inl e => (Some e, queue)
      | inr element => receive_results m self results (queue ++ [Some element])
      end
  end.

(** [async for msg in async_iter: ...]; a message is given by its [data],
    the empty list standing for any falsy [data]. *)
Fixpoint receive_msgs {ID R E} (m : Mapping ID R E) (self : Traversal ID E)
    (msgs : list (list R)) (queue : list (option E))
  : option receive_exn * list (option E) :=
  match msgs with
  | [] => (None, queue)
  | results :: msgs =>
      match results with
      | [] => receive_msgs m self msgs queue
      | _ :: _ =>
          match receive_results m self results queue with
          | (Some e, queue) => (Some e, queue)
          | (None, queue) => receive_msgs m self msgs queue
          end
      end
  end.

(** [Traversal._receive]: the exception it ends with, if any, and the
    queue it leaves. *)
Definition _receive {ID R E} (m : Mapping ID R E) (self : Traversal ID E)
    (msgs : list (list R)) (queue : list (option E))
  : option receive_exn * list (option E) :=
  match receive_msgs m self msgs queue with
  | (Some e, queue) => (Some e, queue)
  | (None, queue) => (None, queue ++ [None])
  end.

(** An instance for the examples: results are pairs of an optional id and
    a number, elements are numbers, falsy when 0, and mapping adds the
    number of the result to the element. *)
Definition example_mapping : Mapping nat (option nat * nat) nat :=
  MkMapping fst (fun r c => (c + snd r)%nat) (fun n => negb (Nat.eqb n 0)).

Definition example_traversal (cls : option nat) : Traversal nat nat :=
  MkTraversal (fun id => if Nat.eqb id 1 then Some 10%nat else None) None cls.

(** ** The deque operations *)

Lemma deque_remove_Some x d d' :
  deque_remove x d = Some d' ->
  exists l1 l2, d = l1 ++ x :: l2 /\ d' = l1 ++ l2 /\ x ∉ l1.
Proof.
  revert d'. induction d as [|y d IH]; intros d' H; simpl in H; [discriminate|].
  destruct (Nat.eqb_spec x y) as [->|Hne].
  - injection H as <-. exists [], d. repeat split. apply not_elem_of_nil.
  - destruct (deque_remove x d) as [d0|] eqn:E; [|discriminate].
    injection H as <-. destruct (IH d0 eq_refl) as (l1 & l2 & -> & -> & Hn).
    exists (y :: l1), l2. repeat split.
    rewrite not_elem_of_cons. split; assumption.
Qed.

Lemma deque_remove_None x d : deque_remove x d = None <-> x ∉ d.
Proof.
  induction d as [|y d IH]; simpl.
  - split; [intros _; apply not_elem_of_nil | reflexivity].
  - destruct (Nat.eqb_spec x y) as [->|Hne].
    + split; [discriminate | intros H; exfalso; apply H; left].
    + rewrite not_elem_of_cons. destruct (deque_remove x d); simpl.
      * split; [discriminate | intros [_ H]; apply IH in H; discriminate].
      * split; [intros _; split; [assumption | apply IH; reflexivity] | reflexivity].
Qed.

Lemma deque_remove_elem x d : x ∈ d -> exists d', deque_remove x d = Some d'.
Proof.
  intros H. destruct (deque_remove x d) as [d'|] eqn:E; [eauto|].
  apply deque_remove_None in E. contradiction.
Qed.

Lemma deque_remove_perm x d d' : deque_remove x d = Some d' -> d ≡ₚ x :: d'.
Proof.
  intros H. destruct (deque_remove_Some _ _ _ H) as (l1 & l2 & -> & -> & _).
  symmetry. apply Permutation_middle.
Qed.

Lemma deque_remove_NoDup x d d' :
  NoDup d -> deque_remove x d = Some d' -> NoDup d' /\ x ∉ d'.
Proof.
  intros Hnd H. apply deque_remove_perm in H. rewrite H in Hnd.
  apply NoDup_cons in Hnd. tauto.
Qed.

(** ** The loops of [acquire] and [close] in closed form *)

Ltac unfold_M :=
  unfold acquire_turn, acquire_opened, init_pool_opened, close_waiters,
    pooled_release, release, pooled_close, connection_closed, pooled_closed,
    increment_acquired, decrement_acquired, times_acquired, acquired_remove,
    acquired_popleft, available_popleft, acquired_append, available_append,
    create_task_notify, _get_connection, set_acquired, set_available,
    get_acquired, get_available, store, deref, bind, ret, raise in *.

Lemma multiplex_none cfg pre : forall n p post,
  _acquired p = pre ++ post ->
  length pre = n ->
  (forall x, x ∈ pre -> saturated cfg p x) ->
  multiplex cfg n p = (Ok None, MkPool (objs p) (_available p) (post ++ pre) (notify_tasks p)).
Proof.
  induction pre as [|x pre IH]; intros n [o av aq k] post Haq Hlen Hall;
    simpl in *; subst aq n; simpl.
  - rewrite app_nil_r. reflexivity.
  - unfold_M; simpl.
    destruct (Hall x) as (px & Hpx & Hsat); [left|]. simpl in *.
    rewrite Hpx. simpl.
    destruct (Z.ltb_spec (_times_acquired px) (_max_times_acquired cfg)); [lia|].
    rewrite (IH _ _ (post ++ [x])); simpl.
    + rewrite <- app_assoc. reflexivity.
    + rewrite <- app_assoc. reflexivity.
    + reflexivity.
    + intros y Hy. apply (Hall y). right. exact Hy.
Qed.

Lemma multiplex_first cfg pre : forall n p c post pc,
  _acquired p = pre ++ c :: post ->
  (length pre < n)%nat ->
  (forall x, x ∈ pre -> saturated cfg p x) ->
  objs p !! c = Some pc -> _times_acquired pc < _max_times_acquired cfg ->
  multiplex cfg n p =
    (Ok (Some c),
     MkPool (<[c := with_times (_times_acquired pc + 1) pc]> (objs p))
            (_available p) (post ++ pre ++ [c]) (notify_tasks p)).
Proof.
  induction pre as [|x pre IH]; intros n [o av aq k] c post pc Haq Hlen Hall Hpc Hlt;
    simpl in *; subst aq; (destruct n as [|n]; [simpl in Hlen; lia|]); simpl.
  - unfold_M; simpl. rewrite Hpc. simpl.
    destruct (Z.ltb_spec (_times_acquired pc) (_max_times_acquired cfg)); [|lia].
    simpl. rewrite Hpc. reflexivity.
  - unfold_M; simpl.
    destruct (Hall x) as (px & Hpx & Hsat); [left|]. simpl in *.
    rewrite Hpx. simpl.
    destruct (Z.ltb_spec (_times_acquired px) (_max_times_acquired cfg)); [lia|].
    erewrite (IH _ _ c (post ++ [x])); simpl; eauto.
    + rewrite <- !app_assoc. reflexivity.
    + rewrite <- app_assoc. reflexivity.
    + lia.
    + intros y Hy. apply (Hall y). right. exact Hy.
Qed.

Lemma popleft_available l1 : forall p l2,
  _available p = l1 ++ l2 ->
  popleft_all available_popleft (length l1) p =
    (Ok l1, MkPool (objs p) l2 (_acquired p) (notify_tasks p)).
Proof.
  induction l1 as [|x l1 IH]; intros [o av aq k] l2 H; simpl in *; subst av.
  - reflexivity.
  - unfold_M; simpl. rewrite (IH _ l2); reflexivity.
Qed.

Lemma popleft_acquired l1 : forall p l2,
  _acquired p = l1 ++ l2 ->
  popleft_all acquired_popleft (length l1) p =
    (Ok l1, MkPool (objs p) (_available p) l2 (notify_tasks p)).
Proof.
  induction l1 as [|x l1 IH]; intros [o av aq k] l2 H; simpl in *; subst aq.
  - reflexivity.
  - unfold_M; simpl. rewrite (IH _ l2); reflexivity.
Qed.

Lemma close_waiters_eq p :
  close_waiters p = (Ok (tracked p), MkPool (objs p) [] [] (notify_tasks p)).
Proof.
  unfold close_waiters, get_available, get_acquired, bind, ret, tracked.
  rewrite (popleft_available _ p []) by (symmetry; apply app_nil_r). simpl.
  rewrite (popleft_acquired (_acquired p) _ []) by (symmetry; apply app_nil_r).
  reflexivity.
Qed.

(** The ways the reuse loop can end. *)
Lemma reuse_cases n : forall p,
  (length (_available p) <= n)%nat ->
  exists pre post,
    _available p = pre ++ post /\
    (forall x, x ∈ pre -> is_closed p x = true) /\
    ((post = [] /\
      reuse n p = (Ok None, MkPool (objs p) [] (_acquired p) (notify_tasks p)))
     \/ (exists c post' pc,
          post = c :: post' /\ objs p !! c = Some pc /\ _conn pc = true /\
          closed (wrapped pc) = false /\
          reuse n p =
            (Ok (Some c),
             MkPool (<[c := with_times (_times_acquired pc + 1) pc]> (objs p))
                    post' (_acquired p ++ [c]) (notify_tasks p)))
     \/ (exists c post',
          post = c :: post' /\
          (forall pc, objs p !! c = Some pc -> _conn pc = false) /\
          reuse n p = (Raise AttributeError,
                       MkPool (objs p) post' (_acquired p) (notify_tasks p)))).
Proof.
  induction n as [|n IH]; intros [o av aq k] Hlen; simpl in *.
  - destruct av; simpl in *; [|lia]. exists [], []. split; [reflexivity|].
    split; [intros x Hx; inversion Hx|]. left. split; reflexivity.
  - destruct av as [|c av].
    { exists [], []. split; [reflexivity|].
      split; [intros x Hx; inversion Hx|]. left. split; reflexivity. }
    unfold_M; simpl.
    destruct (o !! c) as [pc|] eqn:Hpc; simpl.
    2:{ exists [], (c :: av). split; [reflexivity|].
        split; [intros x Hx; inversion Hx|]. right; right.
        exists c, av. split; [reflexivity|]. split; [|reflexivity].
        intros pc; rewrite Hpc; discriminate. }
    destruct (_conn pc) eqn:Hconn; simpl.
    2:{ exists [], (c :: av). split; [reflexivity|].
        split; [intros x Hx; inversion Hx|]. right; right.
        exists c, av. split; [reflexivity|]. split; [|reflexivity].
        intros pc'; rewrite Hpc; intros [= <-]; exact Hconn. }
    destruct (closed (wrapped pc)) eqn:Hcl; simpl.
    + destruct (IH (MkPool o av aq k)) as (pre & post & Hav & Hpre & Hcases);
        [simpl in *; lia|]. simpl in *.
      exists (c :: pre), post. split; [rewrite Hav; reflexivity|].
      split.
      { intros x Hx. apply elem_of_cons in Hx as [->|Hx]; [|apply Hpre; exact Hx].
        unfold is_closed; simpl. rewrite Hpc. exact Hcl. }
      exact Hcases.
    + exists [], (c :: av). split; [reflexivity|].
      split; [intros x Hx; inversion Hx|]. right; left.
      exists c, av, pc. rewrite Hpc. repeat split; assumption.
Qed.

Lemma first_unsaturated cfg p l :
  (forall x, x ∈ l -> is_Some (objs p !! x)) ->
  (forall x, x ∈ l -> saturated cfg p x) \/
  exists pre c post pc,
    l = pre ++ c :: post /\ (forall x, x ∈ pre -> saturated cfg p x) /\
    objs p !! c = Some pc /\ _times_acquired pc < _max_times_acquired cfg.
Proof.
  induction l as [|y l IH]; intros Hv.
  - left. intros x Hx. inversion Hx.
  - destruct (Hv y) as [py Hpy]; [left|].
    destruct (Z.lt_ge_cases (_times_acquired py) (_max_times_acquired cfg)) as [Hlt|Hge].
    + right. exists [], y, l, py. repeat split; try assumption.
      intros x Hx. inversion Hx.
    + destruct IH as [Hall|(pre & c & post & pc & -> & Hpre & Hpc & Hlt)].
      * intros x Hx. apply Hv. right. exact Hx.
      * left. intros x Hx. apply elem_of_cons in Hx as [->|Hx]; [|apply Hall; exact Hx].
        exists py. split; assumption.
      * right. exists (y :: pre), c, post, pc. repeat split; try assumption.
        intros x Hx. apply elem_of_cons in Hx as [->|Hx]; [|apply Hpre; exact Hx].
        exists py. split; assumption.
Qed.

Lemma acquire_turn_spec cfg args p :
  (forall x, x ∈ _acquired p -> is_Some (objs p !! x)) ->
  turn_spec cfg args p (acquire_turn cfg args p).1 (acquire_turn cfg args p).2.
Proof.
  intros Hv. unfold acquire_turn, bind, get_available, get_acquired, ret.
  destruct (reuse_cases (length (_available p)) p (Nat.le_refl _))
    as (pre & post & Hav & Hpre & [[-> E]|[(c & post' & pc & -> & Hpc & Hconn & Hcl & E)
                                          |(c & post' & -> & Hc & E)]]);
    rewrite E; simpl.
  - rewrite app_nil_r in Hav. subst pre.
    destruct (Z.ltb_spec (Z.of_nat (length (_acquired p))) (_max_conns cfg)) as [Hlt|Hge]; simpl.
    + apply turn_create; assumption.
    + set (p1 := MkPool (objs p) [] (_acquired p) (notify_tasks p)).
      destruct (first_unsaturated cfg p (_acquired p) Hv)
        as [Hall|(pre & c & post & pc & Haq & Hsat & Hpc & Hlt)].
      * rewrite (multiplex_none cfg (_acquired p) _ p1 []); simpl.
        -- apply turn_wait; assumption.
        -- rewrite app_nil_r. reflexivity.
        -- reflexivity.
        -- exact Hall.
      * rewrite (multiplex_first cfg pre _ p1 c post pc); simpl; try assumption.
        -- apply turn_multiplex; assumption.
        -- rewrite Haq, length_app. simpl. lia.
  - eapply turn_reuse; eassumption.
  - eapply turn_raise; eassumption.
Qed.

(** ** The multiplex branch *)



(** ** release *)

(** C6, as the code has it: releasing a connection that is not closed and
    is tracked in [acquired] (where every held connection that is not closed
    is until a [close] of the pool takes it, [held_open_in_acquired] below)
    decrements its counter and nothing else in the store; when
    the counter reaches zero the connection leaves [acquired] and is appended
    once to [available], otherwise both deques stay as they are; either way
    no entry is lost or duplicated, and exactly one [_notify] task is
    created. *)
Theorem release_open c pc p :
  objs p !! c = Some pc -> _conn pc = true -> closed (wrapped pc) = false ->
  c ∈ _acquired p ->
  exists p',
    release c p = (Ok tt, p') /\
    objs p' = <[c := with_times (_times_acquired pc - 1) pc]> (objs p) /\
    counter p' c = _times_acquired pc - 1 /\
    (if _times_acquired pc - 1 =? 0
     then deque_remove c (_acquired p) = Some (_acquired p') /\
          _available p' = _available p ++ [c]
     else _acquired p' = _acquired p /\ _available p' = _available p) /\
    tracked p' ≡ₚ tracked p /\
    (NoDup (tracked p) -> NoDup (tracked p')) /\
    notify_tasks p' = S (notify_tasks p).
Proof.
  intros Hpc Hconn Hcl Hin.
  pose proof (lookup_lt_Some _ _ _ Hpc) as Hlt.
  destruct (deque_remove_elem _ _ Hin) as [aq' Haq'].
  unfold release, pooled_closed, decrement_acquired, times_acquired,
    acquired_remove, available_append, create_task_notify, bind, deref, store,
    get_acquired, get_available, set_acquired, set_available, ret. simpl.
  rewrite Hpc, Hconn, Hcl. simpl. rewrite Hpc. simpl.
  rewrite list_lookup_insert_eq by exact Hlt. simpl.
  assert (Hcnt : forall av aq k,
            counter (MkPool (<[c := with_times (_times_acquired pc - 1) pc]> (objs p))
                            av aq k) c = _times_acquired pc - 1).
  { intros. unfold counter. simpl.
    rewrite list_lookup_insert_eq by exact Hlt. reflexivity. }
  destruct (Z.eqb_spec (_times_acquired pc - 1) 0) as [Hz|Hnz]; simpl.
  - rewrite Haq'. simpl. eexists. split; [reflexivity|]. simpl.
    split; [reflexivity|]. split; [apply Hcnt|]. split; [split; reflexivity|].
    assert (Hperm : (_available p ++ [c]) ++ aq' ≡ₚ tracked p).
    { unfold tracked. rewrite (deque_remove_perm _ _ _ Haq').
      rewrite <- app_assoc. simpl. reflexivity. }
    unfold tracked at 1 3. simpl. split; [exact Hperm|]. split; [|reflexivity].
    intros Hnd. rewrite Hperm. exact Hnd.
  - eexists. split; [reflexivity|]. simpl.
    split; [reflexivity|]. split; [apply Hcnt|]. split; [split; reflexivity|].
    unfold tracked. simpl. split; [reflexivity|]. split; [tauto | reflexivity].
Qed.

Lemma release_open_witness :
  exists p',
    release 1%nat (st_pool example_saturated) = (Ok tt, p') /\
    _acquired p' = [0; 2]%nat /\ _available p' = [1%nat] /\
    counter p' 1%nat = 0 /\ notify_tasks p' = 1%nat.
Proof.
  destruct (release_open 1%nat (example_pooled 1) (st_pool example_saturated)
              eq_refl eq_refl eq_refl)
    as (p' & E & Hobjs & Hcnt & Hmove & _ & _ & Hn).
  - simpl. apply list_elem_of_In. simpl. tauto.
  - exists p'. simpl in Hmove. destruct Hmove as [Haq Hav].
    injection Haq as Haq.
    split; [exact E|]. split; [symmetry; exact Haq|].
    split; [exact Hav|]. split; [exact Hcnt | exact Hn].
Defined.

(** The claim C6 itself fails for a connection that [close] has taken out
    of [acquired] and not closed yet: the release by its last holder
    decrements the counter to zero, [deque.remove] raises [ValueError], and no
    [_notify] task is created. *)
Lemma release_during_close_raises :
  ~ (forall tr s c pc,
       run (example_config 1 0 1) tr init_state = Some s ->
       c ∈ held s ->
       objs (st_pool s) !! c = Some pc -> _conn pc = true ->
       closed (wrapped pc) = false ->
       exists p',
         release c (st_pool s) = (Ok tt, p') /\
         notify_tasks p' = S (notify_tasks (st_pool s))).
Proof.
  intros H.
  destruct (run (example_config 1 0 1)
              [CallAcquire no_overrides; AcquireOpened true; CallClose] init_state)
    as [s|] eqn:E; [|vm_compute in E; discriminate E].
  pose proof (H _ s 0%nat
                (with_times 1 (new_pooled (init_pool_args (example_config 1 0 1))))
                E) as H1.
  vm_compute in E. injection E as <-.
  destruct H1 as (p' & Hrel & _).
  - apply list_elem_of_In. simpl. tauto.
  - vm_compute. reflexivity.
  - reflexivity.
  - reflexivity.
  - vm_compute in Hrel. discriminate Hrel.
Qed.

(** ** What [acquire] does to the connections *)

Lemma keeps_bind {A B} (m : M A) (k : A -> M B) :
  keeps_connections m -> (forall a, keeps_connections (k a)) ->
  keeps_connections (bind m k).
Proof.
  intros Hm Hk p r p' E. unfold bind in E.
  destruct (m p) as [[a|e] p1] eqn:E1.
  - rewrite (Hk a _ _ _ E). exact (Hm _ _ _ E1).
  - injection E as <- <-. exact (Hm _ _ _ E1).
Qed.

Lemma keeps_ret {A} (a : A) : keeps_connections (ret a).
Proof. intros p r p' [= <- <-]. reflexivity. Qed.

Lemma keeps_raise {A} e : keeps_connections (@raise A e).
Proof. intros p r p' [= <- <-]. reflexivity. Qed.

Lemma keeps_deref c : keeps_connections (deref c).
Proof.
  intros p r p' E. unfold deref in E.
  destruct (objs p !! c); injection E as <- <-; reflexivity.
Qed.

Lemma keeps_get_available : keeps_connections get_available.
Proof. intros p r p' [= <- <-]. reflexivity. Qed.

Lemma keeps_get_acquired : keeps_connections get_acquired.
Proof. intros p r p' [= <- <-]. reflexivity. Qed.

Lemma keeps_set_available l : keeps_connections (set_available l).
Proof. intros p r p' [= <- <-]. reflexivity. Qed.

Lemma keeps_set_acquired l : keeps_connections (set_acquired l).
Proof. intros p r p' [= <- <-]. reflexivity. Qed.

Lemma keeps_with_times c n :
  keeps_connections (pc <- deref c ;; store c (with_times (n pc) pc)).
Proof.
  intros p r p' E. unfold bind, deref, store in E.
  destruct (objs p !! c) as [pc|] eqn:Hpc; injection E as <- <-; [|reflexivity].
  unfold connections. simpl. rewrite list_fmap_insert. simpl.
  apply list_insert_id. rewrite list_lookup_fmap, Hpc. reflexivity.
Qed.

Lemma keeps_times_acquired c : keeps_connections (times_acquired c).
Proof.
  intros p r p' E. unfold times_acquired, bind, deref, ret in E.
  destruct (objs p !! c); injection E as <- <-; reflexivity.
Qed.

Lemma keeps_pooled_closed c : keeps_connections (pooled_closed c).
Proof.
  intros p r p' E. unfold pooled_closed, bind, deref, ret, raise in E.
  destruct (objs p !! c) as [pc|]; [destruct (_conn pc)|];
    injection E as <- <-; reflexivity.
Qed.

Create HintDb keeps discriminated.
#[local] Hint Resolve keeps_ret keeps_raise keeps_deref keeps_get_available
  keeps_get_acquired keeps_set_available keeps_set_acquired
  keeps_times_acquired keeps_pooled_closed : keeps.

Ltac keeps_tac :=
  repeat first
    [ apply (keeps_with_times _ (fun pc => _times_acquired pc + 1))
    | apply (keeps_with_times _ (fun pc => _times_acquired pc - 1))
    | apply keeps_bind; [|intros ?]
    | progress auto with keeps
    | match goal with |- keeps_connections (match ?x with _ => _ end) =>
        destruct x end
    | match goal with |- keeps_connections (if ?x then _ else _) =>
        destruct x end ].

Lemma keeps_acquired_append c : keeps_connections (acquired_append c).
Proof. unfold acquired_append. keeps_tac. Qed.

Lemma keeps_available_append c : keeps_connections (available_append c).
Proof. unfold available_append. keeps_tac. Qed.

Lemma keeps_acquired_popleft : keeps_connections acquired_popleft.
Proof. unfold acquired_popleft. keeps_tac. Qed.

Lemma keeps_available_popleft : keeps_connections available_popleft.
Proof. unfold available_popleft. keeps_tac. Qed.

Lemma keeps_increment_acquired c : keeps_connections (increment_acquired c).
Proof. unfold increment_acquired. keeps_tac. Qed.

#[local] Hint Resolve keeps_acquired_append keeps_available_append
  keeps_acquired_popleft keeps_available_popleft keeps_increment_acquired
  : keeps.

Lemma keeps_reuse n : keeps_connections (reuse n).
Proof. induction n as [|n IH]; simpl; keeps_tac. Qed.

Lemma keeps_multiplex cfg n : keeps_connections (multiplex cfg n).
Proof. induction n as [|n IH]; simpl; keeps_tac. Qed.

#[local] Hint Resolve keeps_reuse keeps_multiplex : keeps.

Lemma keeps_acquire_turn cfg args : keeps_connections (acquire_turn cfg args).
Proof. unfold acquire_turn. keeps_tac. Qed.

(** The arguments matter to a turn only through the [AwaitOpen] they are
    handed on with. *)
Lemma acquire_turn_args cfg args args' p :
  acquire_turn cfg args' p =
    match acquire_turn cfg args p with
    | (Ok (AwaitOpen _), p') => (Ok (AwaitOpen args'), p')
    | rp => rp
    end.
Proof.
  unfold acquire_turn, bind, get_available, get_acquired, ret.
  destruct (reuse _ p) as [[[c|]|e] p1]; try reflexivity.
  destruct (_ <? _); [reflexivity|].
  destruct (multiplex _ _ p1) as [[[c|]|e] p2]; reflexivity.
Qed.

(** C10: [x = x or self._x] decides each argument of the call: a falsy
    override (the empty string, [None], [0]) gives way to the attribute of
    the pool, a truthy one is kept.  A call of [acquire] never changes a
    [Connection] that exists; when it returns a connection by the reuse or
    the multiplex branch, it does exactly the same whatever the overrides
    are; when it goes to the create branch, it opens with the arguments so
    decided, and the connection it then returns is a new one, the only one
    that carries them. *)
Theorem acquire_overrides cfg ov :
  let args := acquire_args cfg ov in
  ((truthy (username ov) = false -> username args = _username cfg) /\
   (truthy (password ov) = false -> password args = _password cfg) /\
   (truthy (lang ov) = false -> lang args = _lang cfg) /\
   (truthy (traversal_source ov) = false ->
    traversal_source args = _traversal_source cfg) /\
   (truthy (max_inflight ov) = false -> max_inflight args = _max_inflight cfg) /\
   (truthy (response_timeout ov) = false ->
    response_timeout args = _response_timeout cfg)) /\
  ((truthy (username ov) = true -> username args = username ov) /\
   (truthy (password ov) = true -> password args = password ov) /\
   (truthy (lang ov) = true -> lang args = lang ov) /\
   (truthy (traversal_source ov) = true ->
    traversal_source args = traversal_source ov) /\
   (truthy (max_inflight ov) = true -> max_inflight args = max_inflight ov) /\
   (truthy (response_timeout ov) = true ->
    response_timeout args = response_timeout ov)) /\
  (truthy (PyStr EmptyString) = false /\ truthy PyNone = false /\
   truthy (PyInt 0) = false) /\
  (forall p conn p',
     acquire_turn cfg args p = (Ok (Return conn), p') ->
     connections p' = connections p /\
     forall ov', acquire_turn cfg (acquire_args cfg ov') p = (Ok (Return conn), p')) /\
  (forall p a p',
     acquire_turn cfg args p = (Ok (AwaitOpen a), p') ->
     a = args /\ connections p' = connections p /\
     exists p'',
       acquire_opened a p' = (Ok (length (objs p')), p'') /\
       connections p'' = connections p' ++ [MkConnection false args]) /\
  (forall s s1,
     step cfg (CallAcquire ov) s = Some s1 ->
     connections (st_pool s1) = connections (st_pool s) /\
     (forall conn, held s1 = held s ++ [conn] ->
        forall ov', step cfg (CallAcquire ov') s = Some s1) /\
     (forall a, opening s1 = Some a ->
        a = args /\
        exists s2,
          step cfg (AcquireOpened true) s1 = Some s2 /\
          held s2 = held s ++ [length (objs (st_pool s))] /\
          connections (st_pool s2) =
            connections (st_pool s) ++ [MkConnection false args])).
Proof.
  intros args.
  assert (Hopen : forall p a p',
            acquire_turn cfg args p = (Ok (AwaitOpen a), p') ->
            a = args /\ connections p' = connections p /\
            exists p'',
              acquire_opened a p' = (Ok (length (objs p')), p'') /\
              connections p'' = connections p' ++ [MkConnection false args]).
  { intros p a p' E.
    assert (a = args) as ->.
    { rewrite (acquire_turn_args cfg no_overrides) in E.
      destruct (acquire_turn cfg no_overrides p) as [[[| |]|] ?];
        congruence. }
    split; [reflexivity|]. split; [exact (keeps_acquire_turn _ _ _ _ _ E)|].
    unfold acquire_opened, _get_connection, increment_acquired, acquired_append,
      bind, deref, store, get_acquired, set_acquired, ret. simpl.
    rewrite lookup_app_r by reflexivity. rewrite Nat.sub_diag. simpl.
    eexists. split; [reflexivity|]. unfold connections. simpl.
    rewrite list_fmap_insert, list_insert_id.
    + rewrite map_app. reflexivity.
    + rewrite list_lookup_fmap, lookup_app_r by reflexivity.
      rewrite Nat.sub_diag. reflexivity. }
  assert (Hgrow : forall (h : list ref) conn, h = h ++ [conn] -> False).
  { intros h conn Hh. apply (f_equal length) in Hh.
    rewrite length_app in Hh. simpl in Hh. lia. }
  split; [|split; [|split; [|split; [|split; [exact Hopen|]]]]].
  - unfold args, acquire_args, py_or. simpl.
    repeat split; intros ->; reflexivity.
  - unfold args, acquire_args, py_or. simpl.
    repeat split; intros ->; reflexivity.
  - repeat split.
  - intros p conn p' E. split; [exact (keeps_acquire_turn _ _ _ _ _ E)|].
    intros ov'. rewrite (acquire_turn_args cfg args), E. reflexivity.
  - intros s s1 Hstep. unfold step in Hstep.
    destruct (locked s) eqn:Hl; [discriminate Hstep|].
    injection Hstep as <-. unfold acquire_step. fold args.
    destruct (acquire_turn cfg args (st_pool s)) as [[[conn|a|]|e] p1] eqn:E;
      cbn [emit with_held with_lock with_pool with_waiting st_pool held opening].
    + split; [exact (keeps_acquire_turn _ _ _ _ _ E)|]. split.
      * intros _ _ ov'. unfold step. rewrite Hl. unfold acquire_step.
        rewrite (acquire_turn_args cfg args), E. reflexivity.
      * intros a Ha. discriminate Ha.
    + destruct (Hopen _ _ _ E) as (-> & Hconns & p2 & Hp2 & Hconns2).
      split; [exact Hconns|]. split.
      * intros conn Hh. destruct (Hgrow _ _ Hh).
      * intros a [= <-]. split; [reflexivity|].
        assert (Hobjs : objs p1 = objs (st_pool s)).
        { unfold acquire_turn, bind, get_available, get_acquired, ret in E.
          pose proof (reuse_cases (length (_available (st_pool s))) (st_pool s)
                        (le_n _)) as (pre & post & _ & _ & Hcases).
          destruct Hcases as [[_ Hr]|[(c & post' & pc & _ & _ & _ & _ & Hr)
                                     |(c & post' & _ & _ & Hr)]];
            rewrite Hr in E; simpl in E; try discriminate E.
          destruct (_ <? _); [injection E as <-; reflexivity|].
          destruct (multiplex _ _ _) as [[[?|]|?] ?]; discriminate E. }
        unfold step. cbn [opening with_lock emit with_pool st_pool].
        rewrite Hp2. eexists. split; [reflexivity|].
        cbn [emit with_held with_lock with_pool st_pool held].
        split; [rewrite Hobjs; reflexivity|].
        rewrite Hconns2, Hconns. reflexivity.
    + split; [exact (keeps_acquire_turn _ _ _ _ _ E)|]. split.
      * intros conn Hh. destruct (Hgrow _ _ Hh).
      * intros a Ha. discriminate Ha.
    + split; [exact (keeps_acquire_turn _ _ _ _ _ E)|]. split.
      * intros conn Hh. destruct (Hgrow _ _ Hh).
      * intros a Ha. discriminate Ha.
Qed.

Lemma acquire_overrides_witness :
  acquire_args (example_config 3 0 2)
    (ConnArgs (PyStr "stephen") PyNone PyNone PyNone (PyInt 0) (PyInt 0)) =
    ConnArgs (PyStr "stephen") (PyStr EmptyString) (PyStr "gremlin-groovy")
             PyNone (PyInt 64) PyNone
  /\ (exists s1 s2,
        step (example_config 3 0 2)
             (CallAcquire (ConnArgs (PyStr "stephen") PyNone PyNone PyNone
                                    (PyInt 0) (PyInt 0)))
             init_state = Some s1 /\
        step (example_config 3 0 2) (AcquireOpened true) s1 = Some s2 /\
        held s2 = [0%nat] /\
        connections (st_pool s2) =
          [MkConnection false
             (ConnArgs (PyStr "stephen") (PyStr EmptyString)
                       (PyStr "gremlin-groovy") PyNone (PyInt 64) PyNone)])
  /\ connections
       (MkPool [example_pooled 2; example_pooled 2; example_pooled 1]
               [] [2; 0; 1]%nat 0) =
     connections (st_pool example_saturated).
Proof.
  pose proof (acquire_overrides (example_config 3 0 2)
                (ConnArgs (PyStr "stephen") PyNone PyNone PyNone (PyInt 0) (PyInt 0)))
    as (Hfalsy & Htruthy & _ & Hret & _ & Hcall).
  split; [|split].
  - destruct Hfalsy as (_ & H2 & H3 & H4 & H5 & H6).
    destruct Htruthy as (H1 & _).
    specialize (H1 eq_refl). specialize (H2 eq_refl). specialize (H3 eq_refl).
    specialize (H4 eq_refl). specialize (H5 eq_refl). specialize (H6 eq_refl).
    destruct (acquire_args _ _) as [u pw l t mi rt]. simpl in *.
    rewrite H1, H2, H3, H4, H5, H6. reflexivity.
  - destruct (step (example_config 3 0 2)
                (CallAcquire (ConnArgs (PyStr "stephen") PyNone PyNone PyNone
                                       (PyInt 0) (PyInt 0))) init_state)
      as [s1|] eqn:E; [|vm_compute in E; discriminate E].
    destruct (Hcall init_state s1 E) as (_ & _ & Hopen).
    assert (Ho : opening s1 =
                 Some (acquire_args (example_config 3 0 2)
                         (ConnArgs (PyStr "stephen") PyNone PyNone PyNone
                                   (PyInt 0) (PyInt 0)))).
    { vm_compute in E. injection E as <-. vm_compute. reflexivity. }
    destruct (Hopen _ Ho) as (_ & s2 & Hs2 & Hheld & Hconns).
    exists s1, s2. split; [reflexivity|]. split; [exact Hs2|].
    split; [exact Hheld | exact Hconns].
  - exact (proj1 (Hret (st_pool example_saturated) 1%nat _ eq_refl)).
Defined.

(** ** Reachable states *)

Lemma run_app cfg tr1 tr2 s :
  run cfg (tr1 ++ tr2) s =
    match run cfg tr1 s with
    | Some s1 => run cfg tr2 s1
    | None => None
    end.
Proof.
  revert s. induction tr1 as [|l tr1 IH]; intros s; simpl; [reflexivity|].
  destruct (step cfg l s); [apply IH | reflexivity].
Qed.

(** Induction over a run: what holds at the start and is kept by every step
    of the run holds at its end. *)
Lemma run_invariant cfg (allowed : label -> Prop) (P : state -> Prop) :
  (forall l s s', allowed l -> P s -> step cfg l s = Some s' -> P s') ->
  forall tr s s',
    Forall allowed tr -> P s -> run cfg tr s = Some s' -> P s'.
Proof.
  intros Hstep tr. induction tr as [|l tr IH]; intros s s' Hall HP Hrun; simpl in Hrun.
  - injection Hrun as <-. exact HP.
  - destruct (step cfg l s) as [s1|] eqn:E; [|discriminate].
    apply Forall_cons in Hall as [Hl Hall].
    exact (IH s1 s' Hall (Hstep l s s1 Hl HP E) Hrun).
Qed.

Lemma Forall_any (tr : list label) : Forall (fun _ => True) tr.
Proof. apply Forall_forall. intros; exact I. Qed.

(** Case analysis on the branches a step took. *)
Ltac break_step H :=
  repeat match type of H with
         | context [match ?x with _ => _ end] => destruct x eqn:?
         | context [if ?x then _ else _] => destruct x eqn:?
         end;
  try discriminate H.

(** ** The lock *)

Lemma acquire_step_lock cfg args s :
  locked (acquire_step cfg args s) = true <->
  opening (acquire_step cfg args s) <> None.
Proof.
  unfold acquire_step.
  destruct (acquire_turn cfg args (st_pool s)) as [[[c|a|]|e] p]; simpl;
    split; congruence.
Qed.

Lemma step_lock cfg l s s' :
  (locked s = true <-> opening s <> None) ->
  step cfg l s = Some s' ->
  (locked s' = true <-> opening s' <> None).
Proof.
  intros Hinv Hstep.
  destruct l; unfold step in Hstep;
    break_step Hstep; injection Hstep as <-; simpl;
    first [ exact Hinv
          | apply acquire_step_lock
          | match goal with E : locked s = _ |- _ => rewrite E; exact Hinv end
          | split; congruence ].
Qed.

(** C9, as the code has it: between two atomic pieces the lock of the
    condition is taken exactly when a call of [acquire] is suspended in the
    open of its create branch.  So that open runs with the lock held, from
    the decision to the return, and no other suspension ([close] in
    [gather], [init_pool] in its open, a waiter in [wait()]) holds it. *)
Theorem lock_held_iff_opening cfg tr s :
  run cfg tr init_state = Some s ->
  (opening s <> None -> locked s = true) /\
  (opening s = None -> locked s = false).
Proof.
  intros Hrun.
  assert (H : locked s = true <-> opening s <> None).
  { refine (run_invariant cfg (fun _ => True)
              (fun s => locked s = true <-> opening s <> None) _ tr init_state s
              (Forall_any tr) _ Hrun).
    - intros l s0 s1 _. apply step_lock.
    - simpl. split; [discriminate | congruence]. }
  split; [apply H|]. intros Ho. destruct (locked s); [|reflexivity].
  exfalso. apply (proj1 H eq_refl). exact Ho.
Qed.

Lemma lock_held_iff_opening_witness :
  exists s,
    run (example_config 1 0 1) [CallAcquire no_overrides; CallClose] init_state = Some s /\
    opening s <> None /\ locked s = true.
Proof.
  eexists. split; [vm_compute; reflexivity|].
  split; [discriminate|].
  apply (lock_held_iff_opening (example_config 1 0 1)
           [CallAcquire no_overrides; CallClose] _ eq_refl).
  discriminate.
Defined.

(** The claim C9 itself fails: a call of [acquire] that takes the create
    branch is suspended in [Connection.open] with the lock held. *)
Lemma lock_held_during_open :
  ~ (forall tr s,
       run (example_config 1 0 1) tr init_state = Some s ->
       opening s <> None \/ closes s <> [] ->
       locked s = false).
Proof.
  intros H.
  destruct (run (example_config 1 0 1) [CallAcquire no_overrides] init_state)
    as [s|] eqn:E; [|vm_compute in E; discriminate E].
  pose proof (H _ s E) as H1. vm_compute in E. injection E as <-.
  discriminate H1. left. discriminate.
Qed.

(** ** Closed connections *)

(** The reuse branch hands out only a connection that answers
    [closed == False]. *)
Lemma reuse_returns_open n p c p' :
  (length (_available p) <= n)%nat ->
  reuse n p = (Ok (Some c), p') ->
  pooled_closed c p' = (Ok false, p').
Proof.
  intros Hlen E.
  destruct (reuse_cases n p Hlen)
    as (pre & post & Hav & Hpre & [[-> E1]|[(c1 & post' & pc & -> & Hpc & Hconn & Hcl & E1)
                                          |(c1 & post' & -> & Hc & E1)]]);
    rewrite E1 in E; try discriminate.
  injection E as <- <-.
  unfold pooled_closed, bind, deref, ret. simpl.
  rewrite list_lookup_insert_eq by (eapply lookup_lt_Some; exact Hpc).
  simpl. rewrite Hconn, Hcl. reflexivity.
Qed.

(** So does the create branch. *)
Lemma acquire_opened_open args p c p' :
  acquire_opened args p = (Ok c, p') ->
  pooled_closed c p' = (Ok false, p').
Proof.
  unfold acquire_opened, _get_connection, increment_acquired, acquired_append,
    pooled_closed, bind, deref, store, get_acquired, set_acquired, ret. simpl.
  rewrite lookup_app_r by reflexivity. rewrite Nat.sub_diag. simpl.
  intros [= <- <-]. simpl.
  rewrite list_lookup_insert_eq by (rewrite length_app; simpl; lia).
  reflexivity.
Qed.

(** C1 fails on the multiplex branch, which does not look at [closed]: with
    [max_conns = 1] and [max_times_acquired = 2], a first [acquire] opens
    connection 0, the server drops it, and a second [acquire] returns the
    same connection although it reports closed. *)
Theorem acquire_multiplex_returns_closed :
  exists s p',
    run (example_config 1 0 2)
        [CallAcquire no_overrides; AcquireOpened true; ConnLost 0%nat]
        init_state = Some s /\
    acquire_turn (example_config 1 0 2) no_overrides (st_pool s) =
      (Ok (Return 0%nat), p') /\
    pooled_closed 0%nat p' = (Ok true, p').
Proof.
  do 2 eexists.
  split; [vm_compute; reflexivity|].
  split; vm_compute; reflexivity.
Qed.

(** C5 fails for a shared connection: with [max_conns = 1] and
    [max_times_acquired = 2] two calls of [acquire] share connection 0; once
    the server has dropped it, the first [release] removes it from [acquired]
    and the second one raises [ValueError] out of [deque.remove], before any
    [_notify] task is created. *)
Theorem release_closed_twice_raises :
  exists s,
    run (example_config 1 0 2)
        [CallAcquire no_overrides; AcquireOpened true; CallAcquire no_overrides;
         ConnLost 0%nat; CallRelease 0%nat]
        init_state = Some s /\
    held s = [0%nat] /\
    last (log s) = Some (EvReleased 0%nat (Ok tt)) /\
    pooled_closed 0%nat (st_pool s) = (Ok true, st_pool s) /\
    release 0%nat (st_pool s) = (Raise ValueError, st_pool s).
Proof.
  eexists.
  split; [vm_compute; reflexivity|].
  split; [vm_compute; reflexivity|].
  split; [vm_compute; reflexivity|].
  split; vm_compute; reflexivity.
Qed.

(** ** init_pool *)

Lemma init_log_S cfg k :
  init_log cfg (S k) = init_log cfg k ++ [EvOpen (init_pool_args cfg); EvOpened k].
Proof.
  unfold init_log. rewrite seq_S, flat_map_app. simpl. reflexivity.
Qed.

Lemma init_pool_opened_of cfg k :
  init_pool_opened cfg (init_pool_of cfg k) = (Ok k, init_pool_of cfg (S k)).
Proof.
  unfold init_pool_opened, _get_connection, available_append, get_available,
    set_available, bind, ret, init_pool_of.
  rewrite seq_S, replicate_S_end. simpl.
  rewrite length_replicate. reflexivity.
Qed.

Lemma init_step_mid cfg k n :
  step cfg (InitOpened 0 true) (init_mid cfg k (S n)) = Some (init_mid cfg (S k) n).
Proof.
  unfold step, init_mid. cbn [inits lookup list_lookup st_pool].
  rewrite init_pool_opened_of, init_log_S.
  unfold emit, with_inits, with_pool. simpl.
  rewrite <- !app_assoc. reflexivity.
Qed.

Lemma init_step_last cfg k :
  step cfg (InitOpened 0 true) (init_mid cfg k 0) = Some (init_done cfg (S k)).
Proof.
  unfold step, init_mid. cbn [inits lookup list_lookup st_pool].
  unfold init_done. rewrite init_pool_opened_of, init_log_S.
  unfold emit, with_inits, with_pool. simpl.
  rewrite <- !app_assoc. reflexivity.
Qed.

Lemma init_run_mid cfg n : forall k,
  run cfg (replicate (S n) (InitOpened 0 true)) (init_mid cfg k n) =
    Some (init_done cfg (k + S n)).
Proof.
  induction n as [|n IH]; intros k.
  - cbn [replicate run]. rewrite init_step_last. rewrite Nat.add_1_r. reflexivity.
  - rewrite (replicate_S (S n)).
    cbn [run]. rewrite init_step_mid, IH. f_equal. f_equal. lia.
Qed.

(** C8: on a new pool with [min_conns = N], [init_pool] run to its end
    leaves exactly the [N] connections it opened in [available], in the
    order of opening, each with counter 0 and not closed, and [acquired]
    empty; it calls [Connection.open] for the next one only when the
    previous call has returned. *)
Theorem init_pool_fills cfg N :
  _min_conns cfg = Z.of_nat N ->
  exists s,
    run cfg (CallInitPool :: replicate N (InitOpened 0 true)) init_state = Some s /\
    _available (st_pool s) = seq 0 N /\
    length (_available (st_pool s)) = N /\
    NoDup (_available (st_pool s)) /\
    _acquired (st_pool s) = [] /\
    (forall c, c ∈ _available (st_pool s) ->
       objs (st_pool s) !! c = Some (new_pooled (init_pool_args cfg))) /\
    inits s = [] /\
    log s = flat_map (fun c => [EvOpen (init_pool_args cfg); EvOpened c]) (seq 0 N)
              ++ [EvInitReturned true].
Proof.
  intros Hmin. exists (init_done cfg N).
  split.
  - cbn [run]. unfold step. rewrite Hmin, Nat2Z.id.
    destruct N as [|n]; [reflexivity|].
    change (emit _ (with_inits _ init_state)) with (init_mid cfg 0 n).
    apply init_run_mid.
  - simpl. rewrite length_seq.
    repeat split; try reflexivity.
    + apply NoDup_ListNoDup, seq_NoDup.
    + intros c Hc. apply list_elem_of_In, in_seq in Hc.
      apply lookup_replicate_2. lia.
Qed.

Lemma init_pool_fills_witness :
  exists s,
    run (example_config 4 2 16) [CallInitPool; InitOpened 0 true; InitOpened 0 true]
        init_state = Some s /\
    _available (st_pool s) = [0; 1]%nat /\ _acquired (st_pool s) = [].
Proof.
  destruct (init_pool_fills (example_config 4 2 16) 2 eq_refl)
    as (s & Hrun & Hav & _ & _ & Haq & _).
  exists s. split; [exact Hrun|]. split; [exact Hav | exact Haq].
Defined.

(** ** close *)

Lemma pooled_close_ok c pc p :
  objs p !! c = Some pc -> _conn pc = true ->
  pooled_close true c p =
    (Ok tt, MkPool (<[c := closed_pooled pc]> (objs p)) (_available p)
                   (_acquired p) (notify_tasks p)).
Proof.
  intros Hpc Hconn.
  unfold pooled_close, connection_closed, bind, deref, store, ret. simpl.
  rewrite Hpc, Hconn. simpl. rewrite Hpc. simpl.
  rewrite list_lookup_insert_eq by (eapply lookup_lt_Some; exact Hpc).
  simpl. rewrite list_insert_insert_eq. reflexivity.
Qed.

Lemma pooled_close_failed c p :
  exists e, pooled_close false c p = (Raise e, p).
Proof.
  unfold pooled_close, bind, deref, raise.
  destruct (objs p !! c) as [pc|]; [destruct (_conn pc)|]; eexists; reflexivity.
Qed.

Lemma is_closed_insert c pc p x av aq k :
  objs p !! c = Some pc ->
  is_closed p x = true ->
  is_closed (MkPool (<[c := closed_pooled pc]> (objs p)) av aq k) x = true.
Proof.
  intros Hpc Hx. unfold is_closed in *. simpl.
  destruct (decide (c = x)) as [->|Hne].
  - rewrite list_lookup_insert_eq by (eapply lookup_lt_Some; exact Hpc). reflexivity.
  - rewrite list_lookup_insert_ne by exact Hne. exact Hx.
Qed.

Lemma unbound_insert c pc p x av aq k :
  objs p !! c = Some pc ->
  unbound p x ->
  unbound (MkPool (<[c := closed_pooled pc]> (objs p)) av aq k) x.
Proof.
  intros Hpc (px & Hpx & Hconn & Hpool). unfold unbound. simpl.
  destruct (decide (c = x)) as [->|Hne].
  - exists (closed_pooled pc).
    rewrite list_lookup_insert_eq by (eapply lookup_lt_Some; exact Hpc).
    repeat split.
  - exists px. rewrite list_lookup_insert_ne by exact Hne. repeat split; assumption.
Qed.

Lemma unbound_closed_raises p c :
  unbound p c -> pooled_closed c p = (Raise AttributeError, p).
Proof.
  intros (pc & Hpc & Hconn & _). unfold pooled_closed, bind, deref, raise.
  rewrite Hpc, Hconn. reflexivity.
Qed.

(** The closes that one [close()] awaits, completing without failure in
    any order. *)
Lemma close_run_ok cfg order : forall s ws,
  closes s = [ws] -> ws <> [] -> NoDup ws -> order ≡ₚ ws ->
  (forall c, c ∈ ws -> bound_attrs (st_pool s) c) ->
  exists s',
    run cfg (map (fun c => CloseDone 0 c true) order) s = Some s' /\
    closes s' = [] /\
    _available (st_pool s') = _available (st_pool s) /\
    _acquired (st_pool s') = _acquired (st_pool s) /\
    (forall c, c ∈ ws -> is_closed (st_pool s') c = true) /\
    (forall c, is_closed (st_pool s) c = true -> is_closed (st_pool s') c = true) /\
    log s' = log s ++ map (fun c => EvClosed c true) order ++ [EvCloseReturned true] /\
    (forall c, c ∈ ws -> unbound (st_pool s') c) /\
    (forall c, unbound (st_pool s) c -> unbound (st_pool s') c).
Proof.
  induction order as [|c order IH]; intros s ws Hcl Hne Hnd Hperm Hattrs.
  - apply Permutation_nil_l in Hperm. congruence.
  - assert (Hc : c ∈ ws) by (rewrite <- Hperm; left).
    destruct (deque_remove_elem _ _ Hc) as [ws' Hrm].
    destruct (deque_remove_NoDup _ _ _ Hnd Hrm) as [Hnd' Hnotin].
    assert (Hperm' : order ≡ₚ ws').
    { apply (Permutation_cons_inv (a := c)).
      rewrite Hperm. apply deque_remove_perm. exact Hrm. }
    destruct (Hattrs c Hc) as (pc & Hpc & Hconn & _).
    cbn [map run]. unfold step. rewrite Hcl. cbn [lookup list_lookup].
    rewrite Hrm, (pooled_close_ok _ _ _ Hpc Hconn).
    set (p2 := MkPool (<[c := closed_pooled pc]> (objs (st_pool s)))
                      (_available (st_pool s)) (_acquired (st_pool s))
                      (notify_tasks (st_pool s))).
    assert (Hcc : is_closed p2 c = true).
    { unfold is_closed, p2. simpl.
      rewrite list_lookup_insert_eq by (eapply lookup_lt_Some; exact Hpc).
      reflexivity. }
    assert (Hmono : forall x, is_closed (st_pool s) x = true -> is_closed p2 x = true).
    { intros x. apply is_closed_insert. exact Hpc. }
    assert (Huc : unbound p2 c).
    { exists (closed_pooled pc). unfold p2. simpl.
      rewrite list_lookup_insert_eq by (eapply lookup_lt_Some; exact Hpc).
      repeat split. }
    assert (Hum : forall x, unbound (st_pool s) x -> unbound p2 x).
    { intros x. apply unbound_insert. exact Hpc. }
    assert (Hws : forall x, x ∈ ws -> x = c \/ x ∈ ws').
    { intros x Hx. rewrite (deque_remove_perm _ _ _ Hrm) in Hx.
      apply elem_of_cons in Hx. exact Hx. }
    destruct ws' as [|w ws'].
    + apply Permutation_nil_r in Hperm'. subst order.
      eexists. split; [reflexivity|]. simpl.
      split; [reflexivity|]. split; [reflexivity|]. split; [reflexivity|].
      split; [|split; [exact Hmono|split; [|split; [|exact Hum]]]].
      * intros x Hx. destruct (Hws x Hx) as [->|Hx']; [exact Hcc | inversion Hx'].
      * rewrite <- app_assoc. reflexivity.
      * intros x Hx. destruct (Hws x Hx) as [->|Hx']; [exact Huc | inversion Hx'].
    + set (s2 := with_closes (<[0%nat := w :: ws']> [ws])
                   (emit [EvClosed c (is_ok (Ok tt))] (with_pool p2 s))).
      destruct (IH s2 (w :: ws'))
        as (s' & Hrun & Hcl' & Hav & Haq & Hall & Hmono' & Hlog & Hub & Hum');
        try assumption.
      * reflexivity.
      * discriminate.
      * intros x Hx.
        assert (Hxw : x ∈ ws)
          by (rewrite (deque_remove_perm _ _ _ Hrm); right; exact Hx).
        assert (Hxc : c <> x) by (intros ->; exact (Hnotin Hx)).
        destruct (Hattrs x Hxw) as (px & Hpx & Hattr).
        exists px. split; [|exact Hattr]. unfold s2, p2. simpl.
        rewrite list_lookup_insert_ne by exact Hxc. exact Hpx.
      * exists s'. split; [exact Hrun|]. split; [exact Hcl'|].
        split; [rewrite Hav; reflexivity|]. split; [rewrite Haq; reflexivity|].
        split; [|split; [|split; [|split]]].
        -- intros x Hx. destruct (Hws x Hx) as [->|Hx'];
             [apply Hmono'; exact Hcc | apply Hall; exact Hx'].
        -- intros x Hx. apply Hmono', Hmono, Hx.
        -- rewrite Hlog. unfold s2. simpl. rewrite <- app_assoc. reflexivity.
        -- intros x Hx. destruct (Hws x Hx) as [->|Hx'];
             [apply Hum'; exact Huc | apply Hub; exact Hx'].
        -- intros x Hx. apply Hum', Hum, Hx.
Qed.

(** C4, as the code has it: [close] empties both deques at once and hands
    the [close()] of every connection they held to [gather] before any of
    them completes; when each of these closes returns, in whatever order,
    [close] returns after the last one; the [Connection] behind every
    connection that was tracked is closed then, and the [PooledConnection]
    itself has lost its [_conn] and [_pool], so that its own property
    [closed] raises [AttributeError] instead of reporting [True].  When one
    of the closes raises, [gather] lets [close] raise at that moment: the
    closes still pending go on unawaited. *)
Theorem close_all_ok cfg s order :
  closes s = [] ->
  NoDup (tracked (st_pool s)) ->
  (forall c, c ∈ tracked (st_pool s) -> bound_attrs (st_pool s) c) ->
  order ≡ₚ tracked (st_pool s) ->
  (exists s',
     run cfg (CallClose :: map (fun c => CloseDone 0 c true) order) s = Some s' /\
     _available (st_pool s') = [] /\ _acquired (st_pool s') = [] /\
     (forall c, c ∈ tracked (st_pool s) ->
        is_closed (st_pool s') c = true /\
        unbound (st_pool s') c /\
        pooled_closed c (st_pool s') = (Raise AttributeError, st_pool s')) /\
     closes s' = [] /\
     log s' = log s ++ map EvClose (tracked (st_pool s))
                ++ map (fun c => EvClosed c true) order ++ [EvCloseReturned true]) /\
  (forall s1 i ws c ws',
     closes s1 !! i = Some ws -> deque_remove c ws = Some ws' ->
     exists s2,
       step cfg (CloseDone i c false) s1 = Some s2 /\
       st_pool s2 = st_pool s1 /\
       closes s2 = delete i (closes s1) /\
       detached s2 = detached s1 ++ ws' /\
       log s2 = log s1 ++ [EvClosed c false; EvCloseReturned false]).
Proof.
  intros Hcl Hnd Hattrs Hperm. split.
  - cbn [run]. unfold step. rewrite close_waiters_eq.
    destruct (tracked (st_pool s)) as [|w ws] eqn:Htr.
    + apply Permutation_nil_r in Hperm. subst order.
      eexists. split; [reflexivity|]. simpl.
      split; [reflexivity|]. split; [reflexivity|].
      split; [intros c Hc; inversion Hc|]. split; [exact Hcl|reflexivity].
    + set (s1 := emit (map EvClose (w :: ws))
                   (with_closes (closes s ++ [w :: ws])
                      (with_pool (MkPool (objs (st_pool s)) [] []
                                         (notify_tasks (st_pool s))) s))).
      destruct (close_run_ok cfg order s1 (w :: ws))
        as (s' & Hrun & Hcl' & Hav & Haq & Hall & _ & Hlog & Hub & _);
        try assumption; try discriminate.
      * unfold s1. simpl. rewrite Hcl. reflexivity.
      * exists s'. split; [exact Hrun|].
        split; [exact Hav|]. split; [exact Haq|].
        split.
        { intros c Hc. split; [exact (Hall c Hc)|].
          split; [exact (Hub c Hc)|].
          apply unbound_closed_raises. exact (Hub c Hc). }
        split; [exact Hcl'|]. rewrite Hlog. unfold s1. simpl.
        rewrite <- !app_assoc. reflexivity.
  - intros s1 i ws c ws' Hi Hrm. unfold step. rewrite Hi, Hrm.
    destruct (pooled_close_failed c (st_pool s1)) as [e ->].
    eexists. split; [reflexivity|]. simpl.
    split; [destruct s1; reflexivity|]. split; [reflexivity|].
    split; [reflexivity|]. rewrite <- app_assoc. reflexivity.
Qed.

Lemma close_all_ok_witness :
  exists s',
    run (example_config 3 0 2)
        [CallClose; CloseDone 0 2%nat true; CloseDone 0 0%nat true;
         CloseDone 0 1%nat true]
        example_saturated = Some s' /\
    _available (st_pool s') = [] /\ _acquired (st_pool s') = [] /\
    (forall c, c ∈ [0; 1; 2]%nat ->
       is_closed (st_pool s') c = true /\
       pooled_closed c (st_pool s') = (Raise AttributeError, st_pool s')).
Proof.
  destruct (close_all_ok (example_config 3 0 2) example_saturated [2; 0; 1]%nat)
    as [(s' & Hrun & Hav & Haq & Hall & _) _].
  - reflexivity.
  - simpl. apply NoDup_ListNoDup. repeat constructor; simpl; lia.
  - intros c Hc. apply list_elem_of_In in Hc. simpl in Hc.
    destruct Hc as [<-|[<-|[<-|[]]]]; eexists; (split; [reflexivity|]); simpl; auto.
  - simpl. apply Permutation_sym, (Permutation_app_comm [0; 1]%nat [2%nat]).
  - exists s'. split; [exact Hrun|]. split; [exact Hav|]. split; [exact Haq|].
    intros c Hc. destruct (Hall c Hc) as (H1 & _ & H2). split; [exact H1 | exact H2].
Defined.

(** The claim C4 itself fails: once one close has raised, [close] is over
    while another close it issued has not completed. *)
Lemma close_leaves_close_pending :
  ~ (forall tr s,
       run (example_config 2 2 1) tr init_state = Some s ->
       closes s = [] ->
       forall c, EvClose c ∈ log s -> exists ok, EvClosed c ok ∈ log s).
Proof.
  intros H.
  destruct (run (example_config 2 2 1)
              [CallInitPool; InitOpened 0 true; InitOpened 0 true; CallClose;
               CloseDone 0 0%nat false] init_state)
    as [s|] eqn:E; [|vm_compute in E; discriminate E].
  pose proof (H _ s E) as H1. vm_compute in E. injection E as <-.
  destruct (H1 eq_refl 1%nat) as [ok Hok].
  - simpl. apply list_elem_of_In. simpl. tauto.
  - apply list_elem_of_In in Hok. simpl in Hok.
    repeat (destruct Hok as [Hok|Hok]; [discriminate Hok|]). exact Hok.
Qed.

(** ** Capacity *)

Lemma deque_remove_length x d d' :
  deque_remove x d = Some d' -> length d = S (length d').
Proof.
  intros H. rewrite (Permutation_length (deque_remove_perm _ _ _ H)). reflexivity.
Qed.

Lemma tracked_length p :
  length (tracked p) = (length (_available p) + length (_acquired p))%nat.
Proof. unfold tracked. apply length_app. Qed.

Lemma release_cases c p : release_spec c p (release c p).1 (release c p).2.
Proof.
  unfold release, pooled_closed, decrement_acquired, times_acquired,
    acquired_remove, available_append, create_task_notify, bind, deref, store,
    get_acquired, get_available, set_acquired, set_available, ret, raise.
  destruct p as [o av aq k]. simpl.
  destruct (o !! c) as [pc|] eqn:Hpc; simpl.
  2:{ apply release_unbound. simpl. intros pc. rewrite Hpc. discriminate. }
  destruct (_conn pc) eqn:Hconn; simpl.
  2:{ apply release_unbound. simpl. intros pc'. rewrite Hpc.
      intros [= <-]. exact Hconn. }
  destruct (closed (wrapped pc)) eqn:Hcl; simpl.
  - destruct (deque_remove c aq) as [aq'|] eqn:Hrm; simpl.
    + eapply (release_closed c (MkPool o av aq k)); eassumption.
    + eapply (release_closed_absent c (MkPool o av aq k)); eassumption.
  - rewrite Hpc. simpl.
    rewrite list_lookup_insert_eq by (eapply lookup_lt_Some; exact Hpc). simpl.
    destruct (Z.eqb_spec (_times_acquired pc - 1) 0) as [Hz|Hnz]; simpl.
    + destruct (deque_remove c aq) as [aq'|] eqn:Hrm; simpl.
      * eapply (release_idle c (MkPool o av aq k)); eassumption.
      * eapply (release_idle_absent c (MkPool o av aq k)); eassumption.
    + eapply (release_shared c (MkPool o av aq k)); eassumption.
Qed.

Lemma release_length c p r p' :
  release c p = (r, p') -> (length (tracked p') <= length (tracked p))%nat.
Proof.
  intros E. pose proof (release_cases c p) as H. rewrite E in H. simpl in H.
  rewrite !tracked_length.
  inversion H; subst; simpl;
    repeat match goal with
           | H : deque_remove _ _ = Some _ |- _ =>
               apply deque_remove_length in H
           end;
    rewrite ?length_app; simpl; lia.
Qed.

Lemma pooled_release_length c p r p' :
  pooled_release c p = (r, p') -> (length (tracked p') <= length (tracked p))%nat.
Proof.
  unfold pooled_release, bind, deref, raise. intros E.
  destruct (objs p !! c) as [pc|]; [destruct (_pool pc)|];
    try (injection E as <- <-; lia).
  exact (release_length _ _ _ _ E).
Qed.

Lemma multiplex_length cfg n : forall p r p',
  multiplex cfg n p = (r, p') ->
  _available p' = _available p /\
  (length (_acquired p') <= length (_acquired p))%nat.
Proof.
  induction n as [|n IH]; intros [o av aq k] r p' E; simpl in E.
  - injection E as <- <-. split; [reflexivity | lia].
  - unfold_M. simpl in E. destruct aq as [|c aq]; simpl in E.
    { injection E as <- <-. split; [reflexivity | simpl; lia]. }
    destruct (o !! c) as [pc|] eqn:Hpc; simpl in E.
    2:{ injection E as <- <-. split; [reflexivity | simpl; lia]. }
    destruct (_times_acquired pc <? _max_times_acquired cfg); simpl in E.
    + rewrite Hpc in E. simpl in E. injection E as <- <-. simpl.
      split; [reflexivity|]. rewrite length_app. simpl. lia.
    + apply IH in E. simpl in E. destruct E as [-> Hlen].
      split; [reflexivity|]. rewrite length_app in Hlen. simpl in *. lia.
Qed.

(** What a turn of [acquire] does to the number of tracked connections. *)
Lemma acquire_turn_length cfg args p r p' :
  acquire_turn cfg args p = (r, p') ->
  (length (tracked p') <= length (tracked p))%nat /\
  forall a, r = Ok (AwaitOpen a) ->
    Z.of_nat (length (tracked p')) < _max_conns cfg.
Proof.
  rewrite !tracked_length.
  unfold acquire_turn, bind, get_available, get_acquired, ret.
  destruct (reuse_cases (length (_available p)) p (Nat.le_refl _))
    as (pre & post & Hav & Hpre & [[-> E]|[(c & post' & pc & -> & Hpc & Hconn & Hcl & E)
                                          |(c & post' & -> & Hc & E)]]);
    rewrite E, Hav; simpl; rewrite ?length_app; simpl.
  - destruct (Z.ltb_spec (Z.of_nat (length (_acquired p))) (_max_conns cfg)) as [Hlt|Hge];
      simpl.
    + intros [= <- <-]. simpl. split; [lia|]. intros _ _. lia.
    + destruct (multiplex cfg _ _) as [[[x|]|e] p1] eqn:Em;
        apply multiplex_length in Em; simpl in Em; destruct Em as [Hav1 Hlen];
        intros [= <- <-]; rewrite Hav1; simpl;
        (split; [lia | intros a; discriminate]).
  - intros [= <- <-]. simpl. rewrite length_app. simpl.
    split; [lia | intros a; discriminate].
  - intros [= <- <-]. simpl. split; [lia | intros a; discriminate].
Qed.

Lemma acquire_opened_length args p r p' :
  acquire_opened args p = (r, p') ->
  length (tracked p') = S (length (tracked p)).
Proof.
  rewrite !tracked_length.
  unfold acquire_opened, _get_connection, increment_acquired, acquired_append,
    bind, deref, store, get_acquired, set_acquired, ret. simpl.
  rewrite lookup_app_r by reflexivity. rewrite Nat.sub_diag. simpl.
  intros [= <- <-]. simpl. rewrite length_app. simpl. lia.
Qed.

Lemma pooled_close_tracked ok c p r p' :
  pooled_close ok c p = (r, p') -> tracked p' = tracked p.
Proof.
  unfold pooled_close, connection_closed, bind, deref, store, ret, raise.
  intros E. simpl in E.
  destruct (objs p !! c) as [pc|] eqn:Hpc; simpl in E;
    [destruct (_conn pc), ok; simpl in E|];
    try (injection E as <- <-; reflexivity).
  rewrite Hpc in E. simpl in E.
  rewrite list_lookup_insert_eq in E by (eapply lookup_lt_Some; exact Hpc).
  simpl in E. injection E as <- <-. reflexivity.
Qed.

Lemma connection_closed_tracked c p r p' :
  connection_closed c p = (r, p') -> tracked p' = tracked p.
Proof.
  unfold connection_closed, bind, deref, store. intros E.
  destruct (objs p !! c); injection E as <- <-; reflexivity.
Qed.

Lemma acquire_step_capacity cfg args s :
  opening s = None ->
  Z.of_nat (length (tracked (st_pool s))) <= _max_conns cfg ->
  Z.of_nat (length (tracked (st_pool (acquire_step cfg args s))))
    + match opening (acquire_step cfg args s) with Some _ => 1 | None => 0 end
    <= _max_conns cfg.
Proof.
  intros Ho Hb. unfold acquire_step.
  destruct (acquire_turn cfg args (st_pool s)) as [r p] eqn:E.
  destruct (acquire_turn_length _ _ _ _ _ E) as [Hlen Hopen].
  destruct r as [[c|a|]|e]; simpl; try lia.
  specialize (Hopen a eq_refl). lia.
Qed.

Lemma step_within_capacity cfg l s s' :
  no_init l -> within_capacity cfg s -> step cfg l s = Some s' ->
  within_capacity cfg s'.
Proof.
  intros Hl [Hlock Hb] Hstep. split; [exact (step_lock _ _ _ _ Hlock Hstep)|].
  destruct l; try contradiction; unfold step in Hstep.
  - (* CallAcquire *)
    destruct (locked s) eqn:Hlk; [discriminate|]. injection Hstep as <-.
    assert (Ho : opening s = None).
    { destruct (opening s); [|reflexivity].
      exfalso. assert (false = true) by (apply Hlock; discriminate). discriminate. }
    apply acquire_step_capacity; [exact Ho|]. rewrite Ho in Hb. lia.
  - (* AcquireOpened *)
    destruct (opening s) as [a|] eqn:Ho; [|discriminate].
    destruct ok.
    + destruct (acquire_opened a (st_pool s)) as [r p] eqn:E.
      apply acquire_opened_length in E.
      destruct r; injection Hstep as <-; simpl; lia.
    + injection Hstep as <-. simpl. lia.
  - (* RunNotify *)
    destruct (locked s); [discriminate|].
    destruct (notify_tasks (st_pool s)); [discriminate|].
    destruct (waiting s); injection Hstep as <-; simpl; exact Hb.
  - (* Resume *)
    destruct (locked s) eqn:Hlk; [discriminate|].
    destruct (woken s !! i) as [a|]; [|discriminate]. injection Hstep as <-.
    assert (Ho : opening s = None).
    { destruct (opening s); [|reflexivity].
      exfalso. assert (false = true) by (apply Hlock; discriminate). discriminate. }
    apply acquire_step_capacity; simpl; [exact Ho|]. rewrite Ho in Hb. lia.
  - (* CallRelease *)
    destruct (deque_remove conn (held s)); [|discriminate].
    destruct (pooled_release conn (st_pool s)) as [r p] eqn:E.
    apply pooled_release_length in E. injection Hstep as <-. simpl. lia.
  - (* CallClose *)
    rewrite close_waiters_eq in Hstep.
    assert (Z.of_nat (length (tracked (MkPool (objs (st_pool s)) [] []
                                              (notify_tasks (st_pool s)))))
            + match opening s with Some _ => 1 | None => 0 end <= _max_conns cfg)
      by (simpl; lia).
    destruct (tracked (st_pool s)); injection Hstep as <-; simpl; assumption.
  - (* CloseDone *)
    destruct (closes s !! i) as [ws|]; [|discriminate].
    destruct (deque_remove conn ws) as [ws'|]; [|discriminate].
    destruct (pooled_close ok conn (st_pool s)) as [r p] eqn:E.
    apply pooled_close_tracked in E.
    destruct r, ws'; injection Hstep as <-; simpl; rewrite E; exact Hb.
  - (* DetachedDone *)
    destruct (deque_remove conn (detached s)); [|discriminate].
    destruct (pooled_close ok conn (st_pool s)) as [r p] eqn:E.
    apply pooled_close_tracked in E.
    injection Hstep as <-. simpl. rewrite E. exact Hb.
  - (* ConnLost *)
    destruct (connection_closed conn (st_pool s)) as [r p] eqn:E.
    apply connection_closed_tracked in E.
    destruct r; [|discriminate]. injection Hstep as <-. simpl. rewrite E. exact Hb.
Qed.

Lemma init_pool_opened_eq cfg p :
  init_pool_opened cfg p =
    (Ok (length (objs p)),
     MkPool (objs p ++ [new_pooled (init_pool_args cfg)])
            (_available p ++ [length (objs p)]) (_acquired p) (notify_tasks p)).
Proof. reflexivity. Qed.

Lemma step_initialising cfg ok s s' :
  initialising cfg s -> step cfg (InitOpened 0 ok) s = Some s' ->
  initialising cfg s'.
Proof.
  intros (Hlk & Ho & Haq & Hb) Hstep. unfold step in Hstep.
  destruct (inits s) as [|n [|m l]] eqn:Hin; cbn [lookup list_lookup] in Hstep;
    try discriminate; [|contradiction].
  unfold initialising.
  destruct ok.
  - rewrite init_pool_opened_eq in Hstep.
    destruct n; injection Hstep as <-; simpl; rewrite ?Hin; simpl;
      rewrite length_app; simpl; repeat split; try assumption; lia.
  - injection Hstep as <-. simpl. rewrite ?Hin. simpl.
    repeat split; try assumption; lia.
Qed.

Lemma initialising_capacity cfg s :
  initialising cfg s -> within_capacity cfg s.
Proof.
  intros (Hlk & Ho & Haq & Hb). unfold within_capacity.
  rewrite Hlk, Ho, tracked_length, Haq. simpl.
  split; [split; [discriminate | congruence]|].
  destruct (inits s) as [|n [|m l]]; [lia | lia | contradiction].
Qed.

(** C2, as the code has it: when [init_pool] is run once, on the new pool
    and before anything else, and [0 <= min_conns <= max_conns] (or when it is
    not run at all), every state that [acquire], [release], [close] and the
    server can lead to, in any interleaving, has at most [max_conns] tracked
    connections; while the create branch of an [acquire] is suspended in its
    open there is room left for the connection it will add. *)
Theorem capacity_bound cfg prefix tr s :
  0 <= _max_conns cfg -> _min_conns cfg <= _max_conns cfg ->
  prefix = [] \/ (exists oks, prefix = CallInitPool :: map (InitOpened 0) oks) ->
  Forall no_init tr ->
  run cfg (prefix ++ tr) init_state = Some s ->
  Z.of_nat (length (_available (st_pool s)) + length (_acquired (st_pool s)))
    + match opening s with Some _ => 1 | None => 0 end <= _max_conns cfg.
Proof.
  intros Hmax Hmin Hprefix Htr Hrun.
  rewrite run_app in Hrun.
  destruct (run cfg prefix init_state) as [s1|] eqn:E1; [|discriminate].
  assert (H1 : within_capacity cfg s1).
  { apply initialising_capacity.
    destruct Hprefix as [->|[oks ->]].
    - injection E1 as <-. unfold initialising. simpl. repeat split. lia.
    - cbn [run] in E1.
      destruct (step cfg CallInitPool init_state) as [s0|] eqn:E0; [|discriminate].
      assert (H0 : initialising cfg s0).
      { unfold step in E0.
        destruct (Z.to_nat (_min_conns cfg)) as [|n] eqn:Hn;
          injection E0 as <-; unfold initialising; simpl;
          (split; [reflexivity|]); (split; [reflexivity|]);
          (split; [reflexivity|]); lia. }
      clear E0. revert s0 H0 E1.
      induction oks as [|ok oks IH]; intros s0 H0 E1; cbn [map run] in E1.
      + injection E1 as <-. exact H0.
      + destruct (step cfg (InitOpened 0 ok) s0) as [s2|] eqn:E2; [|discriminate].
        exact (IH s2 (step_initialising _ _ _ _ H0 E2) E1). }
  rewrite <- tracked_length.
  apply (run_invariant cfg no_init (within_capacity cfg)
           (step_within_capacity cfg) tr s1 s Htr H1 Hrun).
Qed.

Lemma capacity_bound_witness :
  exists s,
    run (example_config 1 1 2)
        [CallInitPool; InitOpened 0 true; CallAcquire no_overrides;
         CallAcquire no_overrides; CallRelease 0%nat]
        init_state = Some s /\
    Z.of_nat (length (_available (st_pool s)) + length (_acquired (st_pool s))) <= 1.
Proof.
  eexists. split; [vm_compute; reflexivity|].
  match goal with
  | |- Z.of_nat (length (_available (st_pool ?s)) + _) <= _ =>
      assert (H := capacity_bound (example_config 1 1 2)
                     [CallInitPool; InitOpened 0 true]
                     [CallAcquire no_overrides; CallAcquire no_overrides;
                      CallRelease 0%nat] s)
  end.
  assert (H' : 0 <= 1 /\ 1 <= 1) by lia.
  specialize (H (proj1 H') (proj2 H')
                (or_intror (ex_intro _ [true] eq_refl))).
  assert (H2 := H ltac:(repeat constructor)). clear H.
  assert (H3 := H2 ltac:(vm_compute; reflexivity)). clear H2.
  vm_compute in H3. vm_compute. exact H3.
Defined.

(** The claim C2 itself fails: nothing keeps [init_pool] from being run a
    second time, and each run opens [min_conns] connections more. *)
Lemma second_init_pool_exceeds_max_conns :
  ~ (forall tr s,
       run (example_config 1 1 2) tr init_state = Some s ->
       Z.of_nat (length (_available (st_pool s)) + length (_acquired (st_pool s)))
         <= _max_conns (example_config 1 1 2)).
Proof.
  intros H.
  destruct (run (example_config 1 1 2)
              [CallInitPool; InitOpened 0 true; CallInitPool; InitOpened 0 true]
              init_state)
    as [s|] eqn:E; [|vm_compute in E; discriminate E].
  pose proof (H _ s E) as H1. vm_compute in E. injection E as <-.
  vm_compute in H1. apply H1. reflexivity.
Qed.

(** ** The invariant of the bookkeeping *)

Lemma counter_insert_eq p c pc pc' av aq k :
  objs p !! c = Some pc ->
  counter (MkPool (<[c := pc']> (objs p)) av aq k) c = _times_acquired pc'.
Proof.
  intros Hpc. unfold counter. simpl.
  rewrite list_lookup_insert_eq by (eapply lookup_lt_Some; exact Hpc). reflexivity.
Qed.

Lemma counter_insert_ne p c x pc' av aq k :
  c <> x -> counter (MkPool (<[c := pc']> (objs p)) av aq k) x = counter p x.
Proof.
  intros Hne. unfold counter. simpl.
  rewrite list_lookup_insert_ne by exact Hne. reflexivity.
Qed.

Lemma count_occ_snoc (h : list nat) c x :
  count_occ Nat.eq_dec (h ++ [c]) x =
    (count_occ Nat.eq_dec h x + (if Nat.eq_dec c x then 1 else 0))%nat.
Proof. rewrite count_occ_app. simpl. destruct (Nat.eq_dec c x); reflexivity. Qed.

Lemma count_occ_remove (h h' : list nat) c x :
  deque_remove c h = Some h' ->
  count_occ Nat.eq_dec h x =
    (count_occ Nat.eq_dec h' x + (if Nat.eq_dec c x then 1 else 0))%nat.
Proof.
  intros H. apply deque_remove_perm in H.
  rewrite (proj1 (Permutation_count_occ Nat.eq_dec _ _) H x). simpl.
  destruct (Nat.eq_dec c x); lia.
Qed.

Lemma deque_remove_subset c (h h' : list nat) x :
  deque_remove c h = Some h' -> x ∈ h' -> x ∈ h.
Proof.
  intros H Hx. rewrite (deque_remove_perm _ _ _ H). right. exact Hx.
Qed.

(** The number of [_notify] tasks is no part of it. *)
Lemma pool_inv_notify g h p k :
  pool_inv g h p ->
  pool_inv g h (MkPool (objs p) (_available p) (_acquired p) k).
Proof. intros [H1 H2 H3 H4 H5 H6 H7]. split; assumption. Qed.

(** Connections only ever become gone. *)
Lemma pool_inv_gone (g g' : nat -> Prop) h p :
  (forall c, g c -> g' c) -> pool_inv g h p -> pool_inv g' h p.
Proof.
  intros Hg [H1 H2 H3 H4 H5 H6 H7]. split; try assumption.
  intros c pc Hpc Hcl Hng. apply (H7 c pc Hpc Hcl). intros Hgc. apply Hng, Hg, Hgc.
Qed.

(** A holder that gives up its hold without a change of the pool. *)
Lemma pool_inv_unhold g h h' c p :
  deque_remove c h = Some h' -> pool_inv g h p -> pool_inv g h' p.
Proof.
  intros Hrm [H1 H2 H3 H4 H5 H6 H7]. split; try assumption.
  - intros x Hx. apply H1. apply elem_of_app in Hx as [Hx|Hx];
      apply elem_of_app; [left; exact Hx | right].
    exact (deque_remove_subset _ _ _ _ Hrm Hx).
  - intros x Hx. specialize (H5 x Hx).
    rewrite (count_occ_remove _ _ _ x Hrm) in H5. lia.
Qed.

(** Closed connections at the front of [available] are dropped. *)
Lemma pool_inv_drop g h p pre post k :
  pool_inv g h p ->
  _available p = pre ++ post ->
  (forall x, x ∈ pre -> is_closed p x = true) ->
  pool_inv g h (MkPool (objs p) post (_acquired p) k).
Proof.
  intros [H1 H2 H3 H4 H5 H6 H7] Hav Hpre.
  assert (Hsub : forall x, x ∈ post ++ _acquired p -> x ∈ tracked p).
  { intros x Hx. unfold tracked. rewrite Hav.
    apply elem_of_app in Hx as [Hx|Hx]; rewrite !elem_of_app; tauto. }
  split; unfold tracked in *; simpl.
  - intros x Hx. apply H1. apply elem_of_app in Hx as [Hx|Hx];
      apply elem_of_app; [left; apply Hsub; exact Hx | right; exact Hx].
  - rewrite Hav, <- app_assoc in H2. apply NoDup_app in H2. tauto.
  - intros x Hx. apply H3. rewrite Hav. apply elem_of_app. right. exact Hx.
  - exact H4.
  - intros x Hx. apply H5, Hsub, Hx.
  - exact H6.
  - intros x pc Hpc Hcl Hng.
    specialize (H7 x pc Hpc Hcl Hng). rewrite Hav, <- app_assoc in H7.
    apply elem_of_app in H7 as [Hx|Hx]; [|exact Hx].
    specialize (Hpre x Hx). unfold is_closed in Hpre. rewrite Hpc in Hpre. congruence.
Qed.

(** A tracked connection gets one more holder and is, from then on, in
    [acquired]. *)
Lemma pool_inv_bump g h p c pc av aq k :
  pool_inv g h p ->
  objs p !! c = Some pc ->
  av ++ aq ≡ₚ tracked p ->
  (forall x, x ∈ av -> x ∈ _available p /\ x <> c) ->
  (forall x, x ∈ aq -> x ∈ _acquired p \/ x = c) ->
  pool_inv g (h ++ [c])
    (MkPool (<[c := with_times (_times_acquired pc + 1) pc]> (objs p)) av aq k).
Proof.
  intros [H1 H2 H3 H4 H5 H6 H7] Hpc Hperm Hav Haq.
  assert (Hlt : (c < length (objs p))%nat) by (eapply lookup_lt_Some; exact Hpc).
  assert (Htr : forall x, x ∈ av ++ aq <-> x ∈ tracked p)
    by (intros x; rewrite Hperm; reflexivity).
  assert (Hcnt : counter p c = _times_acquired pc)
    by (unfold counter; rewrite Hpc; reflexivity).
  assert (Hnew : forall x px',
            <[c := with_times (_times_acquired pc + 1) pc]> (objs p) !! x = Some px' ->
            exists px, objs p !! x = Some px /\ wrapped px' = wrapped px /\
                       _conn px' = _conn px).
  { intros x px' Hx. destruct (decide (c = x)) as [<-|Hne].
    - rewrite list_lookup_insert_eq in Hx by exact Hlt. injection Hx as <-.
      exists pc. repeat split. exact Hpc.
    - rewrite list_lookup_insert_ne in Hx by exact Hne. exists px'. repeat split.
      exact Hx. }
  split; simpl.
  - intros x Hx. rewrite length_insert.
    change (x ∈ (av ++ aq) ++ h ++ [c]) in Hx.
    rewrite !elem_of_app in Hx. destruct Hx as [Hx|[Hx|Hx]].
    + apply H1. apply elem_of_app. left. apply Htr. apply elem_of_app. exact Hx.
    + apply H1. apply elem_of_app. right. exact Hx.
    + apply list_elem_of_singleton in Hx. subst x. exact Hlt.
  - change (NoDup (av ++ aq)). rewrite Hperm. exact H2.
  - intros x Hx. destruct (Hav x Hx) as [Hx' Hne].
    rewrite counter_insert_ne by congruence. apply H3, Hx'.
  - intros x Hx. destruct (decide (c = x)) as [<-|Hne].
    + rewrite (counter_insert_eq _ _ pc) by exact Hpc. simpl.
      assert (Hc : c ∈ tracked p) by (apply Htr, elem_of_app; right; exact Hx).
      unfold tracked in Hc. apply elem_of_app in Hc as [Hc|Hc].
      * specialize (H3 c Hc). lia.
      * specialize (H4 c Hc). lia.
    + rewrite counter_insert_ne by exact Hne.
      destruct (Haq x Hx) as [Hx' | ->]; [apply H4, Hx' | congruence].
  - intros x Hx. change (x ∈ av ++ aq) in Hx. apply Htr in Hx.
    specialize (H5 x Hx). rewrite count_occ_snoc.
    destruct (Nat.eq_dec c x) as [<-|Hne].
    + rewrite (counter_insert_eq _ _ pc) by exact Hpc. simpl. lia.
    + rewrite counter_insert_ne by exact Hne. lia.
  - intros x px' Hx Hconn. destruct (Hnew x px' Hx) as (px & Hpx & -> & Hc).
    apply (H6 x px Hpx). congruence.
  - intros x px' Hx Hcl Hng. destruct (Hnew x px' Hx) as (px & Hpx & Hw & _).
    change (x ∈ av ++ aq). apply Htr. apply (H7 x px Hpx); [congruence | exact Hng].
Qed.

(** A connection just opened comes in at the back of [available]. *)
Lemma pool_inv_new g h p args k :
  pool_inv g h p ->
  pool_inv g h (MkPool (objs p ++ [new_pooled args])
                       (_available p ++ [length (objs p)]) (_acquired p) k).
Proof.
  intros [H1 H2 H3 H4 H5 H6 H7].
  assert (Hold : forall x, x ∈ tracked p -> (x < length (objs p))%nat)
    by (intros x Hx; apply H1, elem_of_app; left; exact Hx).
  assert (Hcnt : forall x av aq k', (x < length (objs p))%nat ->
            counter (MkPool (objs p ++ [new_pooled args]) av aq k') x = counter p x).
  { intros x av aq k' Hx. unfold counter. simpl.
    rewrite lookup_app_l by exact Hx. reflexivity. }
  assert (Hfresh : forall av aq k',
            counter (MkPool (objs p ++ [new_pooled args]) av aq k') (length (objs p)) = 0).
  { intros. unfold counter. simpl.
    rewrite lookup_app_r by reflexivity. rewrite Nat.sub_diag. reflexivity. }
  assert (Hnew : forall x px,
            (objs p ++ [new_pooled args]) !! x = Some px ->
            objs p !! x = Some px \/ (x = length (objs p) /\ px = new_pooled args)).
  { intros x px Hx. apply lookup_app_Some in Hx as [Hx|[Hge Hx]]; [left; exact Hx|].
    right. apply list_lookup_singleton_Some in Hx as [Hz ->].
    split; [lia | reflexivity]. }
  split; simpl.
  - intros x Hx. rewrite length_app. simpl.
    change (x ∈ ((_available p ++ [length (objs p)]) ++ _acquired p) ++ h) in Hx.
    rewrite !elem_of_app in Hx. destruct Hx as [[[Hx|Hx]|Hx]|Hx].
    + assert (x < length (objs p))%nat; [|lia].
      apply Hold. unfold tracked. rewrite elem_of_app. tauto.
    + apply list_elem_of_singleton in Hx. lia.
    + assert (x < length (objs p))%nat; [|lia].
      apply Hold. unfold tracked. rewrite elem_of_app. tauto.
    + assert (x < length (objs p))%nat; [|lia].
      apply H1. rewrite elem_of_app. tauto.
  - change (NoDup ((_available p ++ [length (objs p)]) ++ _acquired p)).
    rewrite <- app_assoc. simpl. rewrite <- Permutation_middle.
    apply NoDup_cons. split; [|exact H2].
    intros Hin. specialize (Hold _ Hin). lia.
  - intros x Hx. apply elem_of_app in Hx as [Hx|Hx].
    + rewrite Hcnt; [apply H3, Hx|]. apply Hold. unfold tracked.
      apply elem_of_app. left. exact Hx.
    + apply list_elem_of_singleton in Hx. subst x. apply Hfresh.
  - intros x Hx. rewrite Hcnt; [apply H4, Hx|]. apply Hold. unfold tracked.
    apply elem_of_app. right. exact Hx.
  - intros x Hx.
    change (x ∈ (_available p ++ [length (objs p)]) ++ _acquired p) in Hx.
    rewrite !elem_of_app in Hx. destruct Hx as [[Hx|Hx]|Hx].
    + rewrite Hcnt; [apply H5|apply Hold]; unfold tracked; rewrite elem_of_app; tauto.
    + apply list_elem_of_singleton in Hx. subst x. rewrite Hfresh.
      assert (Hn : ~ In (length (objs p)) h).
      { intros Hin. apply list_elem_of_In in Hin.
        assert (length (objs p) < length (objs p))%nat; [|lia].
        apply H1. apply elem_of_app. right. exact Hin. }
      apply (count_occ_not_In Nat.eq_dec) in Hn. rewrite Hn. reflexivity.
    + rewrite Hcnt; [apply H5|apply Hold]; unfold tracked; rewrite elem_of_app; tauto.
  - intros x px Hx Hconn. destruct (Hnew x px Hx) as [Hx'|[_ ->]].
    + exact (H6 x px Hx' Hconn).
    + discriminate Hconn.
  - intros x px Hx Hcl Hng.
    change (x ∈ (_available p ++ [length (objs p)]) ++ _acquired p).
    rewrite !elem_of_app. destruct (Hnew x px Hx) as [Hx'|[-> _]].
    + specialize (H7 x px Hx' Hcl Hng). unfold tracked in H7.
      apply elem_of_app in H7. tauto.
    + left. right. apply list_elem_of_singleton. reflexivity.
Qed.

(** A closed connection leaves [acquired]. *)
Lemma pool_inv_untrack g h p c pc aq k :
  pool_inv g h p ->
  objs p !! c = Some pc -> closed (wrapped pc) = true ->
  deque_remove c (_acquired p) = Some aq ->
  pool_inv g h (MkPool (objs p) (_available p) aq k).
Proof.
  intros [H1 H2 H3 H4 H5 H6 H7] Hpc Hcl Hrm.
  assert (Hperm : tracked p ≡ₚ c :: (_available p ++ aq)).
  { unfold tracked. rewrite (deque_remove_perm _ _ _ Hrm).
    symmetry. apply Permutation_middle. }
  assert (Hsub : forall x, x ∈ _available p ++ aq -> x ∈ tracked p).
  { intros x Hx. rewrite Hperm. right. exact Hx. }
  split; simpl.
  - intros x Hx. change (x ∈ (_available p ++ aq) ++ h) in Hx.
    apply H1. apply elem_of_app in Hx as [Hx|Hx]; apply elem_of_app;
      [left; apply Hsub, Hx | right; exact Hx].
  - change (NoDup (_available p ++ aq)). rewrite Hperm in H2.
    apply NoDup_cons in H2. tauto.
  - exact H3.
  - intros x Hx. apply H4. exact (deque_remove_subset _ _ _ _ Hrm Hx).
  - intros x Hx. apply H5, Hsub, Hx.
  - exact H6.
  - intros x px Hpx Hclx Hng. change (x ∈ _available p ++ aq).
    specialize (H7 x px Hpx Hclx Hng). rewrite Hperm in H7.
    apply elem_of_cons in H7 as [->|Hx]; [congruence | exact Hx].
Qed.

(** A holder gives its hold back on a connection that is not closed. *)
Lemma pool_inv_unbump g h h' p c pc av aq k :
  pool_inv g h p ->
  deque_remove c h = Some h' ->
  objs p !! c = Some pc ->
  av ++ aq ≡ₚ tracked p ->
  (forall x, x ∈ av -> x ∈ _available p \/ (x = c /\ _times_acquired pc - 1 = 0)) ->
  (forall x, x ∈ aq -> x ∈ _acquired p /\ (x = c -> _times_acquired pc - 1 <> 0)) ->
  pool_inv g h'
    (MkPool (<[c := with_times (_times_acquired pc - 1) pc]> (objs p)) av aq k).
Proof.
  intros [H1 H2 H3 H4 H5 H6 H7] Hrm Hpc Hperm Hav Haq.
  assert (Hlt : (c < length (objs p))%nat) by (eapply lookup_lt_Some; exact Hpc).
  assert (Htr : forall x, x ∈ av ++ aq <-> x ∈ tracked p)
    by (intros x; rewrite Hperm; reflexivity).
  assert (Hcnt : counter p c = _times_acquired pc)
    by (unfold counter; rewrite Hpc; reflexivity).
  assert (Hheld : forall x, count_occ Nat.eq_dec h x =
            (count_occ Nat.eq_dec h' x + (if Nat.eq_dec c x then 1 else 0))%nat)
    by (intros x; apply count_occ_remove; exact Hrm).
  assert (Hnew : forall x px',
            <[c := with_times (_times_acquired pc - 1) pc]> (objs p) !! x = Some px' ->
            exists px, objs p !! x = Some px /\ wrapped px' = wrapped px /\
                       _conn px' = _conn px).
  { intros x px' Hx. destruct (decide (c = x)) as [<-|Hne].
    - rewrite list_lookup_insert_eq in Hx by exact Hlt. injection Hx as <-.
      exists pc. repeat split. exact Hpc.
    - rewrite list_lookup_insert_ne in Hx by exact Hne. exists px'. repeat split.
      exact Hx. }
  assert (Hnotav : c ∉ _available p).
  { intros Hc. assert (Hc' : c ∈ tracked p) by (apply elem_of_app; left; exact Hc).
    specialize (H3 c Hc). specialize (H5 c Hc'). specialize (Hheld c).
    destruct (Nat.eq_dec c c); [lia | congruence]. }
  split; simpl.
  - intros x Hx. rewrite length_insert.
    change (x ∈ (av ++ aq) ++ h') in Hx. apply H1.
    apply elem_of_app in Hx as [Hx|Hx]; apply elem_of_app;
      [left; apply Htr, Hx | right; exact (deque_remove_subset _ _ _ _ Hrm Hx)].
  - change (NoDup (av ++ aq)). rewrite Hperm. exact H2.
  - intros x Hx. destruct (Hav x Hx) as [Hx'|[-> Hz]].
    + rewrite counter_insert_ne by (intros ->; contradiction). apply H3, Hx'.
    + rewrite (counter_insert_eq _ _ pc) by exact Hpc. exact Hz.
  - intros x Hx. destruct (Haq x Hx) as [Hx' Hnz].
    specialize (H4 x Hx'). destruct (decide (c = x)) as [<-|Hne].
    + rewrite (counter_insert_eq _ _ pc) by exact Hpc. simpl.
      specialize (Hnz eq_refl). lia.
    + rewrite counter_insert_ne by exact Hne. exact H4.
  - intros x Hx. change (x ∈ av ++ aq) in Hx. apply Htr in Hx.
    specialize (H5 x Hx). specialize (Hheld x).
    destruct (Nat.eq_dec c x) as [<-|Hne].
    + rewrite (counter_insert_eq _ _ pc) by exact Hpc. simpl. lia.
    + rewrite counter_insert_ne by exact Hne. lia.
  - intros x px' Hx Hconn. destruct (Hnew x px' Hx) as (px & Hpx & -> & Hc).
    apply (H6 x px Hpx). congruence.
  - intros x px' Hx Hcl Hng. destruct (Hnew x px' Hx) as (px & Hpx & Hw & _).
    change (x ∈ av ++ aq). apply Htr. apply (H7 x px Hpx); [congruence | exact Hng].
Qed.

Lemma pool_inv_release g h h' p c r p' :
  pool_inv g h p ->
  deque_remove c h = Some h' ->
  release_spec c p r p' ->
  pool_inv g h' p'.
Proof.
  intros Hinv Hrm Hrel.
  pose proof (inv_nodup _ _ _ Hinv) as Hnd. unfold tracked in Hnd.
  apply NoDup_app in Hnd as (_ & _ & Hndaq).
  inversion Hrel; subst.
  - exact (pool_inv_unhold _ _ _ _ _ Hrm Hinv).
  - apply (pool_inv_unhold _ _ _ _ _ Hrm).
    eapply pool_inv_untrack; eassumption.
  - exact (pool_inv_unhold _ _ _ _ _ Hrm Hinv).
  - eapply pool_inv_unbump; try eassumption; [reflexivity | |].
    + intros x Hx. left. exact Hx.
    + intros x Hx. split; [exact Hx | intros _; assumption].
  - destruct (deque_remove_NoDup _ _ _ Hndaq H3) as [_ Hnotin].
    eapply pool_inv_unbump; try eassumption.
    + unfold tracked. rewrite (deque_remove_perm _ _ _ H3).
      rewrite <- app_assoc. reflexivity.
    + intros x Hx. apply elem_of_app in Hx as [Hx|Hx]; [left; exact Hx|].
      apply list_elem_of_singleton in Hx. right. split; assumption.
    + intros x Hx. split; [exact (deque_remove_subset _ _ _ _ H3 Hx)|].
      intros ->. contradiction.
  - apply deque_remove_None in H3.
    eapply pool_inv_unbump; try eassumption; [reflexivity | |].
    + intros x Hx. left. exact Hx.
    + intros x Hx. split; [exact Hx | intros ->; contradiction].
Qed.

(** [close] takes everything out of the deques. *)
Lemma pool_inv_close (g : nat -> Prop) h p k :
  pool_inv g h p ->
  pool_inv (fun c => g c \/ c ∈ tracked p) h (MkPool (objs p) [] [] k).
Proof.
  intros [H1 H2 H3 H4 H5 H6 H7]. split; simpl.
  - intros x Hx. apply H1. apply elem_of_app. right. exact Hx.
  - apply NoDup_nil. exact I.
  - intros x Hx. inversion Hx.
  - intros x Hx. inversion Hx.
  - intros x Hx. inversion Hx.
  - exact H6.
  - intros x px Hpx Hcl Hng. exfalso. apply Hng. right.
    apply (H7 x px Hpx Hcl). intros Hg. apply Hng. left. exact Hg.
Qed.

(** A connection becomes closed, by [close] or by the server. *)
Lemma pool_inv_closed g h p c pc pc' k :
  pool_inv g h p ->
  objs p !! c = Some pc ->
  _times_acquired pc' = _times_acquired pc -> closed (wrapped pc') = true ->
  pool_inv g h (MkPool (<[c := pc']> (objs p)) (_available p) (_acquired p) k).
Proof.
  intros [H1 H2 H3 H4 H5 H6 H7] Hpc Ht Hcl.
  assert (Hlt : (c < length (objs p))%nat) by (eapply lookup_lt_Some; exact Hpc).
  assert (Hcnt : forall x av aq k',
            counter (MkPool (<[c := pc']> (objs p)) av aq k') x = counter p x).
  { intros x av aq k'. destruct (decide (c = x)) as [<-|Hne].
    - rewrite (counter_insert_eq _ _ pc) by exact Hpc.
      unfold counter. rewrite Hpc. exact Ht.
    - apply counter_insert_ne. exact Hne. }
  split; simpl.
  - intros x Hx. rewrite length_insert. apply H1. exact Hx.
  - exact H2.
  - intros x Hx. rewrite Hcnt. apply H3, Hx.
  - intros x Hx. rewrite Hcnt. apply H4, Hx.
  - intros x Hx. rewrite Hcnt. apply H5, Hx.
  - intros x px Hx Hconn. destruct (decide (c = x)) as [<-|Hne].
    + rewrite list_lookup_insert_eq in Hx by exact Hlt. injection Hx as <-. exact Hcl.
    + rewrite list_lookup_insert_ne in Hx by exact Hne. exact (H6 x px Hx Hconn).
  - intros x px Hx Hclx Hng. destruct (decide (c = x)) as [<-|Hne].
    + rewrite list_lookup_insert_eq in Hx by exact Hlt. injection Hx as <-. congruence.
    + rewrite list_lookup_insert_ne in Hx by exact Hne. exact (H7 x px Hx Hclx Hng).
Qed.

Lemma connection_closed_cases c p r p' :
  connection_closed c p = (r, p') ->
  p' = p \/
  exists pc pc',
    objs p !! c = Some pc /\ _times_acquired pc' = _times_acquired pc /\
    closed (wrapped pc') = true /\
    p' = MkPool (<[c := pc']> (objs p)) (_available p) (_acquired p) (notify_tasks p).
Proof.
  unfold connection_closed, bind, deref, store. intros E.
  destruct (objs p !! c) as [pc|] eqn:Hpc; injection E as <- <-; [|left; reflexivity].
  right. eexists pc, _. split; [reflexivity|]. split; [|split; [|reflexivity]]; reflexivity.
Qed.

Lemma pooled_close_cases ok c p r p' :
  pooled_close ok c p = (r, p') ->
  p' = p \/
  exists pc pc',
    objs p !! c = Some pc /\ _times_acquired pc' = _times_acquired pc /\
    closed (wrapped pc') = true /\
    p' = MkPool (<[c := pc']> (objs p)) (_available p) (_acquired p) (notify_tasks p).
Proof.
  intros E. destruct (objs p !! c) as [pc|] eqn:Hpc.
  - destruct (_conn pc) eqn:Hconn; [destruct ok|].
    + rewrite (pooled_close_ok _ _ _ Hpc Hconn) in E. injection E as <- <-.
      right. exists pc, (closed_pooled pc). repeat split. 
    + left. unfold pooled_close, bind, deref, raise in E.
      rewrite Hpc, Hconn in E. injection E as <- <-. reflexivity.
    + left. unfold pooled_close, bind, deref, raise in E.
      rewrite Hpc, Hconn in E. injection E as <- <-. reflexivity.
  - left. unfold pooled_close, bind, deref, raise in E.
    rewrite Hpc in E. injection E as <- <-. reflexivity.
Qed.

Lemma pool_inv_closing g h p p' :
  pool_inv g h p ->
  (p' = p \/
   exists pc pc' c,
     objs p !! c = Some pc /\ _times_acquired pc' = _times_acquired pc /\
     closed (wrapped pc') = true /\
     p' = MkPool (<[c := pc']> (objs p)) (_available p) (_acquired p)
                 (notify_tasks p)) ->
  pool_inv g h p'.
Proof.
  intros Hinv [->|(pc & pc' & c & Hpc & Ht & Hcl & ->)]; [exact Hinv|].
  eapply pool_inv_closed; eassumption.
Qed.

(** One turn of [acquire]. *)
Lemma pool_inv_turn cfg args g h p r p' :
  pool_inv g h p ->
  turn_spec cfg args p r p' ->
  pool_inv g (match r with Ok (Return c) => h ++ [c] | _ => h end) p'.
Proof.
  intros Hinv Hturn.
  inversion Hturn as [pre c post pc Hav Hpre Hpc Hconn Hcl
                     |pre c post Hav Hpre Hunb
                     |Hpre Hlt
                     |pre c post pc Hpre Hcap Haq Hsat Hpc Hlt
                     |Hpre Hcap Hsat]; subst.
  - (* reuse *)
    pose proof (pool_inv_drop g h p pre (c :: post) (notify_tasks p) Hinv Hav Hpre)
      as Hinv1.
    pose proof (inv_nodup _ _ _ Hinv1) as Hnd. unfold tracked in Hnd. simpl in Hnd.
    apply NoDup_cons in Hnd as [Hc _].
    refine (pool_inv_bump g h _ c pc post (_acquired p ++ [c]) _ Hinv1 Hpc _ _ _); simpl.
    + unfold tracked. simpl. rewrite app_assoc.
      symmetry. apply Permutation_cons_append.
    + intros x Hx. split; [right; exact Hx|].
      intros ->. apply Hc. apply elem_of_app. left. exact Hx.
    + intros x Hx. apply elem_of_app in Hx as [Hx|Hx]; [left; exact Hx|].
      apply list_elem_of_singleton in Hx. right. exact Hx.
  - (* an idle entry with [_conn] unbound *)
    apply (pool_inv_drop g h p (pre ++ [c]) post (notify_tasks p) Hinv).
    + rewrite <- app_assoc. exact Hav.
    + intros x Hx. apply elem_of_app in Hx as [Hx|Hx]; [apply Hpre, Hx|].
      apply list_elem_of_singleton in Hx. subst x.
      assert (Hlt : (c < length (objs p))%nat).
      { apply (inv_refs _ _ _ Hinv). unfold tracked. rewrite Hav.
        rewrite !elem_of_app. left. left. right. left. }
      destruct (lookup_lt_is_Some_2 _ _ Hlt) as [pc Hpc].
      unfold is_closed. rewrite Hpc.
      exact (inv_unbound _ _ _ Hinv c pc Hpc (Hunb pc Hpc)).
  - (* create *)
    apply (pool_inv_drop g h p (_available p) [] (notify_tasks p) Hinv);
      [symmetry; apply app_nil_r | assumption].
  - (* multiplex *)
    pose proof (pool_inv_drop g h p (_available p) [] (notify_tasks p) Hinv
                  (eq_sym (app_nil_r _)) Hpre) as Hinv1.
    refine (pool_inv_bump g h _ c pc [] (post ++ pre ++ [c]) _ Hinv1 Hpc _ _ _); simpl.
    + unfold tracked. simpl. rewrite Haq.
      rewrite (Permutation_app_comm post). rewrite <- app_assoc. reflexivity.
    + intros x Hx. inversion Hx.
    + intros x Hx. rewrite Haq. rewrite !elem_of_app in Hx.
      rewrite elem_of_app, elem_of_cons.
      destruct Hx as [Hx|[Hx|Hx]]; [tauto | tauto |].
      apply list_elem_of_singleton in Hx. tauto.
  - (* wait *)
    apply (pool_inv_drop g h p (_available p) [] (notify_tasks p) Hinv);
      [symmetry; apply app_nil_r | assumption].
Qed.

Lemma acquire_opened_eq args p :
  acquire_opened args p =
    (Ok (length (objs p)),
     MkPool (<[length (objs p) :=
                 with_times (_times_acquired (new_pooled args) + 1) (new_pooled args)]>
               (objs p ++ [new_pooled args]))
            (_available p) (_acquired p ++ [length (objs p)]) (notify_tasks p)).
Proof.
  unfold acquire_opened, _get_connection, increment_acquired, acquired_append,
    bind, deref, store, get_acquired, set_acquired, ret. simpl.
  rewrite lookup_app_r by reflexivity. rewrite Nat.sub_diag. reflexivity.
Qed.

Lemma pool_inv_opened g h p args :
  pool_inv g h p ->
  pool_inv g (h ++ [length (objs p)]) (acquire_opened args p).2.
Proof.
  intros Hinv. rewrite acquire_opened_eq. simpl.
  pose proof (pool_inv_new g h p args (notify_tasks p) Hinv) as Hinv1.
  refine (pool_inv_bump g h _ (length (objs p)) (new_pooled args) (_available p)
            (_acquired p ++ [length (objs p)]) _ Hinv1 _ _ _ _); simpl.
  - rewrite lookup_app_r by reflexivity. rewrite Nat.sub_diag. reflexivity.
  - unfold tracked. simpl. rewrite <- !app_assoc.
    apply Permutation_app_head. apply Permutation_app_comm.
  - intros x Hx. split; [apply elem_of_app; left; exact Hx|].
    assert (x < length (objs p))%nat; [|lia].
    apply (inv_refs _ _ _ Hinv). unfold tracked. rewrite !elem_of_app. tauto.
  - intros x Hx. apply elem_of_app in Hx as [Hx|Hx]; [left; exact Hx|].
    apply list_elem_of_singleton in Hx. right. exact Hx.
Qed.

Lemma state_inv_intro (g : nat -> Prop) s' :
  pool_inv g (held s') (st_pool s') ->
  (forall c, g c -> EvClose c ∈ log s') ->
  state_inv s'.
Proof. intros H Hg. exact (pool_inv_gone g _ _ _ Hg H). Qed.

Lemma state_inv_acquire_step cfg args s :
  state_inv s -> state_inv (acquire_step cfg args s).
Proof.
  intros Hinv. unfold state_inv in Hinv.
  assert (Hv : forall x, x ∈ _acquired (st_pool s) -> is_Some (objs (st_pool s) !! x)).
  { intros x Hx. apply lookup_lt_is_Some_2. apply (inv_refs _ _ _ Hinv).
    unfold tracked. rewrite !elem_of_app. tauto. }
  pose proof (pool_inv_turn cfg args _ _ _ _ _ Hinv
                (acquire_turn_spec cfg args (st_pool s) Hv)) as H.
  unfold acquire_step.
  destruct (acquire_turn cfg args (st_pool s)) as [[[c|a|]|e] p]; simpl in H;
    apply (state_inv_intro (fun c => EvClose c ∈ log s)); simpl;
    try exact H; intros x Hx; try exact Hx; apply elem_of_app; left; exact Hx.
Qed.

Lemma pooled_release_cases c p :
  (pooled_release c p = (Raise AttributeError, p)) \/
  pooled_release c p = release c p.
Proof.
  unfold pooled_release, bind, deref, raise.
  destruct (objs p !! c) as [pc|]; [destruct (_pool pc)|]; auto.
Qed.

Lemma step_state_inv cfg l s s' :
  state_inv s -> step cfg l s = Some s' -> state_inv s'.
Proof.
  intros Hinv Hstep.
  assert (Hlog : forall evs c, EvClose c ∈ log s -> EvClose c ∈ log s ++ evs)
    by (intros evs c Hc; apply elem_of_app; left; exact Hc).
  pose proof Hinv as Hp. unfold state_inv in Hp.
  destruct l; unfold step in Hstep.
  - (* CallInitPool *)
    destruct (Z.to_nat (_min_conns cfg)); injection Hstep as <-;
      apply (state_inv_intro (fun c => EvClose c ∈ log s)); simpl; auto.
  - (* InitOpened *)
    destruct (inits s !! i) as [n|]; [|discriminate].
    destruct ok.
    + rewrite init_pool_opened_eq in Hstep.
      pose proof (pool_inv_new _ _ _ (init_pool_args cfg) (notify_tasks (st_pool s)) Hp).
      destruct n; injection Hstep as <-;
        apply (state_inv_intro (fun c => EvClose c ∈ log s)); simpl; auto.
    + injection Hstep as <-.
      apply (state_inv_intro (fun c => EvClose c ∈ log s)); simpl; auto.
  - (* CallAcquire *)
    destruct (locked s); [discriminate|]. injection Hstep as <-.
    apply state_inv_acquire_step. exact Hinv.
  - (* AcquireOpened *)
    destruct (opening s) as [a|]; [|discriminate].
    destruct ok.
    + pose proof (pool_inv_opened _ _ _ a Hp) as H.
      rewrite acquire_opened_eq in Hstep. rewrite acquire_opened_eq in H.
      injection Hstep as <-.
      apply (state_inv_intro (fun c => EvClose c ∈ log s)); simpl; auto.
    + injection Hstep as <-.
      apply (state_inv_intro (fun c => EvClose c ∈ log s)); simpl; auto.
  - (* RunNotify *)
    destruct (locked s); [discriminate|].
    destruct (notify_tasks (st_pool s)) as [|k]; [discriminate|].
    pose proof (pool_inv_notify _ _ _ k Hp).
    destruct (waiting s); injection Hstep as <-;
      apply (state_inv_intro (fun c => EvClose c ∈ log s)); simpl; auto.
  - (* Resume *)
    destruct (locked s); [discriminate|].
    destruct (woken s !! i) as [a|]; [|discriminate]. injection Hstep as <-.
    apply state_inv_acquire_step. exact Hinv.
  - (* CallRelease *)
    destruct (deque_remove conn (held s)) as [h'|] eqn:Hrm; [|discriminate].
    assert (H : pool_inv (fun c => EvClose c ∈ log s) h'
                  (pooled_release conn (st_pool s)).2).
    { destruct (pooled_release_cases conn (st_pool s)) as [E|E]; rewrite E.
      - exact (pool_inv_unhold _ _ _ _ _ Hrm Hp).
      - exact (pool_inv_release _ _ _ _ _ _ _ Hp Hrm (release_cases conn (st_pool s))). }
    destruct (pooled_release conn (st_pool s)) as [r p]. injection Hstep as <-.
    apply (state_inv_intro (fun c => EvClose c ∈ log s)); simpl; auto.
  - (* CallClose *)
    rewrite close_waiters_eq in Hstep.
    pose proof (pool_inv_close _ _ _ (notify_tasks (st_pool s)) Hp) as H.
    destruct (tracked (st_pool s)) as [|w ws] eqn:Htr; injection Hstep as <-;
      (eapply state_inv_intro; [exact H|]); simpl; intros c [Hc|Hc].
    + apply elem_of_app. left. exact Hc.
    + inversion Hc.
    + apply elem_of_app. left. exact Hc.
    + apply elem_of_app. right.
      change (EvClose c ∈ EvClose <$> (w :: ws)).
      apply list_elem_of_fmap_2. exact Hc.
  - (* CloseDone *)
    destruct (closes s !! i) as [ws|]; [|discriminate].
    destruct (deque_remove conn ws) as [ws'|]; [|discriminate].
    destruct (pooled_close ok conn (st_pool s)) as [r p] eqn:E.
    assert (H : pool_inv (fun c => EvClose c ∈ log s) (held s) p).
    { apply (pool_inv_closing _ _ _ _ Hp).
      destruct (pooled_close_cases _ _ _ _ _ E) as [->|(pc & pc' & H)];
        [left; reflexivity | right; exists pc, pc', conn; exact H]. }
    destruct r, ws'; injection Hstep as <-;
      apply (state_inv_intro (fun c => EvClose c ∈ log s)); simpl; auto;
      intros c Hc; rewrite !elem_of_app; tauto.
  - (* DetachedDone *)
    destruct (deque_remove conn (detached s)); [|discriminate].
    destruct (pooled_close ok conn (st_pool s)) as [r p] eqn:E.
    assert (H : pool_inv (fun c => EvClose c ∈ log s) (held s) p).
    { apply (pool_inv_closing _ _ _ _ Hp).
      destruct (pooled_close_cases _ _ _ _ _ E) as [->|(pc & pc' & H)];
        [left; reflexivity | right; exists pc, pc', conn; exact H]. }
    injection Hstep as <-.
    apply (state_inv_intro (fun c => EvClose c ∈ log s)); simpl; auto.
  - (* ConnLost *)
    destruct (connection_closed conn (st_pool s)) as [r p] eqn:E.
    assert (H : pool_inv (fun c => EvClose c ∈ log s) (held s) p).
    { apply (pool_inv_closing _ _ _ _ Hp).
      destruct (connection_closed_cases _ _ _ _ E) as [->|(pc & pc' & H)];
        [left; reflexivity | right; exists pc, pc', conn; exact H]. }
    destruct r; [|discriminate]. injection Hstep as <-.
    apply (state_inv_intro (fun c => EvClose c ∈ log s)); simpl; auto.
Qed.

Lemma state_inv_init : state_inv init_state.
Proof.
  split; simpl.
  - intros c Hc. inversion Hc.
  - apply NoDup_nil. exact I.
  - intros c Hc. inversion Hc.
  - intros c Hc. inversion Hc.
  - intros c Hc. inversion Hc.
  - intros c pc Hc. inversion Hc.
  - intros c pc Hc. inversion Hc.
Qed.

Lemma reachable_state_inv cfg tr s :
  run cfg tr init_state = Some s -> state_inv s.
Proof.
  intros Hrun.
  refine (run_invariant cfg (fun _ => True) state_inv _ tr init_state s
            (Forall_any tr) state_inv_init Hrun).
  intros l s0 s1 _. apply step_state_inv.
Qed.

(** C3, as the code has it: in every state the pool reaches by an
    interleaving of [init_pool], [acquire], [close], the server dropping
    connections and releases made by holders (a caller releases a connection
    that [acquire] returned to it, once for each time it was returned), no
    connection is listed twice or in both deques, every entry of
    [available] has counter 0 and every entry of [acquired] has a counter of
    at least 1, so that a tracked connection is in [available] exactly when
    its counter is 0; and a connection that is not closed and that no
    [close] of the pool has taken is tracked. *)
Theorem tracking_invariant cfg tr s :
  run cfg tr init_state = Some s ->
  NoDup (_available (st_pool s) ++ _acquired (st_pool s)) /\
  (forall c, c ∈ _available (st_pool s) -> counter (st_pool s) c = 0) /\
  (forall c, c ∈ _acquired (st_pool s) -> 1 <= counter (st_pool s) c) /\
  (forall c, c ∈ _available (st_pool s) ++ _acquired (st_pool s) ->
     (c ∈ _available (st_pool s) <-> counter (st_pool s) c = 0)) /\
  (forall c, ~ (c ∈ _available (st_pool s) /\ c ∈ _acquired (st_pool s))) /\
  (forall c pc,
     objs (st_pool s) !! c = Some pc -> closed (wrapped pc) = false ->
     EvClose c ∉ log s ->
     c ∈ _available (st_pool s) ++ _acquired (st_pool s)).
Proof.
  intros Hrun. destruct (reachable_state_inv cfg tr s Hrun) as [H1 H2 H3 H4 H5 H6 H7].
  unfold tracked in *.
  split; [exact H2|]. split; [exact H3|]. split; [exact H4|].
  split; [|split].
  - intros c Hc. split; [apply H3|].
    intros Hz. apply elem_of_app in Hc as [Hc|Hc]; [exact Hc|].
    specialize (H4 c Hc). lia.
  - intros c [Hav Haq]. specialize (H3 c Hav). specialize (H4 c Haq). lia.
  - intros c pc Hpc Hcl Hlog. exact (H7 c pc Hpc Hcl Hlog).
Qed.

Lemma tracking_invariant_witness :
  exists s,
    run (example_config 2 1 2)
        [CallInitPool; InitOpened 0 true; CallAcquire no_overrides;
         CallAcquire no_overrides; AcquireOpened true; CallAcquire no_overrides;
         CallRelease 1%nat]
        init_state = Some s /\
    NoDup (_available (st_pool s) ++ _acquired (st_pool s)) /\
    (forall c, c ∈ _acquired (st_pool s) -> 1 <= counter (st_pool s) c).
Proof.
  eexists. split; [vm_compute; reflexivity|].
  match goal with
  | |- NoDup (_available (st_pool ?s) ++ _) /\ _ =>
      destruct (tracking_invariant (example_config 2 1 2)
                  [CallInitPool; InitOpened 0 true; CallAcquire no_overrides;
                   CallAcquire no_overrides; AcquireOpened true;
                   CallAcquire no_overrides; CallRelease 1%nat] s)
        as (Hnd & _ & Haq & _)
  end.
  - vm_compute. reflexivity.
  - split; [exact Hnd | exact Haq].
Defined.

(** The claim C3 itself fails: [release] does not check that the
    connection is held.  A caller that releases its connection a second time
    (the first release has put it back into [available] with counter 0) gets
    no error, and the entry of [available] is left with counter -1. *)
Lemma second_release_breaks_tracking :
  ~ (forall tr s c p',
       run (example_config 1 0 1) tr init_state = Some s ->
       pooled_release c (st_pool s) = (Ok tt, p') ->
       forall x, x ∈ _available p' -> counter p' x = 0).
Proof.
  intros H.
  destruct (run (example_config 1 0 1)
              [CallAcquire no_overrides; AcquireOpened true; CallRelease 0%nat]
              init_state)
    as [s|] eqn:E; [|vm_compute in E; discriminate E].
  destruct (pooled_release 0%nat (st_pool s)) as [r p'] eqn:Er.
  pose proof (H _ s 0%nat p' E) as H1.
  vm_compute in E. injection E as <-.
  vm_compute in Er. injection Er as <- <-.
  specialize (H1 eq_refl 0%nat). vm_compute in H1.
  assert (H2 : Some (-1) = Some 0).
  { f_equal. apply H1. apply list_elem_of_In. left. reflexivity. }
  discriminate H2.
Qed.

(** A connection that a caller holds and that is not closed is in
    [acquired], as long as no [close] of the pool has taken it: the
    premise of [release_open]. *)
Lemma held_open_in_acquired cfg tr s c pc :
  run cfg tr init_state = Some s ->
  c ∈ held s ->
  objs (st_pool s) !! c = Some pc -> closed (wrapped pc) = false ->
  EvClose c ∉ log s ->
  c ∈ _acquired (st_pool s).
Proof.
  intros Hrun Hc Hpc Hcl Hlog.
  destruct (reachable_state_inv cfg tr s Hrun) as [H1 H2 H3 H4 H5 H6 H7].
  pose proof (H7 c pc Hpc Hcl Hlog) as Htr.
  pose proof (H5 c Htr) as Hcount.
  unfold tracked in Htr. apply elem_of_app in Htr as [Hav|Haq]; [|exact Haq].
  specialize (H3 c Hav).
  apply list_elem_of_In, (count_occ_In Nat.eq_dec) in Hc. lia.
Qed.

(** ** The reuse and create branches *)

Lemma reuse_all_stale n : forall p,
  (length (_available p) <= n)%nat ->
  (forall c, c ∈ _available p -> stale p c) ->
  reuse n p = (Ok None, MkPool (objs p) [] (_acquired p) (notify_tasks p)).
Proof.
  induction n as [|n IH]; intros [o av aq k] Hlen Hall; simpl in *.
  - destruct av; simpl in *; [reflexivity | lia].
  - unfold_M; simpl. destruct av as [|c av]; [reflexivity|]. simpl.
    destruct (Hall c) as (pc & Hpc & Hconn & Hcl); [left|].
    simpl in *. rewrite Hpc. simpl. rewrite Hconn. simpl. rewrite Hcl. simpl.
    rewrite IH; simpl; [reflexivity | simpl in Hlen; lia |].
    intros x Hx. apply (Hall x). right. exact Hx.
Qed.

Lemma reuse_first_open pre : forall n p c post pc,
  _available p = pre ++ c :: post ->
  (length pre < n)%nat ->
  (forall x, x ∈ pre -> stale p x) ->
  objs p !! c = Some pc -> _conn pc = true -> closed (wrapped pc) = false ->
  reuse n p = (Ok (Some c),
               MkPool (<[c := with_times (_times_acquired pc + 1) pc]> (objs p))
                      post (_acquired p ++ [c]) (notify_tasks p)).
Proof.
  induction pre as [|x pre IH]; intros n [o av aq k] c post pc Hav Hlen Hall Hpc Hconn Hcl;
    simpl in *; subst av; (destruct n as [|n]; [simpl in Hlen; lia|]); simpl.
  - unfold_M; simpl. rewrite Hpc. simpl. rewrite Hconn. simpl. rewrite Hcl. simpl.
    rewrite Hpc. reflexivity.
  - unfold_M; simpl.
    destruct (Hall x) as (px & Hpx & Hcx & Hclx); [left|].
    simpl in *. rewrite Hpx. simpl. rewrite Hcx. simpl. rewrite Hclx. simpl.
    erewrite IH; simpl; eauto.
    + simpl in Hlen. lia.
    + intros y Hy. apply (Hall y). right. exact Hy.
Qed.

(** X1: [acquire] serves the oldest idle connection that is not closed:
    the closed entries in front of it are popped and dropped for good, the
    entries behind it keep their places, and the one returned goes to the
    back of [acquired] with its counter raised by one, whatever [acquired]
    and the limits are. *)
Theorem acquire_reuse_oldest_open cfg args p pre c post pc :
  _available p = pre ++ c :: post ->
  (forall x, x ∈ pre -> stale p x) ->
  objs p !! c = Some pc -> _conn pc = true -> closed (wrapped pc) = false ->
  acquire_turn cfg args p =
    (Ok (Return c),
     MkPool (<[c := with_times (_times_acquired pc + 1) pc]> (objs p))
            post (_acquired p ++ [c]) (notify_tasks p)).
Proof.
  intros Hav Hpre Hpc Hconn Hcl.
  unfold acquire_turn, bind, get_available, ret.
  rewrite (reuse_first_open pre _ p c post pc Hav) by
    (try assumption; rewrite Hav, length_app; simpl; lia).
  reflexivity.
Qed.

Lemma acquire_reuse_oldest_open_witness :
  acquire_turn (example_config 4 0 2) no_overrides example_idle =
    (Ok (Return 1%nat),
     MkPool [MkPooled (MkConnection true no_overrides) true true 0;
             example_pooled 1; example_pooled 0]
            [2%nat] [1%nat] 0).
Proof.
  refine (acquire_reuse_oldest_open (example_config 4 0 2) no_overrides
            example_idle [0%nat] 1%nat [2%nat] (example_pooled 0)
            eq_refl _ eq_refl eq_refl eq_refl).
  intros x Hx. apply list_elem_of_singleton in Hx. subst x.
  eexists. split; [reflexivity|]. split; reflexivity.
Defined.

(** X2: when every idle entry is closed and [acquired] is shorter than
    [max_conns], the turn drops the idle entries and suspends in the open
    with the arguments of the call; the connection that comes back is a new
    object, appended to [acquired] with counter 1, and nothing else in the
    store changes. *)
Theorem acquire_create_branch cfg args p :
  (forall x, x ∈ _available p -> stale p x) ->
  Z.of_nat (length (_acquired p)) < _max_conns cfg ->
  exists p1 p2,
    acquire_turn cfg args p = (Ok (AwaitOpen args), p1) /\
    p1 = MkPool (objs p) [] (_acquired p) (notify_tasks p) /\
    acquire_opened args p1 = (Ok (length (objs p)), p2) /\
    objs p2 = objs p ++ [with_times 1 (new_pooled args)] /\
    _available p2 = [] /\
    _acquired p2 = _acquired p ++ [length (objs p)] /\
    notify_tasks p2 = notify_tasks p.
Proof.
  intros Hall Hlt. do 2 eexists. split; [|split; [reflexivity|]].
  - unfold acquire_turn, bind, get_available, get_acquired, ret.
    rewrite (reuse_all_stale _ p (Nat.le_refl _) Hall). simpl.
    destruct (Z.ltb_spec (Z.of_nat (length (_acquired p))) (_max_conns cfg)); [|lia].
    reflexivity.
  - rewrite acquire_opened_eq. simpl. split; [reflexivity|]. simpl.
    split; [|repeat split].
    rewrite insert_app_r_alt by reflexivity. rewrite Nat.sub_diag. reflexivity.
Qed.

Lemma acquire_create_branch_witness :
  exists p1 p2,
    acquire_turn (example_config 4 0 2) no_overrides (st_pool example_saturated) =
      (Ok (AwaitOpen no_overrides), p1) /\
    acquire_opened no_overrides p1 = (Ok 3%nat, p2) /\
    _acquired p2 = [0; 1; 2; 3]%nat.
Proof.
  destruct (acquire_create_branch (example_config 4 0 2) no_overrides
              (st_pool example_saturated))
    as (p1 & p2 & E1 & _ & E2 & _ & _ & Haq & _).
  - intros x Hx. inversion Hx.
  - simpl. lia.
  - exists p1, p2. split; [exact E1|]. split; [exact E2 | exact Haq].
Defined.

(** ** More on release *)

(** X3: releasing a connection that reports closed and is tracked in
    [acquired] takes it out of [acquired] and puts it nowhere: its counter
    and the rest of the store stay as they are, [available] is untouched, and
    one [_notify] task is created. *)
Theorem release_closed_tracked c pc p :
  objs p !! c = Some pc -> _conn pc = true -> closed (wrapped pc) = true ->
  c ∈ _acquired p ->
  exists aq,
    release c p =
      (Ok tt, MkPool (objs p) (_available p) aq (S (notify_tasks p))) /\
    deque_remove c (_acquired p) = Some aq /\
    _acquired p ≡ₚ c :: aq /\
    (NoDup (tracked p) -> c ∉ _available p ++ aq).
Proof.
  intros Hpc Hconn Hcl Hin.
  destruct (deque_remove_elem _ _ Hin) as [aq Hrm].
  exists aq. split; [|split; [exact Hrm|split]].
  - unfold release, pooled_closed, acquired_remove, create_task_notify, bind,
      deref, get_acquired, set_acquired, ret.
    rewrite Hpc. simpl. rewrite Hconn. simpl. rewrite Hcl. simpl.
    rewrite Hrm. reflexivity.
  - exact (deque_remove_perm _ _ _ Hrm).
  - intros Hnd. unfold tracked in Hnd.
    rewrite (deque_remove_perm _ _ _ Hrm) in Hnd.
    rewrite <- Permutation_middle in Hnd. apply NoDup_cons in Hnd. tauto.
Qed.

Lemma release_closed_tracked_witness :
  exists aq,
    release 0%nat (MkPool [MkPooled (MkConnection true no_overrides) true true 2]
                          [] [0%nat] 0) =
      (Ok tt, MkPool [MkPooled (MkConnection true no_overrides) true true 2]
                     [] aq 1) /\
    aq = [].
Proof.
  destruct (release_closed_tracked 0%nat
              (MkPooled (MkConnection true no_overrides) true true 2)
              (MkPool [MkPooled (MkConnection true no_overrides) true true 2]
                      [] [0%nat] 0) eq_refl eq_refl eq_refl)
    as (aq & E & Hrm & _).
  - left.
  - exists aq. split; [exact E|]. simpl in Hrm. congruence.
Defined.

(** X4: once [PooledConnection.close] has returned for a connection, its
    [closed] property, its [release] and a second [close] all raise
    [AttributeError] (on the [None] left in [_conn] and [_pool]) and leave
    the pool exactly as it was, while the [Connection] it wrapped reports
    closed. *)
Theorem after_pooled_close c pc p :
  objs p !! c = Some pc -> _conn pc = true ->
  exists p',
    pooled_close true c p = (Ok tt, p') /\
    is_closed p' c = true /\
    counter p' c = _times_acquired pc /\
    tracked p' = tracked p /\
    pooled_closed c p' = (Raise AttributeError, p') /\
    pooled_release c p' = (Raise AttributeError, p') /\
    forall ok, pooled_close ok c p' = (Raise AttributeError, p').
Proof.
  intros Hpc Hconn. eexists. split; [exact (pooled_close_ok _ _ _ Hpc Hconn)|].
  assert (Hlt : (c < length (objs p))%nat) by (eapply lookup_lt_Some; exact Hpc).
  unfold is_closed, counter, pooled_closed, pooled_release, pooled_close, bind,
    deref, raise. simpl.
  rewrite list_lookup_insert_eq by exact Hlt. simpl.
  repeat split.
Qed.

Lemma after_pooled_close_witness :
  exists p',
    pooled_close true 1%nat (st_pool example_saturated) = (Ok tt, p') /\
    pooled_release 1%nat p' = (Raise AttributeError, p').
Proof.
  destruct (after_pooled_close 1%nat (example_pooled 1) (st_pool example_saturated)
              eq_refl eq_refl)
    as (p' & E & _ & _ & _ & _ & Hrel & _).
  exists p'. split; [exact E | exact Hrel].
Defined.

(** The two ways a release of a tracked connection that is not closed
    ends. *)
Lemma release_open_cases c pc p :
  objs p !! c = Some pc -> _conn pc = true -> closed (wrapped pc) = false ->
  c ∈ _acquired p ->
  exists aq,
    deque_remove c (_acquired p) = Some aq /\
    release c p =
      (Ok tt,
       if _times_acquired pc - 1 =? 0
       then MkPool (<[c := with_times (_times_acquired pc - 1) pc]> (objs p))
                   (_available p ++ [c]) aq (S (notify_tasks p))
       else MkPool (<[c := with_times (_times_acquired pc - 1) pc]> (objs p))
                   (_available p) (_acquired p) (S (notify_tasks p))).
Proof.
  intros Hpc Hconn Hcl Hin.
  destruct (deque_remove_elem _ _ Hin) as [aq Hrm]. exists aq.
  split; [exact Hrm|].
  pose proof (release_cases c p) as H.
  destruct (release c p) as [r p']. simpl in H.
  inversion H as [Hunb|pc0 aq0 Hpc0 _ Hcl0 _|pc0 Hpc0 _ Hcl0 _
                 |pc0 Hpc0 _ _ Hnz|pc0 aq0 Hpc0 _ _ Hz Hrm0
                 |pc0 Hpc0 _ _ _ Hrm0]; subst;
    try (rewrite Hpc in Hpc0; injection Hpc0 as <-).
  - specialize (Hunb pc Hpc). congruence.
  - congruence.
  - congruence.
  - destruct (Z.eqb_spec (_times_acquired pc - 1) 0); [contradiction | reflexivity].
  - rewrite Hrm in Hrm0. injection Hrm0 as <-.
    rewrite Hz. reflexivity.
  - congruence.
Qed.

Lemma turn_wait_inv cfg args p p' :
  turn_spec cfg args p (Ok AwaitCondition) p' ->
  (forall x, x ∈ _available p -> is_closed p x = true) /\
  (forall x, x ∈ _acquired p -> saturated cfg p x).
Proof. intros H. inversion H. split; assumption. Qed.

(** X5: a release is never lost on the next caller: after the release of
    a connection that is not closed, is tracked in [acquired] and has a
    counter within [max_times_acquired], a turn of [acquire] does not end in
    the wait on the condition. *)
Theorem release_enables_acquire cfg args c pc p :
  objs p !! c = Some pc -> _conn pc = true -> closed (wrapped pc) = false ->
  c ∈ _acquired p ->
  _times_acquired pc <= _max_times_acquired cfg ->
  (forall x, x ∈ _acquired p -> is_Some (objs p !! x)) ->
  exists p',
    release c p = (Ok tt, p') /\
    (acquire_turn cfg args p').1 <> Ok AwaitCondition.
Proof.
  intros Hpc Hconn Hcl Hin Hle Hv.
  destruct (release_open_cases c pc p Hpc Hconn Hcl Hin) as (aq & Hrm & E).
  eexists. split; [exact E|].
  assert (Hlt : (c < length (objs p))%nat) by (eapply lookup_lt_Some; exact Hpc).
  set (o' := <[c := with_times (_times_acquired pc - 1) pc]> (objs p)) in *.
  assert (Hpc' : o' !! c = Some (with_times (_times_acquired pc - 1) pc))
    by (apply list_lookup_insert_eq; exact Hlt).
  assert (Hlen : length o' = length (objs p)) by apply length_insert.
  intros Hwait.
  destruct (Z.eqb_spec (_times_acquired pc - 1) 0) as [Hz|Hnz].
  - match type of Hwait with (acquire_turn _ _ ?q).1 = _ =>
      assert (Hv' : forall x, x ∈ _acquired q -> is_Some (objs q !! x));
      [|pose proof (acquire_turn_spec cfg args q Hv') as Hspec] end.
    { simpl. intros x Hx. apply lookup_lt_is_Some_2. rewrite Hlen.
      apply lookup_lt_is_Some_1, Hv. exact (deque_remove_subset _ _ _ _ Hrm Hx). }
    rewrite Hwait in Hspec. apply turn_wait_inv in Hspec as [Hav _].
    assert (Hc : is_closed (MkPool o' (_available p ++ [c]) aq (S (notify_tasks p))) c
                 = true).
    { apply Hav. simpl. apply elem_of_app. right. left. }
    unfold is_closed in Hc. simpl in Hc. rewrite Hpc' in Hc. simpl in Hc. congruence.
  - match type of Hwait with (acquire_turn _ _ ?q).1 = _ =>
      assert (Hv' : forall x, x ∈ _acquired q -> is_Some (objs q !! x));
      [|pose proof (acquire_turn_spec cfg args q Hv') as Hspec] end.
    { simpl. intros x Hx. apply lookup_lt_is_Some_2. rewrite Hlen.
      apply lookup_lt_is_Some_1, Hv, Hx. }
    rewrite Hwait in Hspec. apply turn_wait_inv in Hspec as [_ Hsat].
    destruct (Hsat c) as (px & Hpx & Hmax); [exact Hin|].
    simpl in Hpx. rewrite Hpc' in Hpx. injection Hpx as <-. simpl in Hmax. lia.
Qed.

Lemma release_enables_acquire_witness :
  exists p',
    release 0%nat (st_pool example_saturated) = (Ok tt, p') /\
    (acquire_turn (example_config 3 0 2) no_overrides p').1 <> Ok AwaitCondition.
Proof.
  apply (release_enables_acquire (example_config 3 0 2) no_overrides 0%nat
           (example_pooled 2) (st_pool example_saturated) eq_refl eq_refl eq_refl).
  - left.
  - simpl. lia.
  - intros x Hx. apply list_elem_of_In in Hx. simpl in Hx.
    destruct Hx as [<-|[<-|[<-|[]]]]; eexists; reflexivity.
Defined.

(** ** Holders *)

(** X6: in every state the pool can reach, the connections callers hold
    are accounted for: a tracked connection has at least as many holders
    counted as there are callers holding it, and a held connection that is
    not closed is in [acquired] (never idle, never lost) as long as no
    [close] of the pool has taken it. *)
Theorem holders_accounted cfg tr s :
  run cfg tr init_state = Some s ->
  (forall c, c ∈ _available (st_pool s) ++ _acquired (st_pool s) ->
     Z.of_nat (count_occ Nat.eq_dec (held s) c) <= counter (st_pool s) c) /\
  (forall c, c ∈ _available (st_pool s) -> c ∉ held s) /\
  (forall c pc,
     c ∈ held s ->
     objs (st_pool s) !! c = Some pc -> closed (wrapped pc) = false ->
     EvClose c ∉ log s ->
     c ∈ _acquired (st_pool s)).
Proof.
  intros Hrun.
  pose proof (reachable_state_inv cfg tr s Hrun) as Hinv.
  split; [exact (inv_held _ _ _ Hinv)|]. split.
  - intros c Hav Hheld.
    pose proof (inv_available _ _ _ Hinv c Hav) as H0.
    assert (Htr : c ∈ tracked (st_pool s)) by (apply elem_of_app; left; exact Hav).
    pose proof (inv_held _ _ _ Hinv c Htr) as H1.
    apply list_elem_of_In, (count_occ_In Nat.eq_dec) in Hheld. lia.
  - intros c pc Hc Hpc Hcl Hlog.
    exact (held_open_in_acquired cfg tr s c pc Hrun Hc Hpc Hcl Hlog).
Qed.

Lemma holders_accounted_witness :
  exists s,
    run (example_config 1 1 2)
        [CallInitPool; InitOpened 0 true; CallAcquire no_overrides;
         CallAcquire no_overrides; CallRelease 0%nat]
        init_state = Some s /\
    forall c, c ∈ _available (st_pool s) -> c ∉ held s.
Proof.
  eexists. split; [vm_compute; reflexivity|].
  match goal with
  | |- forall c, c ∈ _available (st_pool ?s) -> _ =>
      destruct (holders_accounted (example_config 1 1 2)
                  [CallInitPool; InitOpened 0 true; CallAcquire no_overrides;
                   CallAcquire no_overrides; CallRelease 0%nat] s)
        as (_ & H & _)
  end.
  - vm_compute. reflexivity.
  - exact H.
Defined.

(** ** The share counter stays within its limit *)

Lemma bounded_from cfg p p' :
  bounded cfg p ->
  (forall x, x ∈ tracked p' ->
     (x ∈ tracked p /\ counter p' x <= counter p x) \/
     counter p' x <= _max_times_acquired cfg) ->
  bounded cfg p'.
Proof.
  intros Hb H x Hx. destruct (H x Hx) as [[Hx' Hle]|Hle]; [|exact Hle].
  specialize (Hb x Hx'). lia.
Qed.

Lemma turn_bounded cfg args g h p r p' :
  1 <= _max_times_acquired cfg ->
  pool_inv g h p -> bounded cfg p -> turn_spec cfg args p r p' ->
  bounded cfg p'.
Proof.
  intros Hmax Hinv Hb Hturn. apply (bounded_from cfg p p' Hb).
  inversion Hturn as [pre c post pc Hav Hpre Hpc Hconn Hcl
                     |pre c post Hav Hpre Hunb
                     |Hpre Hlt
                     |pre c post pc Hpre Hcap Haq Hsat Hpc Hlt
                     |Hpre Hcap Hsat]; subst; unfold tracked; simpl; intros x Hx.
  - destruct (decide (c = x)) as [<-|Hne].
    + right. rewrite (counter_insert_eq _ _ pc) by exact Hpc. simpl.
      assert (H0 : counter p c = 0).
      { apply (inv_available _ _ _ Hinv). rewrite Hav.
        apply elem_of_app. right. left. }
      unfold counter in H0. rewrite Hpc in H0. lia.
    + left. rewrite counter_insert_ne by exact Hne. split; [|lia].
      rewrite Hav. rewrite !elem_of_app in Hx. rewrite !elem_of_app, elem_of_cons.
      destruct Hx as [Hx|[Hx|Hx]]; [tauto | tauto |].
      apply list_elem_of_singleton in Hx. congruence.
  - left. split; [|unfold counter; simpl; lia].
    rewrite Hav. rewrite !elem_of_app in *. rewrite elem_of_cons. tauto.
  - left. split; [|unfold counter; simpl; lia].
    rewrite elem_of_app. right. exact Hx.
  - destruct (decide (c = x)) as [<-|Hne].
    + right. rewrite (counter_insert_eq _ _ pc) by exact Hpc. simpl. lia.
    + left. rewrite counter_insert_ne by exact Hne. split; [|lia].
      rewrite Haq. rewrite !elem_of_app in Hx. rewrite !elem_of_app, elem_of_cons.
      destruct Hx as [Hx|[Hx|Hx]]; [tauto | tauto |].
      apply list_elem_of_singleton in Hx. congruence.
  - left. split; [|unfold counter; simpl; lia].
    rewrite elem_of_app. right. exact Hx.
Qed.

Lemma release_bounded cfg c p r p' :
  bounded cfg p -> release_spec c p r p' -> bounded cfg p'.
Proof.
  intros Hb Hrel. apply (bounded_from cfg p p' Hb).
  assert (Hdec : forall pc av aq k x,
            objs p !! c = Some pc ->
            counter (MkPool (<[c := with_times (_times_acquired pc - 1) pc]> (objs p))
                            av aq k) x <= counter p x).
  { intros pc av aq k x Hpc. destruct (decide (c = x)) as [<-|Hne].
    - rewrite (counter_insert_eq _ _ pc) by exact Hpc. unfold counter.
      rewrite Hpc. simpl. lia.
    - rewrite counter_insert_ne by exact Hne. lia. }
  inversion Hrel as [Hunb|pc aq Hpc _ _ Hrm|pc Hpc _ _ _
                    |pc Hpc _ _ _|pc aq Hpc _ _ _ Hrm
                    |pc Hpc _ _ _ _]; subst; unfold tracked; simpl; intros x Hx; left.
  - split; [exact Hx | lia].
  - split; [|unfold counter; simpl; lia].
    rewrite !elem_of_app in *. destruct Hx as [Hx|Hx]; [tauto|].
    right. exact (deque_remove_subset _ _ _ _ Hrm Hx).
  - split; [exact Hx | lia].
  - split; [exact Hx | apply Hdec; exact Hpc].
  - split; [|apply Hdec; exact Hpc].
    rewrite !elem_of_app in *. destruct Hx as [[Hx|Hx]|Hx].
    + tauto.
    + apply list_elem_of_singleton in Hx. subst x. right.
      apply deque_remove_perm in Hrm. rewrite Hrm. left.
    + right. exact (deque_remove_subset _ _ _ _ Hrm Hx).
  - split; [exact Hx | apply Hdec; exact Hpc].
Qed.

Lemma closing_bounded cfg p p' :
  bounded cfg p ->
  (p' = p \/
   exists pc pc' c,
     objs p !! c = Some pc /\ _times_acquired pc' = _times_acquired pc /\
     closed (wrapped pc') = true /\
     p' = MkPool (<[c := pc']> (objs p)) (_available p) (_acquired p)
                 (notify_tasks p)) ->
  bounded cfg p'.
Proof.
  intros Hb [->|(pc & pc' & c & Hpc & Ht & _ & ->)]; [exact Hb|].
  apply (bounded_from cfg p _ Hb). unfold tracked. simpl. intros x Hx. left.
  split; [exact Hx|]. destruct (decide (c = x)) as [<-|Hne].
  - rewrite (counter_insert_eq _ _ pc) by exact Hpc. unfold counter.
    rewrite Hpc. lia.
  - rewrite counter_insert_ne by exact Hne. lia.
Qed.

Lemma acquire_step_pool cfg args s :
  st_pool (acquire_step cfg args s) = (acquire_turn cfg args (st_pool s)).2.
Proof.
  unfold acquire_step.
  destruct (acquire_turn cfg args (st_pool s)) as [[[c|a|]|e] p]; reflexivity.
Qed.

Lemma step_bounded cfg l s s' :
  1 <= _max_times_acquired cfg ->
  state_inv s -> bounded cfg (st_pool s) -> step cfg l s = Some s' ->
  bounded cfg (st_pool s').
Proof.
  intros Hmax Hinv Hb Hstep. unfold state_inv in Hinv.
  assert (Hold : forall x, x ∈ tracked (st_pool s) ->
                   (x < length (objs (st_pool s)))%nat).
  { intros x Hx. apply (inv_refs _ _ _ Hinv). apply elem_of_app. left. exact Hx. }
  assert (Hacq : forall args s0, st_pool s0 = st_pool s ->
                   bounded cfg (st_pool (acquire_step cfg args s0))).
  { intros args s0 Hs0. rewrite acquire_step_pool, Hs0.
    assert (Hv : forall x, x ∈ _acquired (st_pool s) ->
                   is_Some (objs (st_pool s) !! x)).
    { intros x Hx. apply lookup_lt_is_Some_2, Hold. apply elem_of_app.
      right. exact Hx. }
    pose proof (turn_bounded cfg args _ _ _ _ _ Hmax Hinv Hb
                  (acquire_turn_spec cfg args (st_pool s) Hv)) as H.
    exact H. }
  destruct l; unfold step in Hstep.
  - destruct (Z.to_nat (_min_conns cfg)); injection Hstep as <-; exact Hb.
  - destruct (inits s !! i) as [n|]; [|discriminate].
    destruct ok.
    + rewrite init_pool_opened_eq in Hstep.
      assert (H : bounded cfg
                    (MkPool (objs (st_pool s) ++ [new_pooled (init_pool_args cfg)])
                            (_available (st_pool s) ++ [length (objs (st_pool s))])
                            (_acquired (st_pool s)) (notify_tasks (st_pool s)))).
      { apply (bounded_from cfg _ _ Hb). unfold tracked at 1. simpl. intros x Hx.
        rewrite !elem_of_app in Hx. destruct Hx as [[Hx|Hx]|Hx].
        - left. split; [apply elem_of_app; tauto|].
          unfold counter. simpl. rewrite lookup_app_l; [lia|].
          apply Hold. apply elem_of_app. tauto.
        - apply list_elem_of_singleton in Hx. subst x. right.
          unfold counter. simpl. rewrite lookup_app_r by reflexivity.
          rewrite Nat.sub_diag. simpl. lia.
        - left. split; [apply elem_of_app; tauto|].
          unfold counter. simpl. rewrite lookup_app_l; [lia|].
          apply Hold. apply elem_of_app. tauto. }
      destruct n; injection Hstep as <-; exact H.
    + injection Hstep as <-. exact Hb.
  - destruct (locked s); [discriminate|]. injection Hstep as <-.
    apply Hacq. reflexivity.
  - destruct (opening s) as [a|]; [|discriminate].
    destruct ok.
    + rewrite acquire_opened_eq in Hstep. injection Hstep as <-. simpl.
      apply (bounded_from cfg _ _ Hb). unfold tracked at 1. simpl. intros x Hx.
      rewrite !elem_of_app in Hx.
      assert (Hcase : x ∈ tracked (st_pool s) \/ x = length (objs (st_pool s))).
      { destruct Hx as [Hx|[Hx|Hx]].
        - left. apply elem_of_app. tauto.
        - left. apply elem_of_app. tauto.
        - right. apply list_elem_of_singleton in Hx. exact Hx. }
      destruct Hcase as [Hx' | ->].
      * left. split; [exact Hx'|]. specialize (Hold x Hx').
        unfold counter. simpl.
        rewrite list_lookup_insert_ne by lia.
        rewrite lookup_app_l by exact Hold. lia.
      * right. unfold counter. simpl.
        rewrite list_lookup_insert_eq by (rewrite length_app; simpl; lia).
        simpl. lia.
    + injection Hstep as <-. exact Hb.
  - destruct (locked s); [discriminate|].
    destruct (notify_tasks (st_pool s)); [discriminate|].
    destruct (waiting s); injection Hstep as <-; exact Hb.
  - destruct (locked s); [discriminate|].
    destruct (woken s !! i) as [a|]; [|discriminate]. injection Hstep as <-.
    apply Hacq. reflexivity.
  - destruct (deque_remove conn (held s)) as [h'|]; [|discriminate].
    assert (H : bounded cfg (pooled_release conn (st_pool s)).2).
    { destruct (pooled_release_cases conn (st_pool s)) as [E|E]; rewrite E.
      - exact Hb.
      - exact (release_bounded cfg _ _ _ _ Hb (release_cases conn (st_pool s))). }
    destruct (pooled_release conn (st_pool s)) as [r p]. injection Hstep as <-.
    exact H.
  - rewrite close_waiters_eq in Hstep.
    assert (H : bounded cfg (MkPool (objs (st_pool s)) [] []
                                    (notify_tasks (st_pool s))))
      by (intros x Hx; inversion Hx).
    destruct (tracked (st_pool s)); injection Hstep as <-; exact H.
  - destruct (closes s !! i) as [ws|]; [|discriminate].
    destruct (deque_remove conn ws) as [ws'|]; [|discriminate].
    destruct (pooled_close ok conn (st_pool s)) as [r p] eqn:E.
    assert (H : bounded cfg p).
    { apply (closing_bounded cfg _ _ Hb).
      destruct (pooled_close_cases _ _ _ _ _ E) as [->|(pc & pc' & H)];
        [left; reflexivity | right; exists pc, pc', conn; exact H]. }
    destruct r, ws'; injection Hstep as <-; exact H.
  - destruct (deque_remove conn (detached s)); [|discriminate].
    destruct (pooled_close ok conn (st_pool s)) as [r p] eqn:E.
    assert (H : bounded cfg p).
    { apply (closing_bounded cfg _ _ Hb).
      destruct (pooled_close_cases _ _ _ _ _ E) as [->|(pc & pc' & H)];
        [left; reflexivity | right; exists pc, pc', conn; exact H]. }
    injection Hstep as <-. exact H.
  - destruct (connection_closed conn (st_pool s)) as [r p] eqn:E.
    assert (H : bounded cfg p).
    { apply (closing_bounded cfg _ _ Hb).
      destruct (connection_closed_cases _ _ _ _ E) as [->|(pc & pc' & H)];
        [left; reflexivity | right; exists pc, pc', conn; exact H]. }
    destruct r; [|discriminate]. injection Hstep as <-. exact H.
Qed.

(** X7: when [max_times_acquired] is at least 1, no tracked connection is
    ever shared by more holders than that: in every state the pool can reach,
    the counter of a tracked connection lies between 0 and
    [max_times_acquired]. *)
Theorem counter_within_limit cfg tr s :
  1 <= _max_times_acquired cfg ->
  run cfg tr init_state = Some s ->
  forall c, c ∈ _available (st_pool s) ++ _acquired (st_pool s) ->
    0 <= counter (st_pool s) c <= _max_times_acquired cfg.
Proof.
  intros Hmax Hrun.
  assert (H : state_inv s /\ bounded cfg (st_pool s)).
  { refine (run_invariant cfg (fun _ => True)
              (fun s => state_inv s /\ bounded cfg (st_pool s)) _ tr init_state s
              (Forall_any tr) _ Hrun).
    - intros l s0 s1 _ [Hi Hb] Hstep. split.
      + exact (step_state_inv cfg l s0 s1 Hi Hstep).
      + exact (step_bounded cfg l s0 s1 Hmax Hi Hb Hstep).
    - split; [exact state_inv_init|]. intros x Hx. inversion Hx. }
  destruct H as [Hinv Hb]. intros c Hc. split; [|exact (Hb c Hc)].
  apply elem_of_app in Hc as [Hc|Hc].
  - rewrite (inv_available _ _ _ Hinv c Hc). lia.
  - pose proof (inv_acquired _ _ _ Hinv c Hc). lia.
Qed.

Lemma counter_within_limit_witness :
  exists s,
    run (example_config 1 0 2)
        [CallAcquire no_overrides; AcquireOpened true; CallAcquire no_overrides;
         CallAcquire no_overrides]
        init_state = Some s /\
    forall c, c ∈ _available (st_pool s) ++ _acquired (st_pool s) ->
      0 <= counter (st_pool s) c <= 2.
Proof.
  eexists. split; [vm_compute; reflexivity|].
  match goal with
  | |- forall c, c ∈ _available (st_pool ?s) ++ _ -> _ =>
      assert (H := counter_within_limit (example_config 1 0 2)
                     [CallAcquire no_overrides; AcquireOpened true;
                      CallAcquire no_overrides; CallAcquire no_overrides] s)
  end.
  assert (H1 : 1 <= 2) by lia.
  exact (H H1 ltac:(vm_compute; reflexivity)).
Defined.

(** ** init_pool that fails *)

Lemma init_run_some cfg k : forall j n,
  run cfg (replicate k (InitOpened 0 true)) (init_mid cfg j (k + n)) =
    Some (init_mid cfg (j + k) n).
Proof.
  induction k as [|k IH]; intros j n.
  - simpl. rewrite Nat.add_0_r. reflexivity.
  - rewrite replicate_S. cbn [run]. change (S k + n)%nat with (S (k + n)).
    rewrite init_step_mid, IH. f_equal. f_equal. lia.
Qed.

(** X8: when the open of connection number [k] fails, [init_pool] raises
    and stops there: the [k] connections opened before stay in [available],
    open and idle, nothing is in [acquired], and no further open is
    attempted. *)
Theorem init_pool_fails_midway cfg N k :
  _min_conns cfg = Z.of_nat N -> (k < N)%nat ->
  exists s,
    run cfg (CallInitPool :: replicate k (InitOpened 0 true) ++ [InitOpened 0 false])
        init_state = Some s /\
    _available (st_pool s) = seq 0 k /\
    _acquired (st_pool s) = [] /\
    (forall c, c ∈ _available (st_pool s) ->
       objs (st_pool s) !! c = Some (new_pooled (init_pool_args cfg))) /\
    inits s = [] /\
    log s = flat_map (fun c => [EvOpen (init_pool_args cfg); EvOpened c]) (seq 0 k)
              ++ [EvOpen (init_pool_args cfg); EvOpenFailed; EvInitReturned false].
Proof.
  intros Hmin Hk.
  exists (emit [EvOpenFailed; EvInitReturned false]
            (with_inits [] (init_mid cfg k (N - 1 - k)))).
  split.
  - cbn [run]. unfold step at 1. rewrite Hmin, Nat2Z.id.
    destruct N as [|n]; [lia|].
    change (emit _ (with_inits _ init_state)) with (init_mid cfg 0 n).
    rewrite run_app.
    replace n with (k + (S n - 1 - k))%nat at 1 by lia.
    rewrite init_run_some. reflexivity.
  - simpl. split; [reflexivity|]. split; [reflexivity|]. split.
    + intros c Hc. apply list_elem_of_In, in_seq in Hc.
      apply lookup_replicate_2. lia.
    + split; [reflexivity|]. unfold init_log. rewrite <- app_assoc. reflexivity.
Qed.

Lemma init_pool_fails_midway_witness :
  exists s,
    run (example_config 4 2 16) [CallInitPool; InitOpened 0 true; InitOpened 0 false]
        init_state = Some s /\
    _available (st_pool s) = [0%nat] /\ inits s = [].
Proof.
  destruct (init_pool_fails_midway (example_config 4 2 16) 2 1 eq_refl)
    as (s & Hrun & Hav & _ & _ & Hin & _).
  - lia.
  - exists s. split; [exact Hrun|]. split; [exact Hav | exact Hin].
Defined.

(** ** One connection shared up to its limit *)

Lemma new_pool_turn cfg args :
  0 < _max_conns cfg ->
  acquire_turn cfg args new_pool = (Ok (AwaitOpen args), new_pool).
Proof.
  intros Hmax. unfold acquire_turn, bind, get_available, get_acquired, ret. simpl.
  change (Z.of_nat 0) with 0.
  destruct (Z.ltb_spec 0 (_max_conns cfg)); [reflexivity | lia].
Qed.

Lemma shared_first cfg ov :
  _max_conns cfg = 1 ->
  exists s,
    run cfg [CallAcquire ov; AcquireOpened true] init_state = Some s /\
    shared_by (acquire_args cfg ov) 1 s.
Proof.
  intros Hmax.
  assert (E1 : step cfg (CallAcquire ov) init_state =
               Some (emit [EvOpen (acquire_args cfg ov)]
                       (with_lock true (Some (acquire_args cfg ov))
                          (with_pool new_pool init_state)))).
  { unfold step, acquire_step. cbn [locked st_pool init_state].
    rewrite new_pool_turn by lia. reflexivity. }
  eexists. split.
  - cbn [run]. rewrite E1. unfold step.
    cbn [opening emit with_lock with_pool st_pool].
    rewrite acquire_opened_eq. reflexivity.
  - repeat split.
Qed.

Lemma shared_turn cfg args args' k :
  _max_conns cfg = 1 ->
  acquire_turn cfg args'
    (MkPool [with_times (Z.of_nat k) (new_pooled args)] [] [0%nat] 0) =
  if Z.of_nat k <? _max_times_acquired cfg
  then (Ok (Return 0%nat),
        MkPool [with_times (Z.of_nat (S k)) (new_pooled args)] [] [0%nat] 0)
  else (Ok AwaitCondition,
        MkPool [with_times (Z.of_nat k) (new_pooled args)] [] [0%nat] 0).
Proof.
  intros Hmax.
  unfold acquire_turn, bind, get_available, get_acquired, ret. simpl.
  rewrite Hmax. simpl.
  unfold acquired_popleft, times_acquired, increment_acquired, acquired_append,
    bind, deref, store, get_acquired, set_acquired, ret. simpl.
  destruct (Z.of_nat k <? _max_times_acquired cfg); simpl; [|reflexivity].
  rewrite Nat2Z.inj_succ. reflexivity.
Qed.

Lemma shared_next cfg args ov k s :
  _max_conns cfg = 1 -> Z.of_nat k < _max_times_acquired cfg ->
  shared_by args k s ->
  exists s',
    step cfg (CallAcquire ov) s = Some s' /\ shared_by args (S k) s'.
Proof.
  intros Hmax Hk (Hp & Hl & Hh & Hw & Hwk).
  eexists. split.
  - unfold step. rewrite Hl. reflexivity.
  - unfold shared_by, acquire_step. rewrite Hp, (shared_turn cfg args _ k Hmax).
    destruct (Z.ltb_spec (Z.of_nat k) (_max_times_acquired cfg)); [|lia].
    simpl. rewrite Hh, Hw, Hwk.
    repeat split. exact (eq_sym (replicate_S_end k 0%nat)).
Qed.

Lemma shared_run cfg args ov k : forall j s,
  _max_conns cfg = 1 -> Z.of_nat (j + k) <= _max_times_acquired cfg ->
  shared_by args j s ->
  exists s',
    run cfg (replicate k (CallAcquire ov)) s = Some s' /\
    shared_by args (j + k) s'.
Proof.
  induction k as [|k IH]; intros j s Hmax Hle Hs.
  - exists s. rewrite Nat.add_0_r. split; [reflexivity | exact Hs].
  - destruct (shared_next cfg args ov j s Hmax ltac:(lia) Hs) as (s1 & E1 & Hs1).
    destruct (IH (S j) s1 Hmax ltac:(lia) Hs1) as (s' & E' & Hs').
    exists s'. rewrite replicate_S. cbn [run]. rewrite E1.
    split; [exact E'|]. replace (j + S k)%nat with (S j + k)%nat by lia. exact Hs'.
Qed.

Lemma deque_remove_replicate k :
  deque_remove 0%nat (replicate (S k) 0%nat) = Some (replicate k 0%nat).
Proof. reflexivity. Qed.

Lemma shared_release args n :
  pooled_release 0%nat
    (MkPool [with_times (Z.of_nat (S n)) (new_pooled args)] [] [0%nat] 0) =
  (Ok tt,
   match n with
   | O => MkPool [with_times 0 (new_pooled args)] [0%nat] [] 1
   | S m => MkPool [with_times (Z.of_nat (S m)) (new_pooled args)] [] [0%nat] 1
   end).
Proof.
  unfold pooled_release, release, pooled_closed, decrement_acquired,
    times_acquired, acquired_remove, available_append, create_task_notify,
    bind, deref, store, get_acquired, get_available, set_acquired,
    set_available, ret.
  destruct n as [|m]; [reflexivity|].
  cbn [objs lookup list_lookup _pool _conn new_pooled with_times wrapped closed
       _times_acquired insert list_insert _acquired _available notify_tasks].
  replace (Z.of_nat (S (S m)) - 1) with (Z.of_nat (S m)) by lia.
  destruct (Z.eqb_spec (Z.of_nat (S m)) 0) as [Hz|_]; [lia|]. reflexivity.
Qed.

Lemma idle_turn cfg args args' :
  acquire_turn cfg args' (MkPool [with_times 0 (new_pooled args)] [0%nat] [] 0) =
    (Ok (Return 0%nat), MkPool [with_times 1 (new_pooled args)] [] [0%nat] 0).
Proof. reflexivity. Qed.

(** X9: with [max_conns = 1] and [max_times_acquired = n], the first
    [acquire] opens a connection and the next [n - 1] calls are handed the
    same one, its counter ending at [n]; one more call finds no room and waits
    on the condition without touching the pool; after one holder's [release],
    the [_notify] task it created wakes that caller, which then gets the
    connection, the counter being [n] again. *)
Theorem sharing_up_to_limit cfg ov n :
  _max_conns cfg = 1 -> _max_times_acquired cfg = Z.of_nat (S n) ->
  exists s s1 s2,
    run cfg (CallAcquire ov :: AcquireOpened true :: replicate n (CallAcquire ov))
        init_state = Some s /\
    shared_by (acquire_args cfg ov) (S n) s /\
    step cfg (CallAcquire ov) s = Some s1 /\
    st_pool s1 = st_pool s /\ held s1 = held s /\
    waiting s1 = [acquire_args cfg ov] /\
    run cfg [CallRelease 0%nat; RunNotify; Resume 0] s1 = Some s2 /\
    shared_by (acquire_args cfg ov) (S n) s2.
Proof.
  intros Hmax Hlim. set (args := acquire_args cfg ov).
  destruct (shared_first cfg ov Hmax) as (s0 & E0 & Hs0).
  destruct (shared_run cfg args ov n 1 s0 Hmax ltac:(lia) Hs0) as (s & E & Hs).
  change (1 + n)%nat with (S n) in Hs.
  assert (Erun : run cfg (CallAcquire ov :: AcquireOpened true
                            :: replicate n (CallAcquire ov)) init_state = Some s).
  { change (CallAcquire ov :: AcquireOpened true :: replicate n (CallAcquire ov))
      with ([CallAcquire ov; AcquireOpened true] ++ replicate n (CallAcquire ov)).
    rewrite run_app, E0. exact E. }
  clear E0 E Hs0 s0.
  assert (Hturn := shared_turn cfg args args (S n) Hmax).
  destruct (Z.ltb_spec (Z.of_nat (S n)) (_max_times_acquired cfg)) as [|_]; [lia|].
  exists s. pose proof Hs as Hs'.
  destruct s as [p lk op w wk ini cl det h lg].
  destruct Hs' as (Hp & Hl & Hh & Hw & Hwk). cbn in Hp, Hl, Hh, Hw, Hwk. subst.
  assert (E1 : step cfg (CallAcquire ov)
                 (MkState (MkPool [with_times (Z.of_nat (S n)) (new_pooled args)]
                                  [] [0%nat] 0)
                          false op [] [] ini cl det (replicate (S n) 0%nat) lg) =
               Some (MkState (MkPool [with_times (Z.of_nat (S n)) (new_pooled args)]
                                     [] [0%nat] 0)
                             false None [args] [] ini cl det
                             (replicate (S n) 0%nat) lg)).
  { unfold step, acquire_step. cbn [locked st_pool]. fold args. rewrite Hturn.
    reflexivity. }
  destruct n as [|m].
  - eexists. eexists.
    split; [exact Erun|]. split; [exact Hs|]. split; [exact E1|].
    split; [reflexivity|]. split; [reflexivity|]. split; [reflexivity|].
    split.
    + cbn [run]. unfold step at 1. cbn [held st_pool].
      rewrite deque_remove_replicate, shared_release.
      unfold step at 1.
      cbn [locked emit with_held with_pool st_pool notify_tasks waiting with_waiting
           with_woken woken objs _available _acquired app].
      unfold step.
      cbn [locked emit with_held with_pool st_pool notify_tasks waiting with_waiting
           with_woken woken objs _available _acquired app lookup list_lookup].
      unfold acquire_step.
      cbn [locked emit with_held with_pool st_pool notify_tasks waiting with_waiting
           with_woken woken objs _available _acquired app lookup list_lookup].
      rewrite idle_turn. reflexivity.
    + unfold shared_by; cbn. repeat split.
  - eexists. eexists.
    split; [exact Erun|]. split; [exact Hs|]. split; [exact E1|].
    split; [reflexivity|]. split; [reflexivity|]. split; [reflexivity|].
    split.
    + cbn [run]. unfold step at 1. cbn [held st_pool].
      rewrite deque_remove_replicate, shared_release.
      unfold step at 1.
      cbn [locked emit with_held with_pool st_pool notify_tasks waiting with_waiting
           with_woken woken objs _available _acquired app].
      unfold step.
      cbn [locked emit with_held with_pool st_pool notify_tasks waiting with_waiting
           with_woken woken objs _available _acquired app lookup list_lookup].
      unfold acquire_step.
      cbn [locked emit with_held with_pool st_pool notify_tasks waiting with_waiting
           with_woken woken objs _available _acquired app lookup list_lookup].
      rewrite (shared_turn cfg args args (S m) Hmax).
      destruct (Z.ltb_spec (Z.of_nat (S m)) (_max_times_acquired cfg)); [|lia].
      reflexivity.
    + unfold shared_by; cbn.
      split; [reflexivity|]. split; [reflexivity|]. split; [|split; reflexivity].
      f_equal. exact (eq_sym (replicate_S_end m 0%nat)).
Qed.

Lemma sharing_up_to_limit_witness :
  exists s,
    run (example_config 1 0 3)
        [CallAcquire no_overrides; AcquireOpened true; CallAcquire no_overrides;
         CallAcquire no_overrides]
        init_state = Some s /\
    shared_by (acquire_args (example_config 1 0 3) no_overrides) 3 s.
Proof.
  destruct (sharing_up_to_limit (example_config 1 0 3) no_overrides 2 eq_refl eq_refl)
    as (s & _ & _ & E & Hs & _).
  exists s. split; [exact E | exact Hs].
Defined.

(** ** Round robin *)

Lemma saturated_turn_head cfg args p a rest pc :
  _available p = [] ->
  _max_conns cfg <= Z.of_nat (length (_acquired p)) ->
  _acquired p = a :: rest ->
  objs p !! a = Some pc -> _times_acquired pc < _max_times_acquired cfg ->
  acquire_turn cfg args p =
    (Ok (Return a),
     MkPool (<[a := with_times (_times_acquired pc + 1) pc]> (objs p))
            [] (rest ++ [a]) (notify_tasks p)).
Proof.
  intros Hav Hcap Haq Hpc Hlt.
  unfold acquire_turn, bind, get_available, get_acquired, ret.
  rewrite Hav. simpl.
  destruct (Z.ltb_spec (Z.of_nat (length (_acquired p))) (_max_conns cfg)); [lia|].
  rewrite (multiplex_first cfg [] _ _ a rest pc); simpl.
  - rewrite Hav. reflexivity.
  - exact Haq.
  - rewrite Haq. simpl. lia.
  - intros x Hx. inversion Hx.
  - exact Hpc.
  - exact Hlt.
Qed.

(** X10: successive calls of [acquire] on a pool at capacity with nothing
    idle go round the connections in [acquired]: as long as the next entry is
    below [max_times_acquired], [k] calls are handed the [k] oldest entries,
    one each and in order, every one of them is incremented once and moved to
    the back, and no other object changes. *)
Theorem multiplex_round_robin cfg ov k : forall s,
  locked s = false ->
  _available (st_pool s) = [] ->
  _max_conns cfg <= Z.of_nat (length (_acquired (st_pool s))) ->
  NoDup (_acquired (st_pool s)) ->
  (k <= length (_acquired (st_pool s)))%nat ->
  (forall x, x ∈ take k (_acquired (st_pool s)) ->
     exists pc, objs (st_pool s) !! x = Some pc /\
                _times_acquired pc < _max_times_acquired cfg) ->
  exists s',
    run cfg (replicate k (CallAcquire ov)) s = Some s' /\
    held s' = held s ++ take k (_acquired (st_pool s)) /\
    _acquired (st_pool s') =
      drop k (_acquired (st_pool s)) ++ take k (_acquired (st_pool s)) /\
    _available (st_pool s') = [] /\
    (forall x, x ∈ take k (_acquired (st_pool s)) ->
       counter (st_pool s') x = counter (st_pool s) x + 1) /\
    (forall x, x ∉ take k (_acquired (st_pool s)) ->
       objs (st_pool s') !! x = objs (st_pool s) !! x) /\
    waiting s' = waiting s /\ locked s' = false.
Proof.
  induction k as [|k IH]; intros s Hl Hav Hcap Hnd Hk Hall.
  - exists s. simpl. rewrite take_0, drop_0, !app_nil_r.
    repeat split; try assumption; try reflexivity.
    intros x Hx. inversion Hx.
  - destruct (_acquired (st_pool s)) as [|a rest] eqn:Haq; [simpl in Hk; lia|].
    simpl in Hk. apply NoDup_cons in Hnd as [Hnotin Hndr].
    destruct (Hall a) as (pc & Hpc & Hlt); [simpl; left|].
    assert (Hcap' : _max_conns cfg <= Z.of_nat (length (_acquired (st_pool s))))
      by (rewrite Haq; exact Hcap).
    pose proof (saturated_turn_head cfg (acquire_args cfg ov) (st_pool s) a rest pc
                  Hav Hcap' Haq Hpc Hlt) as Hturn.
    set (p1 := MkPool (<[a := with_times (_times_acquired pc + 1) pc]>
                         (objs (st_pool s)))
                      [] (rest ++ [a]) (notify_tasks (st_pool s))) in *.
    set (s1 := emit [EvAcquired a]
                 (with_held (held s ++ [a]) (with_lock false None (with_pool p1 s)))).
    assert (E1 : step cfg (CallAcquire ov) s = Some s1).
    { unfold step. rewrite Hl. unfold acquire_step. rewrite Hturn. reflexivity. }
    assert (Htake : take k (rest ++ [a]) = take k rest)
      by (apply take_app_le; lia).
    assert (Hne : forall x, x ∈ take k rest -> a <> x).
    { intros x Hx ->. apply Hnotin. exact (subseteq_take k rest x Hx). }
    assert (Hlt_a : (a < length (objs (st_pool s)))%nat)
      by (eapply lookup_lt_Some; exact Hpc).
    destruct (IH s1) as (s' & E' & Hh' & Haq' & Hav' & Hcnt' & Hsame' & Hw' & Hl').
    + reflexivity.
    + reflexivity.
    + simpl. rewrite length_app. simpl in *. rewrite Nat.add_1_r. exact Hcap.
    + simpl. apply NoDup_app. split; [exact Hndr|]. split.
      * intros x Hx Hx'. apply list_elem_of_singleton in Hx'. subst x. contradiction.
      * apply NoDup_singleton.
    + simpl. rewrite length_app. simpl. lia.
    + simpl. rewrite Htake. intros x Hx.
      destruct (Hall x) as (px & Hpx & Hltx); [simpl; right; exact Hx|].
      exists px. split; [|exact Hltx].
      rewrite list_lookup_insert_ne by (apply Hne; exact Hx). exact Hpx.
    + simpl in Hh', Haq', Hcnt', Hsame', Hw'. rewrite Htake in *.
      exists s'. rewrite replicate_S. cbn [run]. rewrite E1.
      split; [exact E'|].
      split; [rewrite Hh', <- app_assoc; reflexivity|].
      split.
      { rewrite Haq'. rewrite drop_app_le by lia. simpl.
        rewrite <- app_assoc. reflexivity. }
      split; [exact Hav'|].
      split; [|split; [|split; [exact Hw' | exact Hl']]].
      * simpl. intros x Hx. apply elem_of_cons in Hx as [->|Hx].
        -- assert (Ha : a ∉ take k rest).
           { intros Hin. apply Hnotin. exact (subseteq_take k rest a Hin). }
           unfold counter. rewrite (Hsame' a Ha).
           rewrite list_lookup_insert_eq by exact Hlt_a. rewrite Hpc. reflexivity.
        -- rewrite (Hcnt' x Hx). unfold counter at 1. simpl.
           rewrite list_lookup_insert_ne by (apply Hne; exact Hx). reflexivity.
      * simpl. intros x Hx. rewrite not_elem_of_cons in Hx. destruct Hx as [Hxa Hx].
        rewrite (Hsame' x Hx). apply list_lookup_insert_ne. congruence.
Qed.

Lemma multiplex_round_robin_witness :
  exists s',
    run (example_config 3 0 3) [CallAcquire no_overrides; CallAcquire no_overrides]
        (with_pool (MkPool [example_pooled 2; example_pooled 1; example_pooled 1]
                           [] [0; 1; 2]%nat 0) init_state) = Some s' /\
    held s' = [0; 1]%nat /\ _acquired (st_pool s') = [2; 0; 1]%nat.
Proof.
  destruct (multiplex_round_robin (example_config 3 0 3) no_overrides 2
              (with_pool (MkPool [example_pooled 2; example_pooled 1; example_pooled 1]
                                 [] [0; 1; 2]%nat 0) init_state))
    as (s' & E & Hh & Haq & _).
  - reflexivity.
  - reflexivity.
  - simpl. lia.
  - simpl. apply NoDup_ListNoDup. repeat constructor; simpl; lia.
  - simpl. lia.
  - intros x Hx. apply list_elem_of_In in Hx. simpl in Hx.
    destruct Hx as [<-|[<-|[]]]; eexists; (split; [reflexivity | simpl; lia]).
  - exists s'. split; [exact E|]. split; [exact Hh | exact Haq].
Defined.

(** ** A release too many, and acquire after close *)

Lemma release_open_away c pc p :
  objs p !! c = Some pc -> _conn pc = true -> closed (wrapped pc) = false ->
  _times_acquired pc <> 1 ->
  release c p =
    (Ok tt, MkPool (<[c := with_times (_times_acquired pc - 1) pc]> (objs p))
                   (_available p) (_acquired p) (S (notify_tasks p))).
Proof.
  intros Hpc Hconn Hcl Hne.
  pose proof (lookup_lt_Some _ _ _ Hpc) as Hlt.
  unfold release, pooled_closed, decrement_acquired, times_acquired,
    acquired_remove, available_append, create_task_notify, bind, deref, store,
    get_acquired, get_available, set_acquired, set_available, ret. simpl.
  rewrite Hpc, Hconn, Hcl. simpl. rewrite Hpc. simpl.
  rewrite list_lookup_insert_eq by exact Hlt. simpl.
  destruct (Z.eqb_spec (_times_acquired pc - 1) 0) as [E|E]; [lia|].
  reflexivity.
Qed.

Lemma turn_head_open cfg args c pc post p :
  _available p = c :: post ->
  objs p !! c = Some pc -> _conn pc = true -> closed (wrapped pc) = false ->
  acquire_turn cfg args p =
    (Ok (Return c),
     MkPool (<[c := with_times (_times_acquired pc + 1) pc]> (objs p))
            post (_acquired p ++ [c]) (notify_tasks p)).
Proof.
  intros Hav Hpc Hconn Hcl. destruct p as [o av aq k]. simpl in *. subst av.
  unfold acquire_turn, bind, get_available. simpl.
  unfold_M; simpl. rewrite Hpc. simpl. rewrite Hconn, Hcl. simpl.
  unfold_M; simpl. rewrite Hpc. reflexivity.
Qed.

(** X17: a release too many goes unnoticed and costs the connection its
    way back: releasing an idle connection (open, first in [available],
    counter 0) does not raise and moves nothing, the counter becoming -1;
    the next [acquire] hands the connection out with counter 0; and when
    that holder releases it, the counter is -1 again, so that the connection
    stays in [acquired] and does not return to [available]. *)
Theorem release_too_many cfg args c pc post p :
  _available p = c :: post ->
  objs p !! c = Some pc -> _conn pc = true -> closed (wrapped pc) = false ->
  _times_acquired pc = 0 ->
  exists p1 p2 p3,
    release c p = (Ok tt, p1) /\
    counter p1 c = -1 /\
    _available p1 = c :: post /\ _acquired p1 = _acquired p /\
    acquire_turn cfg args p1 = (Ok (Return c), p2) /\
    counter p2 c = 0 /\
    _available p2 = post /\ _acquired p2 = _acquired p ++ [c] /\
    release c p2 = (Ok tt, p3) /\
    counter p3 c = -1 /\
    _available p3 = post /\ _acquired p3 = _acquired p ++ [c] /\
    notify_tasks p3 = S (S (notify_tasks p)).
Proof.
  intros Hav Hpc Hconn Hcl Ht.
  pose proof (lookup_lt_Some _ _ _ Hpc) as Hlt.
  eexists _, _, _.
  split; [apply (release_open_away c pc p Hpc Hconn Hcl); lia|].
  set (pc1 := with_times (_times_acquired pc - 1) pc).
  set (p1 := MkPool (<[c:=pc1]> (objs p)) (_available p) (_acquired p)
                    (S (notify_tasks p))).
  assert (Hpc1 : objs p1 !! c = Some pc1)
    by (apply list_lookup_insert_eq; exact Hlt).
  split; [change (counter p1 c = -1); unfold counter; rewrite Hpc1; simpl; lia|].
  split; [exact Hav|]. split; [reflexivity|].
  split; [apply (turn_head_open cfg args c pc1 post p1 Hav Hpc1 Hconn Hcl)|].
  set (pc2 := with_times (_times_acquired pc1 + 1) pc1).
  set (p2 := MkPool (<[c:=pc2]> (objs p1)) post (_acquired p1 ++ [c])
                    (notify_tasks p1)).
  assert (Hlt1 : (c < length (objs p1))%nat)
    by (simpl; rewrite length_insert; exact Hlt).
  assert (Hpc2 : objs p2 !! c = Some pc2)
    by (apply list_lookup_insert_eq; exact Hlt1).
  split; [change (counter p2 c = 0); unfold counter; rewrite Hpc2; simpl; lia|].
  split; [reflexivity|]. split; [reflexivity|].
  split; [apply (release_open_away c pc2 p2 Hpc2 Hconn Hcl); simpl; lia|].
  split.
  { unfold counter. simpl. rewrite list_lookup_insert_eq.
    - simpl. lia.
    - rewrite !length_insert. exact Hlt. }
  repeat split; reflexivity.
Qed.

Lemma release_too_many_witness :
  exists p3,
    release 0%nat (MkPool [example_pooled 0] [0%nat] [] 0) = (Ok tt,
      MkPool [example_pooled (-1)] [0%nat] [] 1) /\
    release 0%nat (MkPool [example_pooled 0] [] [0%nat] 1) = (Ok tt, p3) /\
    _available p3 = [] /\ _acquired p3 = [0%nat] /\ counter p3 0%nat = -1.
Proof.
  destruct (release_too_many (example_config 1 0 2)
              (init_pool_args (example_config 1 0 2)) 0%nat (example_pooled 0) []
              (MkPool [example_pooled 0] [0%nat] [] 0)
              eq_refl eq_refl eq_refl eq_refl eq_refl)
    as (p1 & p2 & p3 & H1 & _ & _ & _ & H2 & _ & _ & _ & H3 & Hc & Hav & Haq & _).
  vm_compute in H1. injection H1 as <-.
  vm_compute in H2. injection H2 as <-.
  exists p3. split; [reflexivity|].
  split; [exact H3|]. split; [exact Hav|]. split; [exact Haq|exact Hc].
Defined.

(** X18: [close] does not disable the pool.  It hands out every tracked
    connection for closing and leaves both deques empty; an [acquire] after
    it (with [max_conns] at least 1) goes straight to the create branch and
    comes back with a new object, which is none of those handed out for
    closing and the only connection tracked then.  With [max_conns] below 1
    the same [acquire] waits on the condition instead. *)
Theorem acquire_after_close cfg args p :
  (forall x, x ∈ tracked p -> is_Some (objs p !! x)) ->
  exists ws p1,
    close_waiters p = (Ok ws, p1) /\
    ws = _available p ++ _acquired p /\
    objs p1 = objs p /\
    (0 < _max_conns cfg ->
     exists c p2,
       acquire_turn cfg args p1 = (Ok (AwaitOpen args), p1) /\
       acquire_opened args p1 = (Ok c, p2) /\
       (c ∉ ws) /\
       objs p2 !! c = Some (with_times 1 (new_pooled args)) /\
       tracked p2 = [c] /\ _acquired p2 = [c]) /\
    (_max_conns cfg <= 0 ->
     acquire_turn cfg args p1 = (Ok AwaitCondition, p1)).
Proof.
  intros Hrefs. eexists _, _.
  split; [apply close_waiters_eq|].
  split; [reflexivity|]. split; [reflexivity|].
  split.
  - intros Hmax. eexists _, _.
    split.
    { unfold acquire_turn, bind, get_available, get_acquired, ret. simpl.
      change (Z.of_nat 0) with 0.
      destruct (Z.ltb_spec 0 (_max_conns cfg)); [reflexivity | lia]. }
    split; [apply acquire_opened_eq|]. simpl.
    split.
    { intros Hin. destruct (Hrefs _ Hin) as [pc Hpc].
      apply lookup_lt_Some in Hpc. lia. }
    split.
    { rewrite list_lookup_insert_eq
        by (rewrite length_app; simpl; lia).
      reflexivity. }
    split; reflexivity.
  - intros Hmax.
    unfold acquire_turn, bind, get_available, get_acquired, ret. simpl.
    change (Z.of_nat 0) with 0.
    destruct (Z.ltb_spec 0 (_max_conns cfg)); [lia | reflexivity].
Qed.

Lemma acquire_after_close_witness :
  exists p1 p2,
    close_waiters (st_pool example_saturated) = (Ok [0; 1; 2]%nat, p1) /\
    acquire_opened (init_pool_args (example_config 3 0 2)) p1 = (Ok 3%nat, p2) /\
    tracked p2 = [3%nat].
Proof.
  destruct (acquire_after_close (example_config 3 0 2)
              (init_pool_args (example_config 3 0 2)) (st_pool example_saturated))
    as (ws & p1 & Hclose & -> & _ & Hacq & _).
  { intros x Hx. apply list_elem_of_In in Hx. simpl in Hx.
    destruct Hx as [<-|[<-|[<-|[]]]]; eexists; reflexivity. }
  destruct Hacq as (c & p2 & _ & Hopen & _ & _ & Htr & _); [reflexivity|].
  exists p1, p2. split; [exact Hclose|].
  rewrite acquire_opened_eq in Hopen.
  assert (Ho : objs p1 = objs (st_pool example_saturated)).
  { rewrite close_waiters_eq in Hclose. injection Hclose as <-. reflexivity. }
  rewrite Ho in Hopen. simpl in Hopen.
  injection Hopen as <- Hp2.
  split; [rewrite acquire_opened_eq, Ho; simpl; f_equal; exact Hp2 | exact Htr].
Defined.

(** ** goblin.traversal: _add_properties *)

Lemma add_properties_loop_calls {T} (property : T -> _ -> _ -> T) props :
  forall t b,
    fst (add_properties_loop property t props b) =
      fold_left (fun t c => property t (fst c) (snd c))
                (property_calls b (kept props)) t.
Proof.
  induction props as [|[k v] props IH]; intros t b; simpl; [reflexivity|].
  unfold kept. simpl. destruct (truthy v); simpl; apply IH.
Qed.

(** X11: [_add_properties] writes the properties whose value is truthy
    and silently leaves out the others ([None], [0], the empty string, an
    empty dict); the ones written are bound, in their order, to the names
    [k0]/[v0], [k1]/[v1], ... counted over the written ones only, starting
    from the current [_binding]; and [_binding] is 0 when it returns. *)
Theorem add_properties_calls {T} (property : T -> _ -> _ -> T) t props b :
  _add_properties property t props b =
    (fold_left (fun t c => property t (fst c) (snd c))
               (property_calls b (kept props)) t, 0)
  /\ _add_properties property t props b = _add_properties property t (kept props) b
  /\ length (property_calls b (kept props)) = length (kept props)
  /\ (forall i k v,
        kept props !! i = Some (k, v) ->
        property_calls b (kept props) !! i =
          Some ((String.append "k" (py_str (b + Z.of_nat i)), k),
                (String.append "v" (py_str (b + Z.of_nat i)), v))).
Proof.
  assert (Hkk : kept (kept props) = kept props).
  { unfold kept. induction props as [|[k v] props IH]; simpl; [reflexivity|].
    destruct (truthy v) eqn:Hv; simpl; [rewrite Hv, IH; reflexivity | exact IH]. }
  split; [|split; [|split]].
  - unfold _add_properties. rewrite add_properties_loop_calls. reflexivity.
  - unfold _add_properties. rewrite !add_properties_loop_calls, Hkk. reflexivity.
  - generalize (kept props) b. intros l. induction l as [|[k v] l IH]; intros b0;
      simpl; [reflexivity | rewrite IH; reflexivity].
  - generalize (kept props) b. intros l.
    induction l as [|[k0 v0] l IH]; intros b0 i k v Hi; [inversion Hi|].
    destruct i as [|i].
    + simpl in *. injection Hi as -> ->. rewrite Z.add_0_r. reflexivity.
    + rewrite Nat2Z.inj_succ.
      replace (b0 + Z.succ (Z.of_nat i)) with (b0 + 1 + Z.of_nat i) by lia.
      exact (IH (b0 + 1) i k v Hi).
Qed.

Lemma add_properties_calls_witness :
  _add_properties (fun t a b => t ++ [(a, b)]) []
    [("name"%string, PyStr "ada"); ("nick"%string, PyStr EmptyString);
     ("age"%string, PyInt 0); ("city"%string, PyStr "paris")] 0 =
  ([(("k0"%string, "name"%string), ("v0"%string, PyStr "ada"));
    (("k1"%string, "city"%string), ("v1"%string, PyStr "paris"))], 0).
Proof.
  rewrite (proj1 (add_properties_calls (fun t a b => t ++ [(a, b)]) []
                    [("name"%string, PyStr "ada"); ("nick"%string, PyStr EmptyString);
                     ("age"%string, PyInt 0); ("city"%string, PyStr "paris")] 0)).
  vm_compute. reflexivity.
Defined.

Lemma py_str_inj a b : py_str a = py_str b -> a = b.
Proof.
  unfold py_str. intros H. apply DecimalZ.to_int_inj.
  pose proof (NilEmpty.isi (Z.to_int a)) as Ha.
  pose proof (NilEmpty.isi (Z.to_int b)) as Hb.
  rewrite H in Ha. congruence.
Qed.

Lemma binding_names_from b props s :
  s ∈ binding_names (property_calls b props) ->
  exists j, b <= j /\
    (s = String.append "k" (py_str j) \/ s = String.append "v" (py_str j)).
Proof.
  revert b. induction props as [|[k v] props IH]; intros b Hs; simpl in Hs.
  - inversion Hs.
  - unfold binding_names in Hs. simpl in Hs.
    apply elem_of_cons in Hs as [->|Hs]; [exists b; split; [lia | left; reflexivity]|].
    apply elem_of_cons in Hs as [->|Hs]; [exists b; split; [lia | right; reflexivity]|].
    destruct (IH (b + 1) Hs) as (j & Hj & H). exists j. split; [lia | exact H].
Qed.

Lemma property_calls_distinct b l :
  NoDup (binding_names (property_calls b l)).
Proof.
  revert b. induction l as [|[k v] l IH]; intros b.
  - apply NoDup_nil. exact I.
  - unfold binding_names. simpl. apply NoDup_cons. split.
    + intros Hin. apply elem_of_cons in Hin as [Heq|Hin]; [discriminate Heq|].
      destruct (binding_names_from (b + 1) l _ Hin) as (j & Hj & [H|H]).
      * injection H as H. apply py_str_inj in H. lia.
      * discriminate H.
    + apply NoDup_cons. split; [|apply IH].
      intros Hin.
      destruct (binding_names_from (b + 1) l _ Hin) as (j & Hj & [H|H]).
      * discriminate H.
      * injection H as H. apply py_str_inj in H. lia.
Qed.

(** X12: the names that one call of [_add_properties] binds are pairwise
    distinct: among the calls of [property] it makes, no [k] name equals
    another [k] name or any [v] name, whatever [_binding] was at the start. *)
Theorem binding_names_distinct props b :
  NoDup (binding_names
           (fst (_add_properties (fun t a c => t ++ [(a, c)]) [] props b))).
Proof.
  unfold _add_properties. cbn [fst].
  rewrite (add_properties_loop_calls (fun t a c => t ++ [(a, c)]) props [] b).
  assert (E : forall l t,
            fold_left (fun (t : list ((string * string) * (string * pyval))) c =>
                         t ++ [(fst c, snd c)]) l t = t ++ l).
  { intros l. induction l as [|[x y] l IH]; intros t; simpl.
    - symmetry. apply app_nil_r.
    - rewrite IH, <- app_assoc. reflexivity. }
  rewrite E. simpl. apply property_calls_distinct.
Qed.

(** ** TraversalResponse and _receive *)

Lemma anexts_done {E} (truth : E -> bool) n q :
  anexts truth n (MkResponse q true) = (replicate n ReturnedNone, MkResponse q true).
Proof. induction n as [|n IH]; simpl; [reflexivity | rewrite IH; reflexivity]. Qed.

Lemma anexts_yield {E} (truth : E -> bool) es : forall n q,
  (forall e, e ∈ es -> truth e = true) ->
  anexts truth (length es + n) (MkResponse (map Some es ++ q) false) =
    (map Yielded es ++ (anexts truth n (MkResponse q false)).1,
     (anexts truth n (MkResponse q false)).2).
Proof.
  induction es as [|e es IH]; intros n q Hall; simpl.
  - destruct (anexts truth n (MkResponse q false)). reflexivity.
  - unfold __anext__ at 1. simpl. rewrite (Hall e) by left.
    rewrite IH by (intros x Hx; apply Hall; right; exact Hx).
    reflexivity.
Qed.

Lemma anexts_stop {E} (truth : E -> bool) stop rest m :
  item_truth truth stop = false ->
  anexts truth (S m) (MkResponse (stop :: rest) false) =
    (StopAsyncIteration :: replicate m ReturnedNone, MkResponse rest true).
Proof.
  intros Hstop. cbn [anexts]. unfold __anext__. cbn [_done _queue].
  destruct stop as [e|]; simpl in Hstop; [rewrite Hstop|];
    rewrite anexts_done; reflexivity.
Qed.

(** X13: a [TraversalResponse] yields the items of its queue in order up
    to the first falsy one ([None] or an element that is falsy), at which
    [__anext__] raises [StopAsyncIteration]; from then on every call returns
    [None] without raising and without reading the queue, whatever is left
    in it. *)
Theorem response_until_falsy {E} (truth : E -> bool) es stop rest m :
  (forall e, e ∈ es -> truth e = true) ->
  item_truth truth stop = false ->
  anexts truth (length es + S m) (MkResponse (map Some es ++ stop :: rest) false) =
    (map Yielded es ++ StopAsyncIteration :: replicate m ReturnedNone,
     MkResponse rest true).
Proof.
  intros Hall Hstop. rewrite anexts_yield by exact Hall.
  rewrite (anexts_stop truth stop rest m Hstop). reflexivity.
Qed.

Lemma response_until_falsy_witness :
  anexts (fun n : nat => negb (Nat.eqb n 0)) 5
         (MkResponse [Some 3; Some 4; None; Some 5]%nat false) =
    ([Yielded 3; Yielded 4; StopAsyncIteration; ReturnedNone; ReturnedNone]%nat,
     MkResponse [Some 5%nat] true).
Proof.
  refine (response_until_falsy (fun n : nat => negb (Nat.eqb n 0))
            [3; 4]%nat None [Some 5%nat] 2 _ eq_refl).
  intros e He. apply list_elem_of_In in He. simpl in He.
  destruct He as [<-|[<-|[]]]; reflexivity.
Defined.

Lemma receive_results_ok {ID R E} (m : Mapping ID R E) self results : forall es q,
  Forall2 (fun r e => receive_result m self r = inr e) results es ->
  receive_results m self results q = (None, q ++ map Some es).
Proof.
  induction results as [|r results IH]; intros es q H; inversion H; subst; simpl.
  - rewrite app_nil_r. reflexivity.
  - match goal with Hr : receive_result _ _ r = _ |- _ => rewrite Hr end.
    rewrite IH with (es := l') by assumption.
    rewrite <- app_assoc. reflexivity.
Qed.

Lemma receive_results_fail {ID R E} (m : Mapping ID R E) self pre bad post x es q :
  Forall2 (fun r e => receive_result m self r = inr e) pre es ->
  receive_result m self bad = inl x ->
  receive_results m self (pre ++ bad :: post) q = (Some x, q ++ map Some es).
Proof.
  intros H Hbad. revert q. induction H as [|r e pre es Hr H IH]; intros q; simpl.
  - rewrite Hbad, app_nil_r. reflexivity.
  - rewrite Hr, IH, <- app_assoc. reflexivity.
Qed.

Lemma receive_msgs_ok {ID R E} (m : Mapping ID R E) self msgs : forall es q,
  Forall2 (fun r e => receive_result m self r = inr e) (concat msgs) es ->
  receive_msgs m self msgs q = (None, q ++ map Some es).
Proof.
  induction msgs as [|results msgs IH]; intros es q H; simpl in *.
  - inversion H; subst. rewrite app_nil_r. reflexivity.
  - apply Forall2_app_inv_l in H as (es1 & es2 & H1 & H2 & ->).
    destruct results as [|r results].
    + inversion H1; subst. apply IH. exact H2.
    + rewrite (receive_results_ok m self (r :: results) es1 q H1).
      rewrite (IH es2 _ H2), map_app, app_assoc. reflexivity.
Qed.

(** X14: when every result of every message resolves to an element,
    [_receive] puts exactly one element per result on the queue, in the order
    of the messages and of the results within them, behind whatever the queue
    held, and then the end marker [None]; messages with falsy [data] add
    nothing. *)
Theorem receive_puts_all {ID R E} (m : Mapping ID R E) self msgs es q :
  Forall2 (fun r e => receive_result m self r = inr e) (concat msgs) es ->
  _receive m self msgs q = (None, q ++ map Some es ++ [None]) /\
  length es = length (concat msgs).
Proof.
  intros H. split.
  - unfold _receive. rewrite (receive_msgs_ok m self msgs es q H).
    rewrite <- app_assoc. reflexivity.
  - symmetry. exact (Forall2_length _ _ _ H).
Qed.

(** X15: when a result does not resolve (it has no ['id'], or its id is
    unknown to the session while the traversal has neither an element nor an
    element class), [_receive] ends with the exception at that result: the
    elements of the results before it are on the queue, nothing of the
    later results or messages is, and the end marker [None] is never put.
    When the elements put are all truthy, a reader of that queue is handed
    them in order and then stays suspended in [self._queue.get()] at every
    further call; no [StopAsyncIteration] ends its iteration. *)
Theorem receive_stops_at_failure {ID R E} (m : Mapping ID R E) self
    msgs1 pre bad post msgs2 x es k :
  Forall2 (fun r e => receive_result m self r = inr e) (concat msgs1 ++ pre) es ->
  receive_result m self bad = inl x ->
  _receive m self (msgs1 ++ (pre ++ bad :: post) :: msgs2) [] = (Some x, map Some es) /\
  ((forall e, e ∈ es -> truth m e = true) ->
   anexts (truth m) (length es + k) (MkResponse (map Some es) false) =
     (map Yielded es ++ replicate k AwaitGet, MkResponse [] false)) /\
  (forall r, result_id m r = None -> receive_result m self r = inl KeyError) /\
  (forall r id,
     result_id m r = Some id -> session_current self id = None ->
     item_truth (truth m) (_element self) = false -> _element_class self = None ->
     receive_result m self r = inl NoneAttributeError).
Proof.
  intros H Hbad.
  apply Forall2_app_inv_l in H as (es1 & es2 & H1 & H2 & ->).
  split; [|split; [|split]].
  - unfold _receive.
    assert (Hmsgs : forall msgs ea q,
              Forall2 (fun r e => receive_result m self r = inr e) (concat msgs) ea ->
              receive_msgs m self (msgs ++ (pre ++ bad :: post) :: msgs2) q =
                (Some x, (q ++ map Some ea) ++ map Some es2)).
    { intros msgs.
      induction msgs as [|results msgs IH]; intros ea q Hm; simpl in *.
      - inversion Hm; subst. simpl. rewrite app_nil_r.
        rewrite (receive_results_fail m self pre bad post x es2 q H2 Hbad).
        destruct (pre ++ bad :: post) eqn:Hl;
          [destruct pre; discriminate Hl | reflexivity].
      - apply Forall2_app_inv_l in Hm as (ea1 & eb & Ha & Hb & ->).
        destruct results as [|r results].
        + inversion Ha; subst. apply IH. exact Hb.
        + rewrite (receive_results_ok m self (r :: results) ea1 q Ha).
          rewrite (IH eb _ Hb), map_app, !app_assoc. reflexivity. }
    rewrite (Hmsgs msgs1 es1 [] H1). simpl. rewrite map_app. reflexivity.
  - intros Htruth. rewrite <- (app_nil_r (map Some (es1 ++ es2))) at 1.
    rewrite anexts_yield by exact Htruth.
    assert (Hw : anexts (truth m) k (MkResponse (@nil (option E)) false) =
                 (replicate k AwaitGet, MkResponse [] false)).
    { induction k as [|k IH]; simpl; [reflexivity | rewrite IH; reflexivity]. }
    rewrite Hw. reflexivity.
  - intros r Hr. unfold receive_result. rewrite Hr. reflexivity.
  - intros r id Hr Hcur Hel Hcls. unfold receive_result.
    rewrite Hr, Hcur, Hel, Hcls. reflexivity.
Qed.

(** X16: what the producer puts, the reader gets: after [_receive] has run
    to its end on an empty queue, with every result resolved to a truthy
    element, the [TraversalResponse] on that queue yields exactly these
    elements, one per result and in order, then raises [StopAsyncIteration],
    and returns [None] ever after. *)
Theorem receive_then_iterate {ID R E} (m : Mapping ID R E) self msgs es k :
  Forall2 (fun r e => receive_result m self r = inr e) (concat msgs) es ->
  (forall e, e ∈ es -> truth m e = true) ->
  anexts (truth m) (length es + S k)
         (MkResponse (_receive m self msgs []).2 false) =
    (map Yielded es ++ StopAsyncIteration :: replicate k ReturnedNone,
     MkResponse [] true).
Proof.
  intros H Htruth. unfold _receive. rewrite (receive_msgs_ok m self msgs es [] H).
  cbn [snd app]. rewrite anexts_yield by exact Htruth.
  rewrite (anexts_stop (truth m) None [] k eq_refl). reflexivity.
Qed.

Lemma receive_puts_all_witness :
  _receive example_mapping (example_traversal (Some 100%nat))
    [[(Some 1, 5); (Some 2, 7)]; []; [(Some 1, 1)]]%nat [] =
  (None, [Some 15; Some 107; Some 11; None]%nat).
Proof.
  refine (proj1 (receive_puts_all example_mapping (example_traversal (Some 100%nat))
                   [[(Some 1, 5); (Some 2, 7)]; []; [(Some 1, 1)]]%nat
                   [15; 107; 11]%nat [] _)).
  repeat constructor.
Defined.

Lemma receive_stops_at_failure_witness :
  _receive example_mapping (example_traversal None)
    [[(Some 1, 5)]; [(Some 1, 6); (Some 2, 7); (Some 1, 8)]; [(Some 1, 1)]]%nat [] =
  (Some NoneAttributeError, [Some 15; Some 16]%nat) /\
  anexts (truth example_mapping) 4 (MkResponse [Some 15; Some 16]%nat false) =
  ([Yielded 15; Yielded 16; AwaitGet; AwaitGet]%nat, MkResponse [] false).
Proof.
  destruct (receive_stops_at_failure example_mapping (example_traversal None)
              [[(Some 1, 5)]]%nat [(Some 1, 6)]%nat (Some 2, 7)%nat
              [(Some 1, 8)]%nat [[(Some 1, 1)]]%nat NoneAttributeError
              [15; 16]%nat 2) as (Hrecv & Hread & _).
  - repeat constructor.
  - reflexivity.
  - split; [exact Hrecv|]. apply Hread.
    intros e He. apply list_elem_of_In in He. simpl in He.
    destruct He as [<-|[<-|[]]]; reflexivity.
Defined.

Lemma receive_then_iterate_witness :
  anexts (truth example_mapping) 5
    (MkResponse (_receive example_mapping (example_traversal (Some 100%nat))
                   [[(Some 1, 5); (Some 2, 7)]; []; [(Some 1, 1)]]%nat []).2 false) =
  ([Yielded 15; Yielded 107; Yielded 11; StopAsyncIteration; ReturnedNone]%nat,
   MkResponse [] true).
Proof.
  refine (receive_then_iterate example_mapping (example_traversal (Some 100%nat))
            [[(Some 1, 5); (Some 2, 7)]; []; [(Some 1, 1)]]%nat
            [15; 107; 11]%nat 1 _ _).
  - repeat constructor.
  - intros e He. apply list_elem_of_In in He. simpl in He.
    destruct He as [<-|[<-|[<-|[]]]]; reflexivity.
Defined.
